(** * LORD* online FDR procedures (src/lordstar.cpp): a shallow embedding

    The three exported procedures of [lordstar.cpp]
    ([lordstar_async_faster], [lordstar_dep_faster], [lordstar_batch_faster])
    are embedded as functions in an error monad whose only failure is an
    element access outside a vector.

    Conventions of the embedding.
    - [double] values are kept abstract: the procedures are generic in a
      type [F] carrying the five operations the source applies to them
      ([0], [+], [-], [*], [<=]).  No algebraic law is assumed unless a
      theorem lists it, so the structural theorems hold for IEEE doubles
      as well as for exact rationals.  The theorems that depend on the
      arithmetic are stated on [double_arith], the binary64 numbers of
      the kernel with every operation rounded to nearest, ties to even;
      [Q_arith] only serves to run the procedures on concrete inputs.
    - [int] values are mathematical integers ([Z]); signed overflow is
      undefined in C++ and lies outside the model.
    - The [NumericVector]s [Rdec], [Rlag], [rcum] and [r] only ever hold
      small integers (counts and positions), which a double represents
      exactly; they are modelled as [list Z].
    - [Progress] (the progress bar) is an external collaborator and is
      left out, together with the [mysum] loop that only feeds it. *)

From Stdlib Require Import ZArith QArith Lia Floats.
From stdpp Require Import base tactics option list list_numbers sorting.

Local Open Scope Z_scope.

(** ** Results and checked element access *)

Inductive result (A : Type) : Type :=
| Ok (a : A)
| BoundsFault.
Arguments Ok {A} a.
Arguments BoundsFault {A}.

#[export] Instance result_ret : MRet result := @Ok.
#[export] Instance result_bind : MBind result :=
  λ A B f m, match m with Ok a => f a | BoundsFault => BoundsFault end.
#[export] Instance result_fmap : FMap result :=
  λ A B f m, match m with Ok a => Ok (f a) | BoundsFault => BoundsFault end.

(** Modelled from the spec: the element access [v[i]] of Rcpp's vectors
    is declared in Rcpp, not under src/.  The spec (section 7) makes an
    index outside [0, size) a bounds fault; an index inside it reads or
    writes that element. *)
Definition vget {A} (v : list A) (i : Z) : result A :=
  if decide (0 ≤ i) then
    match v !! Z.to_nat i with
    | Some x => Ok x
    | None => BoundsFault
    end
  else BoundsFault.

Definition vset {A} (v : list A) (i : Z) (x : A) : result (list A) :=
  if decide (0 ≤ i < Z.of_nat (length v)) then Ok (<[Z.to_nat i := x]> v)
  else BoundsFault.

(** Matrices ([NumericMatrix], [LogicalMatrix]) as lists of rows.  Rcpp
    stores them column-major and turns [(b, x)] into the linear index
    [b + nrow * x]; for [0 ≤ b < nrow] and [0 ≤ x] that index is inside the
    storage exactly when [x < ncol], which is the check made here. *)
Definition mget {A} (m : list (list A)) (b x : Z) : result A :=
  row ← vget m b; vget row x.

Definition mset {A} (m : list (list A)) (b x : Z) (a : A) : result (list (list A)) :=
  row ← vget m b; row' ← vset row x a; vset m b row'.

(** ** Counted loops

    [for_range lo hi body s] is [for (int i = lo; i < hi; i++) body],
    threading the variables the body updates as [s]. *)
Fixpoint for_loop {St} (n : nat) (lo : Z) (body : Z → St → result St) (s : St)
  : result St :=
  match n with
  | O => Ok s
  | S n' => s' ← body lo s; for_loop n' (lo + 1) body s'
  end.

Definition for_range {St} (lo hi : Z) (body : Z → St → result St) (s : St)
  : result St :=
  for_loop (Z.to_nat (hi - lo)) lo body s.

(** ** The cumulative-count inversion *)

(** Rcpp sugar [max]: start from the first element and keep the larger
    one.  It is only called on non-empty vectors, except for [max(batch)]
    with an empty [batch], where the procedure faults on [batch[0]] right
    after; [0] stands for that case. *)
Definition vmax (v : list Z) : Z :=
  match v with
  | [] => 0
  | x :: t => foldl (λ current challenger,
                       if decide (current < challenger) then challenger
                       else current) x t
  end.

(** [std::upper_bound(first, last, val)] is the C++ standard library's;
    this is the halving search of its implementations: [len] elements
    remain from position [first]; look at the middle one and keep the
    left half when [val] is smaller than it, the right half otherwise.
    The remaining length at least halves in each round, so [length v]
    rounds are enough for the search to end. *)
Fixpoint upper_bound_loop (fuel : nat) (v : list Z) (val : Z) (first len : nat)
  : nat :=
  match fuel with
  | O => first
  | S fuel' =>
      match len with
      | O => first
      | _ =>
          let half := Nat.div2 len in
          let middle := (first + half)%nat in
          if decide (val < nth middle v 0)
          then upper_bound_loop fuel' v val first half
          else upper_bound_loop fuel' v val (S middle) (len - half - 1)%nat
      end
  end.

Definition upper_bound (v : list Z) (val : Z) : Z :=
  Z.of_nat (upper_bound_loop (length v) v val 0 (length v)).

(** Lines 124-127 (dep): [for (y = 0; y < max(v); y++) r.push_back(upper_bound(v, y))]. *)
Definition positions (v : list Z) : list Z :=
  (λ y, upper_bound v y) <$> seqZ 0 (vmax v).

(** Lines 49-54 (async) and 196-201 (batch): the same loop under
    [if (max(v) > 0)]. *)
Definition positions_guarded (v : list Z) : list Z :=
  if decide (0 < vmax v) then positions v else [].

(** ** Numbers

    The operations the source applies to [double] values. *)
Class Arith (F : Type) : Type := {
  fzero : F;
  fadd : F → F → F;
  fsub : F → F → F;
  fmul : F → F → F;
  fle : F → F → bool
}.

(** Exact rational arithmetic, used to run the procedures on concrete
    inputs.  It is not a model of [double]: it has no rounding, no
    overflow and no NaN. *)
#[export] Instance Q_arith : Arith Q := {
  fzero := 0%Q;
  fadd := Qplus;
  fsub := Qminus;
  fmul := Qmult;
  fle := λ x y, if Qlt_le_dec y x then false else true
}.

(** The source's [double]: IEEE 754 binary64, with [+], [-] and [*]
    rounded to nearest (ties to even) and the comparison [<=], which is
    false as soon as one side is NaN. *)
#[export] Instance double_arith : Arith float := {
  fzero := 0%float;
  fadd := PrimFloat.add;
  fsub := PrimFloat.sub;
  fmul := PrimFloat.mul;
  fle := PrimFloat.leb
}.

(** ** The procedures *)

(** The per-run history: the thresholds, the decisions and the visible
    counts pushed so far ([Rdec] in [lordstar_async_faster], [Rlag] in
    [lordstar_dep_faster]). *)
Record history (F : Type) : Type := History {
  alphai : list F;
  R : list bool;
  Rdec : list Z
}.
Arguments History {F} _ _ _.
Arguments alphai {F} _.
Arguments R {F} _.
Arguments Rdec {F} _.
Abbreviation Rlag := Rdec (only parsing).

Section Procedures.
Context {F : Type} `{Arith F}.

(** Lines 56-81, 129-154 and 203-222: the three-way threshold formula.
    The text is the same in the three procedures up to how a position
    [r[g]] is turned into an index of [gammai]: [i - r[g] - 1] in the
    async and dependency procedures, [i - batchsum[r[g]]] in the batch
    one; [age] is that conversion. *)
Definition lord_threshold (age : Z → result Z) (gammai : list F)
    (w0 alpha : F) (i : Z) (r : list Z) : result F :=
  if decide (Z.of_nat (length r) ≤ 1) then
    if decide (0 < Z.of_nat (length r)) then
      gi ← vget gammai i;
      r0 ← vget r 0;
      a0 ← age r0;
      ga ← vget gammai a0;
      Ok (fadd (fmul gi w0) (fmul (fsub alpha w0) ga))
    else
      gi ← vget gammai i;
      Ok (fmul gi w0)
  else
    gammaisum ← for_range 1 (Z.of_nat (length r))
                  (λ g gammaisum,
                     rg ← vget r g;
                     ag ← age rg;
                     ga ← vget gammai ag;
                     Ok (fadd gammaisum ga))
                  fzero;
    gi ← vget gammai i;
    r0 ← vget r 0;
    a0 ← age r0;
    ga ← vget gammai a0;
    Ok (fadd (fadd (fmul gi w0) (fmul (fsub alpha w0) ga))
             (fmul alpha gammaisum)).

(** [i - r[g] - 1] *)
Definition step_age (i : Z) (rg : Z) : result Z := Ok (i - rg - 1).

(** [alphai[i] = t; R[i] = (pval[i] <= alphai[i]);] *)
Definition decide_at (pval : list F) (i : Z) (t : F)
    (al : list F) (rj : list bool) : result (list F * list bool) :=
  al' ← vset al i t;
  p ← vget pval i;
  a ← vget al' i;
  rj' ← vset rj i (fle p a);
  Ok (al', rj').

(** Lines 39-45: the rejected tests [j < i] whose horizon has passed. *)
Definition async_cond (Rv : list bool) (E : list Z) (i : Z) : result Z :=
  for_range 0 i
    (λ j cond,
       rj ← vget Rv j;
       if (rj : bool) then
         ej ← vget E j;
         Ok (if decide (ej - 1 ≤ i - 1) then cond + 1 else cond)
       else Ok cond)
    0.

(** Lines 35-82: one round of the loop of [lordstar_async_faster]. *)
Definition async_step (pval : list F) (E : list Z) (gammai : list F)
    (w0 alpha : F) (i : Z) (h : history F) : result (history F) :=
  cond ← async_cond (R h) E i;
  let Rdec' := Rdec h ++ [cond] in
  let r := positions_guarded Rdec' in
  t ← lord_threshold (step_age i) gammai w0 alpha i r;
  '(al, rj) ← decide_at pval i t (alphai h) (R h);
  Ok (History al rj Rdec').

(** Lines 22-82 of [lordstar_async_faster], keeping [Rdec]. *)
Definition lordstar_async_run (pval : list F) (E : list Z) (gammai : list F)
    (w0 alpha : F) : result (history F) :=
  let N := Z.of_nat (length pval) in
  g0 ← vget gammai 0;
  '(al, rj) ← decide_at pval 0 (fmul g0 w0)
                (replicate (length pval) fzero) (replicate (length pval) false);
  Rdectest ← vset (replicate (length pval) 0) 1 1;
  for_range 1 N (async_step pval E gammai w0 alpha) (History al rj []).

(** The data frame returned: [pval], [alphai], [R]. *)
Definition lordstar_async_faster (pval : list F) (E : list Z)
    (gammai : list F) (w0 alpha : F) : result (list F * list F * list bool) :=
  h ← lordstar_async_run pval E gammai w0 alpha;
  Ok (pval, alphai h, R h).


(** Lines 112-120: the rejected tests more than [L[i]] steps back. *)
Definition dep_cond (Rv : list bool) (L : list Z) (i : Z) : result Z :=
  li ← vget L i;
  if decide (0 ≤ i - 1 - li) then
    for_range 0 (i - li)
      (λ j cond,
         rj ← vget Rv j;
         Ok (if (rj : bool) then cond + 1 else cond))
      0
  else Ok 0.

(** Lines 108-155: one round of the loop of [lordstar_dep_faster]. *)
Definition dep_step (pval : list F) (L : list Z) (gammai : list F)
    (w0 alpha : F) (i : Z) (h : history F) : result (history F) :=
  cond ← dep_cond (R h) L i;
  let Rlag' := Rlag h ++ [cond] in
  let r := positions Rlag' in
  t ← lord_threshold (step_age i) gammai w0 alpha i r;
  '(al, rj) ← decide_at pval i t (alphai h) (R h);
  Ok (History al rj Rlag').

(** Lines 98-155 of [lordstar_dep_faster], keeping [Rlag]. *)
Definition lordstar_dep_run (pval : list F) (L : list Z) (gammai : list F)
    (w0 alpha : F) : result (history F) :=
  let N := Z.of_nat (length pval) in
  g0 ← vget gammai 0;
  '(al, rj) ← decide_at pval 0 (fmul g0 w0)
                (replicate (length pval) fzero) (replicate (length pval) false);
  for_range 1 N (dep_step pval L gammai w0 alpha) (History al rj []).

(** The data frame returned: [pval], [lag], [alphai], [R]. *)
Definition lordstar_dep_faster (pval : list F) (L : list Z)
    (gammai : list F) (w0 alpha : F)
  : result (list F * list Z * list F * list bool) :=
  h ← lordstar_dep_run pval L gammai w0 alpha;
  Ok (pval, L, alphai h, R h).

(** [rowSums(R)] of a logical matrix and [cumsum]. *)
Definition rowSums (Rm : list (list bool)) : list Z :=
  (λ row, Z.of_nat (length (filter (λ c, c = true) row))) <$> Rm.

Fixpoint cumsum_from (acc : Z) (v : list Z) : list Z :=
  match v with
  | [] => []
  | x :: t => (acc + x) :: cumsum_from (acc + x) t
  end.
Definition cumsum (v : list Z) : list Z := cumsum_from 0 v.

(** [alphai(b,x) = t; R(b,x) = (pval[k] <= alphai(b,x));] *)
Definition decide_cell (pval : list F) (b x k : Z) (t : F)
    (al : list (list F)) (rj : list (list bool))
  : result (list (list F) * list (list bool)) :=
  al' ← mset al b x t;
  p ← vget pval k;
  a ← mget al' b x;
  rj' ← mset rj b x (fle p a);
  Ok (al', rj').

(** [batchsum[b-1] + x - batchsum[r[g]]] *)
Definition batch_age (batchsum : list Z) (k : Z) (rg : Z) : result Z :=
  bz ← vget batchsum rg; Ok (k - bz).

(** Lines 193-224: the test at offset [x] of batch [b]. *)
Definition batch_test (pval : list F) (batchsum : list Z) (gammai : list F)
    (w0 alpha : F) (b : Z) (rcum : list Z) (x : Z)
    (m : list (list F) * list (list bool))
  : result (list (list F) * list (list bool)) :=
  let r := positions_guarded rcum in
  bs ← vget batchsum (b - 1);
  t ← lord_threshold (batch_age batchsum (bs + x)) gammai w0 alpha (bs + x) r;
  decide_cell pval b x (bs + x) t m.1 m.2.

(** Lines 190-225: batch [b]. *)
Definition batch_step (pval : list F) (batch batchsum : list Z)
    (gammai : list F) (w0 alpha : F) (b : Z)
    (m : list (list F) * list (list bool))
  : result (list (list F) * list (list bool)) :=
  let rcum := cumsum (rowSums m.2) in
  nb ← vget batch b;
  for_range 0 nb (batch_test pval batchsum gammai w0 alpha b rcum) m.

(** Lines 185-188: the tests of batch 0. *)
Definition batch_seed (pval : list F) (gammai : list F) (w0 : F) (i : Z)
    (m : list (list F) * list (list bool))
  : result (list (list F) * list (list bool)) :=
  gi ← vget gammai i;
  decide_cell pval 0 i i (fmul gi w0) m.1 m.2.

(** [lordstar_batch_faster]: the list returned, [alphai] and [R]. *)
Definition lordstar_batch_faster (pval : list F) (batch batchsum : list Z)
    (gammai : list F) (w0 alpha : F)
  : result (list (list F) * list (list bool)) :=
  let B := length batch in
  let ncol := Z.to_nat (vmax batch) in
  let al := replicate B (replicate ncol fzero) in
  let rj := replicate B (replicate ncol false) in
  n0 ← vget batch 0;
  m ← for_range 0 n0 (batch_seed pval gammai w0) (al, rj);
  for_range 1 (Z.of_nat B) (batch_step pval batch batchsum gammai w0 alpha) m.

End Procedures.

(** ** Vocabulary of the statements *)

(** Two results that are both faults, or both values and then related. *)
Definition result_rel {A B} (Q : A → B → Prop) (x : result A) (y : result B) : Prop :=
  match x, y with
  | Ok a, Ok b => Q a b
  | BoundsFault, BoundsFault => True
  | _, _ => False
  end.

(** Non-decreasing vectors, by positions. *)
Definition nondecreasing (v : list Z) : Prop :=
  ∀ i j, (i ≤ j < length v)%nat → nth i v 0 ≤ nth j v 0.

(** The cell [(b, x)] of a matrix, when it has one. *)
Definition cell {A} (m : list (list A)) (b x : nat) : option A :=
  m !! b ≫= (λ row, row !! x).

(** A vector as a matrix with one column, one row per element. *)
Definition column {A} (v : list A) : list (list A) := (λ a, [a]) <$> v.

(** The place among the p-values of the test at offset [x] of batch [b]:
    [x] in batch 0, [batchsum[b-1] + x] in the later ones. *)
Definition test_index (batchsum : list Z) (b x : nat) : Z :=
  match b with
  | O => Z.of_nat x
  | S b' => nth b' batchsum 0 + Z.of_nat x
  end.

(** The number of rejections in a vector of decisions. *)
Definition count_true (l : list bool) : Z :=
  Z.of_nat (length (filter (λ c, c = true) l)).

(** The scenario of the spec, section 8, and a busier stream of p-values
    on which several rejections become visible. *)
Definition scenario_pval : list Q := [1#1000; 2#10; 3#100; 5#10; 2#100]%Q.
Definition scenario_gammai : list Q := [4#10; 25#100; 15#100; 1#10; 1#10]%Q.
Definition scenario_w0 : Q := (5#1000)%Q.
Definition scenario_alpha : Q := (5#100)%Q.
Definition busy_pval : list Q := [1#1000; 1#100; 1#100; 5#10; 1#1000]%Q.

(** A stream of doubles on which several rejections become visible, and
    the largest power of two among the doubles, [2^1023]. *)
Definition double_pval : list float := [0.0009765625; 0.5; 0.03125; 0.5; 0.015625]%float.
Definition double_w0 : float := 0.0078125%float.
Definition double_alpha : float := 0.0625%float.



(** A zero of either sign, and a number that is neither NaN nor
    infinite, on that specification. *)
Definition sf_zero (s : spec_float) : Prop :=
  match s with S754_zero _ => True | _ => False end.
Definition sf_finite (s : spec_float) : Prop :=
  match s with S754_zero _ | S754_finite _ _ _ => True | _ => False end.

Section Vocabulary.
Context {F : Type} `{Arith F}.

(** [gammai[k]], for the statements: the entry at [k] of a vector known
    to hold one there. *)
Definition gam (gammai : list F) (k : Z) : F := default fzero (gammai !! Z.to_nat k).

(** The value of the threshold at step [i] from the indices [ages] of
    [gammai] that the positions are turned into. *)
Definition threshold_of (gammai : list F) (w0 alpha : F) (i : Z) (ages : list Z) : F :=
  match ages with
  | [] => fmul (gam gammai i) w0
  | [a0] => fadd (fmul (gam gammai i) w0) (fmul (fsub alpha w0) (gam gammai a0))
  | a0 :: rest =>
      fadd (fadd (fmul (gam gammai i) w0) (fmul (fsub alpha w0) (gam gammai a0)))
           (fmul alpha (foldl (λ s a, fadd s (gam gammai a)) fzero rest))
  end.

(** The three cases of the spec, section 4.1, on the positions [r]. *)
Definition threshold_formula (gammai : list F) (w0 alpha : F) (i : Z) (r : list Z) : F :=
  match r with
  | [] => fmul (gam gammai i) w0
  | [r0] =>
      fadd (fmul (gam gammai i) w0) (fmul (fsub alpha w0) (gam gammai (i - r0 - 1)))
  | r0 :: rest =>
      fadd (fadd (fmul (gam gammai i) w0)
                 (fmul (fsub alpha w0) (gam gammai (i - r0 - 1))))
           (fmul alpha (foldl (λ s rg, fadd s (gam gammai (i - rg - 1))) fzero rest))
  end.

(** An index is read from [gammai] through [age]. *)
Definition reads (age : Z → result Z) (gammai : list F) (rg a : Z) : Prop :=
  age rg = Ok a ∧ 0 ≤ a < Z.of_nat (length gammai).

(** The visible counts of the two sequential procedures. *)
Definition async_count (E : list Z) : list bool → Z → result Z :=
  λ Rv i, async_cond Rv E i.
Definition dep_count (L : list Z) : list bool → Z → result Z :=
  λ Rv i, dep_cond Rv L i.

Section Recursion.
Variable cnt : list bool → Z → result Z.
Variables pval gammai : list F.
Variables w0 alpha : F.

(** One round with the visible count of the step computed by [cnt]. *)
Definition lord_step (i : Z) (h : history F) : result (history F) :=
  cond ← cnt (R h) i;
  t ← lord_threshold (step_age i) gammai w0 alpha i (positions (Rdec h ++ [cond]));
  '(al, rj) ← decide_at pval i t (alphai h) (R h);
  Ok (History al rj (Rdec h ++ [cond])).

Definition lord_run : result (history F) :=
  g0 ← vget gammai 0;
  '(al, rj) ← decide_at pval 0 (fmul g0 w0)
                (replicate (length pval) fzero) (replicate (length pval) false);
  for_range 1 (Z.of_nat (length pval)) lord_step (History al rj []).

(** What holds of the history when step [i] is about to run. *)
Record run_inv (i : Z) (h : history F) : Prop := {
  inv_len_alphai : length (alphai h) = length pval;
  inv_len_R : length (R h) = length pval;
  inv_len_Rdec : Z.of_nat (length (Rdec h)) = i - 1;
  inv_gammai : i ≤ Z.of_nat (length gammai);
  inv_seed : alphai h !! 0%nat = Some (fmul (gam gammai 0) w0);
  inv_decision : ∀ k : nat, Z.of_nat k < i →
    ∃ p a, pval !! k = Some p ∧ alphai h !! k = Some a ∧ R h !! k = Some (fle p a);
  inv_threshold : ∀ k : nat, 1 ≤ Z.of_nat k < i →
    Forall (λ rg, 0 ≤ Z.of_nat k - rg - 1 < Z.of_nat (length gammai))
           (positions (take k (Rdec h))) ∧
    alphai h !! k
    = Some (threshold_formula gammai w0 alpha (Z.of_nat k) (positions (take k (Rdec h))));
  inv_count : ∀ k : nat, 1 ≤ Z.of_nat k < i →
    ∃ Rv c, cnt Rv (Z.of_nat k) = Ok c ∧ Rdec h !! (k - 1)%nat = Some c ∧
            take k Rv = take k (R h);
  inv_pending : ∀ k : nat, i ≤ Z.of_nat k → (k < length pval)%nat →
    R h !! k = Some false
}.

End Recursion.

(** A threshold is the initial [0] or a value of the formula. *)
Definition threshold_like (gammai : list F) (w0 alpha : F) (a : F) : Prop :=
  a = fzero ∨ ∃ k ages, a = threshold_of gammai w0 alpha k ages.

(** The test at offset [x] of batch [b] has been decided: its cells hold
    a value of the formula at its place [k] among the p-values (with no
    history term in batch 0) and the comparison of [pval[k]] with it. *)
Definition cell_done (pval : list F) (batchsum : list Z) (gammai : list F)
    (w0 alpha : F) (m : list (list F) * list (list bool)) (b x : nat) : Prop :=
  ∃ p ages,
    0 ≤ test_index batchsum b x < Z.of_nat (length gammai) ∧
    pval !! Z.to_nat (test_index batchsum b x) = Some p ∧
    Forall (λ a, 0 ≤ a < Z.of_nat (length gammai)) ages ∧
    (b = O → ages = []) ∧
    cell m.1 b x = Some (threshold_of gammai w0 alpha (test_index batchsum b x) ages) ∧
    cell m.2 b x
    = Some (fle p (threshold_of gammai w0 alpha (test_index batchsum b x) ages)).

(** What holds of the matrices when the test at offset [x] of batch [b]
    is about to run. *)
Definition batch_inv (pval : list F) (batch batchsum : list Z) (gammai : list F)
    (w0 alpha : F) (b x : Z) (m : list (list F) * list (list bool)) : Prop :=
  (∀ (b' x' : nat) (nb : Z),
     batch !! b' = Some nb → Z.of_nat x' < nb →
     Z.of_nat b' < b ∨ (Z.of_nat b' = b ∧ Z.of_nat x' < x) →
     cell_done pval batchsum gammai w0 alpha m b' x') ∧
  (∀ (b' x' : nat) (a : F),
     cell m.1 b' x' = Some a → threshold_like gammai w0 alpha a).

(** The batch procedure on batches of one test, about to run batch [i],
    against the dependency procedure about to run step [i]: the matrices
    are the vectors as columns, the decisions from [i] on are pending and
    [Rlag] holds the numbers of rejections before the steps [1] to
    [i - 1]. *)
Definition unit_batch_rel (N : nat) (i : Z)
    (m : list (list F) * list (list bool)) (h : history F) : Prop :=
  m = (column (alphai h), column (R h)) ∧
  length (alphai h) = N ∧ length (R h) = N ∧
  (∀ k : nat, i ≤ Z.of_nat k → (k < N)%nat → R h !! k = Some false) ∧
  Rlag h = (λ k, count_true (take k (R h))) <$> seq 1 (Z.to_nat i - 1).

End Vocabulary.

(** ** Vocabulary of the further properties *)

(** The condition of line 42 as a total function: test [j] is rejected
    in [Rv] and its horizon [E[j]] has passed at step [i]. *)
Definition visible (Rv : list bool) (E : list Z) (i : Z) (j : nat) : bool :=
  match Rv !! j, E !! j with
  | Some true, Some ej => bool_decide (ej - 1 ≤ i - 1)
  | _, _ => false
  end.

(** The number of tests before [i] that are visible at step [i]. *)
Definition visible_count (E : list Z) (Rv : list bool) (i : Z) : Z :=
  count_true (visible Rv E i <$> seq 0 (Z.to_nat i)).

(** The number of rejections more than [L[i]] steps before step [i]. *)
Definition lagged_count (L : list Z) (Rv : list bool) (i : Z) : Z :=
  count_true (take (Z.to_nat (i - nth (Z.to_nat i) L 0)) Rv).

(** The history [hs] of a run on the first [n] p-values against the
    history [hf] of the run on all [N] of them, both about to run a step
    before [n]: the same thresholds, decisions and counts so far. *)
Definition truncated {F} (n N : nat) (hf hs : history F) : Prop :=
  alphai hs = take n (alphai hf) ∧ R hs = take n (R hf) ∧ Rdec hs = Rdec hf ∧
  length (alphai hf) = N ∧ length (R hf) = N.

(** The threshold of the test at offset [x] of batch [b], from the
    decisions [Rm] of the batches before [b]: the running total of their
    rejections is inverted and the formula is applied at the place [k] of
    the test, a position [rg] giving the index [k − batchsum[rg]]. *)
Definition batch_threshold {F} `{Arith F} (batchsum : list Z) (gammai : list F)
    (w0 alpha : F) (Rm : list (list bool)) (b x : nat) : F :=
  threshold_of gammai w0 alpha (test_index batchsum b x)
    ((λ rg, test_index batchsum b x - nth (Z.to_nat rg) batchsum 0) <$>
       positions (cumsum (rowSums (take b Rm)))).

(** What holds of the matrices of the batch procedure when the test at
    offset [x] of batch [b] is about to run: their shape, the initial
    value of every cell that is not a decided test, and the threshold of
    every decided test. *)
Record batch_state {F} `{Arith F} (batch batchsum : list Z) (gammai : list F)
    (w0 alpha : F) (b x : Z) (m : list (list F) * list (list bool)) : Prop := {
  bs_len_al : length m.1 = length batch;
  bs_len_rj : length m.2 = length batch;
  bs_rows_al : ∀ (b' : nat) row,
    m.1 !! b' = Some row → length row = Z.to_nat (vmax batch);
  bs_rows_rj : ∀ (b' : nat) row,
    m.2 !! b' = Some row → length row = Z.to_nat (vmax batch);
  bs_unused : ∀ (b' x' : nat) (nb : Z),
    batch !! b' = Some nb → (x' < Z.to_nat (vmax batch))%nat →
    nb ≤ Z.of_nat x' ∨ b < Z.of_nat b' ∨ (Z.of_nat b' = b ∧ x ≤ Z.of_nat x') →
    cell m.1 b' x' = Some fzero ∧ cell m.2 b' x' = Some false;
  bs_formula : ∀ (b' x' : nat) (nb : Z),
    batch !! b' = Some nb → Z.of_nat x' < nb →
    Z.of_nat b' < b ∨ (Z.of_nat b' = b ∧ Z.of_nat x' < x) →
    cell m.1 b' x' = Some (batch_threshold batchsum gammai w0 alpha m.2 b' x')
}.

(** A vector is non-decreasing, by lookups. *)
Definition ascending (v : list Z) : Prop :=
  ∀ (a b : nat) (x y : Z), (a ≤ b)%nat → v !! a = Some x → v !! b = Some y → x ≤ y.

(** ** Basic facts about the monad, the accesses and the loops *)

Lemma bind_Ok {A B} (m : result A) (f : A → result B) (b : B) :
  m ≫= f = Ok b ↔ ∃ a, m = Ok a ∧ f a = Ok b.
Proof.
  destruct m as [a|]; simpl; split.
  - intros Hf. exists a. done.
  - intros (a' & [= <-] & Hf). done.
  - done.
  - intros (a' & Hm & _). done.
Qed.

Lemma vget_Ok {A} (v : list A) (i : Z) (x : A) :
  vget v i = Ok x ↔ 0 ≤ i ∧ v !! Z.to_nat i = Some x.
Proof.
  unfold vget. destruct (decide (0 ≤ i)) as [Hi|Hi].
  - destruct (v !! Z.to_nat i) as [y|]; split.
    + intros [= ->]. done.
    + intros [_ [= ->]]. done.
    + done.
    + intros [_ ?]. done.
  - split; [done | intros [? _]; lia].
Qed.

Lemma vget_lt {A} (v : list A) (i : Z) (x : A) :
  vget v i = Ok x → 0 ≤ i < Z.of_nat (length v).
Proof.
  intros [Hi Hl]%vget_Ok. apply lookup_lt_Some in Hl. lia.
Qed.

Lemma vset_Ok {A} (v v' : list A) (i : Z) (x : A) :
  vset v i x = Ok v' ↔ 0 ≤ i < Z.of_nat (length v) ∧ v' = <[Z.to_nat i := x]> v.
Proof.
  unfold vset. destruct (decide _) as [Hi|Hi]; split.
  - intros [= <-]. done.
  - intros [_ ->]. done.
  - done.
  - intros [? _]. lia.
Qed.

Lemma vget_vset_eq {A} (v v' : list A) (i : Z) (x : A) :
  vset v i x = Ok v' → vget v' i = Ok x.
Proof.
  intros [Hi ->]%vset_Ok. apply vget_Ok. split; [lia|].
  apply list_lookup_insert_eq. lia.
Qed.

(** [bind_inv Hb as a Ha] splits [Hb : m ≫= f = Ok b] into [Ha : m = Ok a]
    and [Hb : f a = Ok b]. *)
Tactic Notation "bind_inv" hyp(Hb) "as" ident(a) ident(Ha) :=
  apply bind_Ok in Hb; destruct Hb as (a & Ha & Hb).

Section Loops.
Context {St : Type}.
Implicit Types (body : Z → St → result St) (P : Z → St → Prop).

Lemma for_loop_inv P body n lo s s' :
  P lo s →
  (∀ i t t', lo ≤ i < lo + Z.of_nat n → P i t → body i t = Ok t' → P (i + 1) t') →
  for_loop n lo body s = Ok s' →
  P (lo + Z.of_nat n) s'.
Proof.
  revert lo s. induction n as [|n IH]; intros lo s H0 Hstep Hrun; simpl in Hrun.
  - injection Hrun as <-. by replace (lo + Z.of_nat 0) with lo by lia.
  - bind_inv Hrun as s1 Hs1.
    replace (lo + Z.of_nat (S n)) with ((lo + 1) + Z.of_nat n) by lia.
    apply (IH (lo + 1) s1); [| |done].
    + apply (Hstep lo s); [lia|done|done].
    + intros i t t' Hi. apply Hstep. lia.
Qed.

Lemma for_range_inv P body lo hi s s' :
  lo ≤ hi →
  P lo s →
  (∀ i t t', lo ≤ i < hi → P i t → body i t = Ok t' → P (i + 1) t') →
  for_range lo hi body s = Ok s' →
  P hi s'.
Proof.
  intros Hle H0 Hstep Hrun. unfold for_range in Hrun.
  replace hi with (lo + Z.of_nat (Z.to_nat (hi - lo))) by lia.
  apply (for_loop_inv P body _ lo s s'); [done| |done].
  intros i t t' Hi. apply Hstep. lia.
Qed.

Lemma for_range_empty body lo hi s : hi ≤ lo → for_range lo hi body s = Ok s.
Proof.
  intros Hle. unfold for_range. by replace (Z.to_nat (hi - lo)) with O by lia.
Qed.

Lemma for_range_single body lo hi s :
  hi = lo + 1 → for_range lo hi body s = body lo s.
Proof.
  intros ->. unfold for_range. replace (Z.to_nat (lo + 1 - lo)) with 1%nat by lia.
  simpl. by destruct (body lo s).
Qed.

Lemma for_loop_ext body1 body2 n lo s :
  (∀ i t, lo ≤ i < lo + Z.of_nat n → body1 i t = body2 i t) →
  for_loop n lo body1 s = for_loop n lo body2 s.
Proof.
  revert lo s. induction n as [|n IH]; intros lo s Hext; simpl; [done|].
  rewrite Hext by lia. destruct (body2 lo s) as [s1|]; [|done]. simpl.
  apply IH. intros i t Hi. apply Hext. lia.
Qed.

Lemma for_range_ext body1 body2 lo hi s :
  (∀ i t, lo ≤ i < hi → body1 i t = body2 i t) →
  for_range lo hi body1 s = for_range lo hi body2 s.
Proof.
  intros Hext. apply for_loop_ext. intros i t Hi. apply Hext. lia.
Qed.

End Loops.

Lemma for_loop_sim {S1 S2} (Q : Z → S1 → S2 → Prop)
    (b1 : Z → S1 → result S1) (b2 : Z → S2 → result S2) n lo s1 s2 :
  Q lo s1 s2 →
  (∀ i t1 t2, lo ≤ i < lo + Z.of_nat n → Q i t1 t2 →
     result_rel (Q (i + 1)) (b1 i t1) (b2 i t2)) →
  result_rel (Q (lo + Z.of_nat n)) (for_loop n lo b1 s1) (for_loop n lo b2 s2).
Proof.
  revert lo s1 s2. induction n as [|n IH]; intros lo s1 s2 H0 Hstep; simpl.
  - by replace (lo + Z.of_nat 0) with lo by lia.
  - specialize (Hstep lo s1 s2 ltac:(lia) H0) as Hnow.
    destruct (b1 lo s1) as [t1|], (b2 lo s2) as [t2|]; simpl in *; try done.
    replace (lo + Z.of_nat (S n)) with ((lo + 1) + Z.of_nat n) by lia.
    apply IH; [done|]. intros i u1 u2 Hi. apply Hstep. lia.
Qed.

Lemma for_range_sim {S1 S2} (Q : Z → S1 → S2 → Prop)
    (b1 : Z → S1 → result S1) (b2 : Z → S2 → result S2) lo hi s1 s2 :
  lo ≤ hi →
  Q lo s1 s2 →
  (∀ i t1 t2, lo ≤ i < hi → Q i t1 t2 →
     result_rel (Q (i + 1)) (b1 i t1) (b2 i t2)) →
  result_rel (Q hi) (for_range lo hi b1 s1) (for_range lo hi b2 s2).
Proof.
  intros Hle H0 Hstep. unfold for_range.
  replace hi with (lo + Z.of_nat (Z.to_nat (hi - lo))) at 1 by lia.
  apply for_loop_sim; [done|]. intros i t1 t2 Hi. apply Hstep. lia.
Qed.

(** ** The maximum and the halving search *)

Lemma Sorted_nondecreasing v : Sorted Z.le v → nondecreasing v.
Proof.
  intros Hs%Sorted_StronglySorted; [|intros x y z; lia].
  induction Hs as [|x l Hl IH Hx]; intros i j Hij; simpl in *; [lia|].
  destruct i as [|i], j as [|j]; try lia.
  - rewrite Forall_forall in Hx. apply Hx, list_elem_of_In, nth_In. lia.
  - apply IH. lia.
Qed.

Lemma vmax_foldl_ge (x : Z) (t : list Z) :
  let m := foldl (λ current challenger,
                    if decide (current < challenger) then challenger else current) x t in
  x ≤ m ∧ (∀ c, c ∈ t → c ≤ m) ∧ m ∈ x :: t.
Proof.
  revert x. induction t as [|c t IH]; intros x; simpl.
  - split; [lia|]. split; [intros c Hc; by apply elem_of_nil in Hc | apply list_elem_of_here].
  - destruct (IH (if decide (x < c) then c else x)) as (H1 & H2 & H3).
    split; [destruct (decide (x < c)); lia|]. split.
    + intros d [Hd|Hd]%elem_of_cons; [subst d; destruct (decide (x < c)); lia | by apply H2].
    + apply elem_of_cons in H3 as [H3|H3].
      * rewrite H3. destruct (decide (x < c)); [apply list_elem_of_further|]; constructor.
      * by do 2 apply list_elem_of_further.
Qed.

Lemma vmax_ge (v : list Z) (c : Z) : c ∈ v → c ≤ vmax v.
Proof.
  destruct v as [|x t]; [intros Hc; by apply elem_of_nil in Hc|].
  destruct (vmax_foldl_ge x t) as (H1 & H2 & _).
  intros [->|Hc]%elem_of_cons; [done | by apply H2].
Qed.

Lemma vmax_elem (v : list Z) : v ≠ [] → vmax v ∈ v.
Proof.
  destruct v as [|x t]; [done|]. intros _. apply (vmax_foldl_ge x t).
Qed.

Lemma upper_bound_loop_spec (v : list Z) (val : Z) :
  nondecreasing v →
  ∀ fuel first len,
    (len ≤ fuel)%nat →
    (first + len ≤ length v)%nat →
    (∀ j, (j < first)%nat → nth j v 0 ≤ val) →
    (∀ j, (first + len ≤ j < length v)%nat → val < nth j v 0) →
    let p := upper_bound_loop fuel v val first len in
    (first ≤ p ≤ first + len)%nat ∧
    (∀ j, (j < p)%nat → nth j v 0 ≤ val) ∧
    (∀ j, (p ≤ j < length v)%nat → val < nth j v 0).
Proof.
  intros Hv. induction fuel as [|fuel IH]; intros first len Hfuel Hlen Hlo Hhi; simpl.
  - assert (len = O) as -> by lia. split; [lia|]. split; [done|].
    intros j Hj. apply Hhi. lia.
  - destruct len as [|len'] eqn:Elen.
    + split; [lia|]. split; [done|]. intros j Hj. apply Hhi. lia.
    + rewrite <- Elen in *. assert (Hhalf : (Nat.div2 len < len)%nat).
      { apply Nat.lt_div2. lia. }
      set (half := Nat.div2 len) in *.
      destruct (decide (val < nth (first + half) v 0)) as [Hlt|Hge].
      * destruct (IH first half) as (H1 & H2 & H3); [lia|lia|done| |].
        { intros j Hj. specialize (Hv (first + half)%nat j). lia. }
        split; [lia|]. done.
      * destruct (IH (S (first + half)) (len - half - 1)%nat) as (H1 & H2 & H3);
          [lia|lia| | |].
        { intros j Hj. specialize (Hv j (first + half)%nat). lia. }
        { intros j Hj. apply Hhi. lia. }
        split; [lia|]. done.
Qed.

(** On a non-decreasing vector the search returns the leftmost position
    holding a value above [val] (the length when there is none). *)
Lemma upper_bound_spec (v : list Z) (val : Z) :
  nondecreasing v →
  ∃ p : nat, upper_bound v val = Z.of_nat p ∧ (p ≤ length v)%nat ∧
    (∀ j, (j < p)%nat → nth j v 0 ≤ val) ∧
    (∀ j, (p ≤ j < length v)%nat → val < nth j v 0).
Proof.
  intros Hv. exists (upper_bound_loop (length v) v val 0 (length v)).
  destruct (upper_bound_loop_spec v val Hv (length v) 0%nat (length v))
    as (H1 & H2 & H3); [lia|lia| | |].
  - intros j Hj. lia.
  - intros j Hj. lia.
  - split; [done|]. split; [lia|]. done.
Qed.

Lemma upper_bound_below_max (v : list Z) (y : Z) :
  nondecreasing v → 0 ≤ y < vmax v →
  ∃ p : nat, upper_bound v y = Z.of_nat p ∧ (p < length v)%nat ∧
    y < nth p v 0 ∧ (∀ j, (j < p)%nat → nth j v 0 ≤ y).
Proof.
  intros Hv Hy. destruct (upper_bound_spec v y Hv) as (p & Hp & Hlen & Hlo & Hhi).
  exists p. split; [done|].
  assert (Hne : v ≠ []) by (intros ->; simpl in Hy; lia).
  apply vmax_elem, list_elem_of_lookup in Hne as [k Hk].
  assert (Hklen : (k < length v)%nat) by (by apply lookup_lt_Some in Hk).
  assert (Hkn : nth k v 0 = vmax v) by (by rewrite nth_lookup, Hk).
  assert (p < length v)%nat.
  { destruct (decide (p ≤ k)%nat); [lia|]. specialize (Hlo k). lia. }
  split; [done|]. split; [apply Hhi; lia | done].
Qed.

Lemma positions_guarded_eq (v : list Z) : positions_guarded v = positions v.
Proof.
  unfold positions_guarded, positions. destruct (decide (0 < vmax v)); [done|].
  by rewrite seqZ_nil by lia.
Qed.

Lemma length_positions (v : list Z) : length (positions v) = Z.to_nat (vmax v).
Proof. unfold positions. by rewrite length_fmap, length_seqZ. Qed.

Lemma lookup_positions (v : list Z) (y : Z) :
  0 ≤ y < vmax v → positions v !! Z.to_nat y = Some (upper_bound v y).
Proof.
  intros Hy. unfold positions. rewrite list_lookup_fmap, lookup_seqZ_lt by lia.
  simpl. f_equal. f_equal. lia.
Qed.

(** C3: on a non-decreasing sequence the inversion used by the three
    procedures (guarded or not, the two loops give the same list) has one
    entry for each count level [y] from [0] to the maximum count minus
    one, and that entry is the leftmost position whose count exceeds [y]:
    the count there is above [y] and every count to its left is at most
    [y]. *)
Theorem positions_leftmost (v : list Z) :
  Sorted Z.le v →
  positions_guarded v = positions v ∧
  length (positions v) = Z.to_nat (vmax v) ∧
  ∀ y, 0 ≤ y < vmax v →
    ∃ z : nat, positions v !! Z.to_nat y = Some (Z.of_nat z) ∧
      (∃ c, v !! z = Some c ∧ y < c) ∧
      (∀ j c, (j < z)%nat → v !! j = Some c → c ≤ y).
Proof.
  intros Hv%Sorted_nondecreasing.
  split; [apply positions_guarded_eq|]. split; [apply length_positions|].
  intros y Hy. destruct (upper_bound_below_max v y Hv Hy) as (p & Hp & Hlen & Hgt & Hle).
  exists p. split; [by rewrite lookup_positions, Hp|]. split.
  - destruct (lookup_lt_is_Some_2 v p Hlen) as [c Hc]. exists c. split; [done|].
    by rewrite nth_lookup, Hc in Hgt.
  - intros j c Hj Hc. specialize (Hle j Hj). by rewrite nth_lookup, Hc in Hle.
Qed.

Lemma positions_leftmost_witness :
  Sorted Z.le [0; 1; 1; 3] ∧
  positions [0; 1; 1; 3] = [1; 3; 3] ∧
  ∃ z : nat, positions [0; 1; 1; 3] !! Z.to_nat 1 = Some (Z.of_nat z) ∧
      (∃ c, [0; 1; 1; 3] !! z = Some c ∧ 1 < c) ∧
      (∀ j c, (j < z)%nat → [0; 1; 1; 3] !! j = Some c → c ≤ 1).
Proof.
  assert (Hs : Sorted Z.le [0; 1; 1; 3]) by (repeat constructor; lia).
  split; [exact Hs|]. split; [reflexivity|].
  apply (positions_leftmost [0; 1; 1; 3] Hs). vm_compute. split; [discriminate | reflexivity].
Defined.

(** ** The threshold formula *)

Section Threshold.
Context {F : Type} `{Arith F}.
Implicit Types (gammai : list F) (alpha : F) (ages : list Z).

Lemma threshold_of_step gammai w0 alpha i r :
  threshold_of gammai w0 alpha i ((λ rg, i - rg - 1) <$> r)
  = threshold_formula gammai w0 alpha i r.
Proof.
  destruct r as [|r0 [|r1 rest]]; [done|done|].
  unfold threshold_of, threshold_formula. rewrite !fmap_cons.
  do 2 f_equal. generalize (fadd fzero (gam gammai (i - r1 - 1))).
  simpl. generalize fzero. intros z _.
  generalize (fadd z (gam gammai (i - r1 - 1))).
  induction rest as [|x rest IH]; intros acc; simpl; [done|]. apply IH.
Qed.

Lemma vget_gam gammai k g : vget gammai k = Ok g → g = gam gammai k.
Proof. intros [_ Hk]%vget_Ok. unfold gam. by rewrite Hk. Qed.

Lemma gam_lookup (gammai : list F) (k : nat) :
  (k < length gammai)%nat → gammai !! k = Some (gam gammai (Z.of_nat k)).
Proof.
  intros Hk. unfold gam. rewrite Nat2Z.id.
  by destruct (lookup_lt_is_Some_2 gammai k Hk) as [g ->].
Qed.

Lemma sum_loop_Ok (age : Z → result Z) gammai r rest :
  ∀ pre acc s, r = pre ++ rest →
    for_loop (length rest) (Z.of_nat (length pre))
      (λ g gammaisum,
         rg ← vget r g; ag ← age rg; ga ← vget gammai ag; Ok (fadd gammaisum ga))
      acc = Ok s →
    ∃ ages, Forall2 (reads age gammai) rest ages ∧
            s = foldl (λ s a, fadd s (gam gammai a)) acc ages.
Proof.
  induction rest as [|x rest IH]; intros pre acc s Hr Hrun; simpl in Hrun.
  - injection Hrun as <-. exists []. split; [constructor | done].
  - bind_inv Hrun as acc' Hbody. bind_inv Hbody as rg Hrg.
    bind_inv Hbody as ag Hag. bind_inv Hbody as ga Hga.
    injection Hbody as <-. subst r.
    apply vget_Ok in Hrg as [_ Hrg].
    rewrite Nat2Z.id, lookup_app_r, Nat.sub_diag in Hrg by lia.
    injection Hrg as <-.
    destruct (IH (pre ++ [x]) (fadd acc ga) s) as (ages & Hages & Hs).
    { by rewrite <- app_assoc. }
    { rewrite length_app. simpl.
      by replace (Z.of_nat (length pre + 1)) with (Z.of_nat (length pre) + 1) by lia. }
    exists (ag :: ages). split.
    + constructor; [|done]. split; [done|]. by apply vget_lt in Hga.
    + simpl. by rewrite <- (vget_gam _ _ _ Hga).
Qed.

Lemma lord_threshold_Ok (age : Z → result Z) gammai w0 alpha i r t :
  lord_threshold age gammai w0 alpha i r = Ok t →
  0 ≤ i < Z.of_nat (length gammai) ∧
  ∃ ages, Forall2 (reads age gammai) r ages ∧ t = threshold_of gammai w0 alpha i ages.
Proof.
  unfold lord_threshold. intros Ht.
  destruct (decide (Z.of_nat (length r) ≤ 1)) as [Hle|Hgt].
  - destruct (decide (0 < Z.of_nat (length r))) as [Hpos|Hzero].
    + destruct r as [|r0 [|r1 rest]]; simpl in Hle, Hpos; try lia.
      bind_inv Ht as gi Hgi. bind_inv Ht as r0' Hr0. bind_inv Ht as a0 Ha0.
      bind_inv Ht as ga Hga. injection Ht as <-.
      apply vget_Ok in Hr0 as [_ [= <-]].
      split; [by apply vget_lt in Hgi|]. exists [a0]. split.
      * constructor; [|constructor]. split; [done|]. by apply vget_lt in Hga.
      * simpl. by rewrite <- (vget_gam _ _ _ Hgi), <- (vget_gam _ _ _ Hga).
    + destruct r; simpl in Hzero; [|lia]. bind_inv Ht as gi Hgi. injection Ht as <-.
      split; [by apply vget_lt in Hgi|]. exists []. split; [constructor|].
      simpl. by rewrite <- (vget_gam _ _ _ Hgi).
  - destruct r as [|r0 rest]; simpl in Hgt; [lia|].
    bind_inv Ht as gsum Hsum. bind_inv Ht as gi Hgi. bind_inv Ht as r0' Hr0.
    bind_inv Ht as a0 Ha0. bind_inv Ht as ga Hga. injection Ht as <-.
    apply vget_Ok in Hr0 as [_ [= <-]].
    unfold for_range in Hsum.
    replace (Z.to_nat (Z.of_nat (length (r0 :: rest)) - 1)) with (length rest) in Hsum
      by (simpl; lia).
    destruct (sum_loop_Ok age gammai (r0 :: rest) rest [r0] fzero gsum)
      as (ages & Hages & Hs); [done|done|].
    split; [by apply vget_lt in Hgi|]. exists (a0 :: ages). split.
    + constructor; [|done]. split; [done|]. by apply vget_lt in Hga.
    + destruct ages as [|a' ages'].
      { apply Forall2_length in Hages. destruct rest; simpl in *; lia. }
      unfold threshold_of.
      by rewrite <- (vget_gam _ _ _ Hgi), <- (vget_gam _ _ _ Hga), <- Hs.
Qed.

(** With [age = i - r[g] - 1], in the words of the spec. *)
Lemma lord_threshold_step_Ok gammai w0 alpha i r t :
  lord_threshold (step_age i) gammai w0 alpha i r = Ok t →
  0 ≤ i < Z.of_nat (length gammai) ∧
  Forall (λ rg, 0 ≤ i - rg - 1 < Z.of_nat (length gammai)) r ∧
  t = threshold_formula gammai w0 alpha i r.
Proof.
  intros (Hi & ages & Hages & ->)%lord_threshold_Ok. split; [done|].
  assert (Hmap : ages = (λ rg, i - rg - 1) <$> r ∧
                 Forall (λ rg, 0 ≤ i - rg - 1 < Z.of_nat (length gammai)) r).
  { induction Hages as [|rg a r' ages' [Hage Ha] _ [IH1 IH2]]; [by split|].
    injection Hage as <-. split; [by rewrite fmap_cons, <- IH1 | by constructor]. }
  destruct Hmap as [-> Hall]. split; [done | apply threshold_of_step].
Qed.

(** The threshold only depends on [age] at the positions of [r]. *)
Lemma lord_threshold_ext (age1 age2 : Z → result Z) gammai w0 alpha i r :
  (∀ rg, rg ∈ r → age1 rg = age2 rg) →
  lord_threshold age1 gammai w0 alpha i r = lord_threshold age2 gammai w0 alpha i r.
Proof.
  intros Hage. unfold lord_threshold.
  assert (Hr0 : vget r 0 ≫= (λ r0, age1 r0) = vget r 0 ≫= (λ r0, age2 r0)).
  { destruct (vget r 0) as [r0|] eqn:E; [|done]. simpl. apply Hage.
    apply vget_Ok in E as [_ E]. by apply list_elem_of_lookup_2 in E. }
  assert (Hsum :
    for_range 1 (Z.of_nat (length r))
      (λ g gammaisum,
         rg ← vget r g; ag ← age1 rg; ga ← vget gammai ag; Ok (fadd gammaisum ga)) fzero
    = for_range 1 (Z.of_nat (length r))
      (λ g gammaisum,
         rg ← vget r g; ag ← age2 rg; ga ← vget gammai ag; Ok (fadd gammaisum ga)) fzero).
  { apply for_range_ext. intros g acc _.
    destruct (vget r g) as [rg|] eqn:E; [|done]. simpl.
    rewrite Hage; [done|]. apply vget_Ok in E as [_ E].
    by apply list_elem_of_lookup_2 in E. }
  rewrite Hsum.
  destruct (vget r 0) as [r0|] eqn:E; simpl in *.
  - by rewrite Hr0.
  - done.
Qed.
End Threshold.

(** ** The recursion shared by the async and dependency procedures *)

Section Sequential.
Context {F : Type} `{Arith F}.

Lemma decide_at_Ok (pval : list F) i t al (rj : list bool) al' rj' :
  decide_at pval i t al rj = Ok (al', rj') ↔
  0 ≤ i < Z.of_nat (length al) ∧ i < Z.of_nat (length rj) ∧
  ∃ p, pval !! Z.to_nat i = Some p ∧
       al' = <[Z.to_nat i := t]> al ∧ rj' = <[Z.to_nat i := fle p t]> rj.
Proof.
  unfold decide_at. split.
  - intros Hd. bind_inv Hd as al1 Hal. bind_inv Hd as p Hp.
    bind_inv Hd as a Ha. bind_inv Hd as rj1 Hrj. injection Hd as <- <-.
    rewrite (vget_vset_eq _ _ _ _ Hal) in Ha. injection Ha as <-.
    apply vset_Ok in Hal as [Hi ->]. apply vset_Ok in Hrj as [Hi' ->].
    apply vget_Ok in Hp as [_ Hp]. split; [done|]. split; [lia|]. by exists p.
  - intros (Hi & Hi' & p & Hp & -> & ->).
    assert (Hset : vset al i t = Ok (<[Z.to_nat i := t]> al)) by (by apply vset_Ok).
    rewrite Hset. simpl.
    assert (Hget : vget pval i = Ok p) by (apply vget_Ok; split; [lia|done]).
    rewrite Hget. simpl. rewrite (vget_vset_eq _ _ _ _ Hset). simpl.
    assert (Hset' : vset rj i (fle p t) = Ok (<[Z.to_nat i := fle p t]> rj)).
    { apply vset_Ok. split; [lia|done]. }
    by rewrite Hset'.
Qed.

Variable cnt : list bool → Z → result Z.
Variables pval gammai : list F.
Variables w0 alpha : F.

Lemma lord_step_Ok i h h' :
  lord_step cnt pval gammai w0 alpha i h = Ok h' →
  ∃ c t p,
    cnt (R h) i = Ok c ∧
    lord_threshold (step_age i) gammai w0 alpha i (positions (Rdec h ++ [c])) = Ok t ∧
    0 ≤ i < Z.of_nat (length (alphai h)) ∧ i < Z.of_nat (length (R h)) ∧
    pval !! Z.to_nat i = Some p ∧
    h' = History (<[Z.to_nat i := t]> (alphai h))
                 (<[Z.to_nat i := fle p t]> (R h)) (Rdec h ++ [c]).
Proof.
  unfold lord_step. intros Hs. bind_inv Hs as c Hc. bind_inv Hs as t Ht.
  bind_inv Hs as d Hd. destruct d as [al rj]. injection Hs as <-.
  apply decide_at_Ok in Hd as (Hi & Hi' & p & Hp & -> & ->).
  by exists c, t, p.
Qed.

Lemma run_inv_step i h h' :
  1 ≤ i → run_inv cnt pval gammai w0 alpha i h → lord_step cnt pval gammai w0 alpha i h = Ok h' →
  run_inv cnt pval gammai w0 alpha (i + 1) h'.
Proof.
  intros Hi [Hla Hlr Hld Hg Hseed Hdec Hthr Hcnt Hpend]
    (c & t & p & Hc & Ht & Hia & Hir & Hp & ->)%lord_step_Ok.
  apply lord_threshold_step_Ok in Ht as (Hgi & Hages & ->).
  assert (Hlen : length (Rdec h) = Z.to_nat (i - 1)) by lia.
  split; simpl.
  - by rewrite length_insert.
  - by rewrite length_insert.
  - rewrite length_app. simpl. lia.
  - lia.
  - rewrite list_lookup_insert_ne by lia. done.
  - intros k Hk. destruct (decide (k = Z.to_nat i)) as [->|Hne].
    + exists p, (threshold_formula gammai w0 alpha i (positions (Rdec h ++ [c]))).
      split; [done|]. rewrite !list_lookup_insert_eq by lia. done.
    + rewrite !list_lookup_insert_ne by lia. apply Hdec. lia.
  - intros k Hk. destruct (decide (k = Z.to_nat i)) as [->|Hne].
    + rewrite take_ge by (rewrite length_app; simpl; lia).
      rewrite Z2Nat.id by lia. split; [done|].
      rewrite list_lookup_insert_eq by lia. done.
    + rewrite take_app_le by lia. rewrite list_lookup_insert_ne by lia.
      apply Hthr. lia.
  - intros k Hk. destruct (decide (k = Z.to_nat i)) as [->|Hne].
    + exists (R h), c. rewrite Z2Nat.id by lia. split; [done|]. split.
      * rewrite lookup_app_r by lia.
        by replace (Z.to_nat i - 1 - length (Rdec h))%nat with O by lia.
      * by rewrite take_insert_ge by lia.
    + destruct (Hcnt k) as (Rv & c' & H1 & H2 & H3); [lia|].
      exists Rv, c'. split; [done|]. split.
      * apply lookup_app_l_Some. done.
      * rewrite take_insert_ge by lia. done.
  - intros k Hk Hkl. rewrite list_lookup_insert_ne by lia. apply Hpend; [lia|done].
Qed.

Lemma lord_run_inv h :
  lord_run cnt pval gammai w0 alpha = Ok h →
  (1 ≤ length pval)%nat ∧ run_inv cnt pval gammai w0 alpha (Z.of_nat (length pval)) h.
Proof.
  unfold lord_run. intros Hrun. bind_inv Hrun as g0 Hg0.
  bind_inv Hrun as d Hd. destruct d as [al rj].
  apply decide_at_Ok in Hd as (Hi & Hi' & p & Hp & -> & ->).
  rewrite length_replicate in Hi. split; [lia|].
  apply (for_range_inv (run_inv cnt pval gammai w0 alpha)) in Hrun; [done|lia| |].
  - split; simpl.
    + by rewrite length_insert, length_replicate.
    + by rewrite length_insert, length_replicate.
    + lia.
    + apply vget_lt in Hg0. lia.
    + rewrite list_lookup_insert_eq by (rewrite length_replicate; lia).
      by rewrite (vget_gam _ _ _ Hg0).
    + intros k Hk. assert (k = O) as -> by lia. exists p, (fmul g0 w0).
      split; [done|]. rewrite !list_lookup_insert_eq by (rewrite length_replicate; lia).
      done.
    + intros k Hk. lia.
    + intros k Hk. lia.
    + intros k Hk Hkl. rewrite list_lookup_insert_ne by lia.
      by apply lookup_replicate_2.
  - intros i t t' Hi1 Hinv Hstep. apply (run_inv_step i t t'); [lia|done|done].
Qed.
End Sequential.

(** ** The async and dependency procedures as instances of the recursion *)

Section Instances.
Context {F : Type} `{Arith F}.
Variables pval gammai : list F.
Variables w0 alpha : F.

Lemma dep_run_eq L :
  lordstar_dep_run pval L gammai w0 alpha = lord_run (dep_count L) pval gammai w0 alpha.
Proof. reflexivity. Qed.

Lemma async_step_eq E i h :
  async_step pval E gammai w0 alpha i h = lord_step (async_count E) pval gammai w0 alpha i h.
Proof.
  unfold async_step, lord_step, async_count.
  destruct (async_cond (R h) E i) as [c|]; [|done]. simpl.
  by rewrite positions_guarded_eq.
Qed.

(** From two tests on, the write to [Rdectest] is inside the buffer. *)
Lemma async_run_eq E :
  (2 ≤ length pval)%nat →
  lordstar_async_run pval E gammai w0 alpha = lord_run (async_count E) pval gammai w0 alpha.
Proof.
  intros HN. unfold lordstar_async_run, lord_run.
  destruct (vget gammai 0) as [g0|]; [|done]. simpl.
  destruct (decide_at _ _ _ _ _) as [[al rj]|]; [|done]. simpl.
  assert (Hw : vset (replicate (length pval) 0) 1 1
               = Ok (<[Z.to_nat 1 := 1]> (replicate (length pval) 0))).
  { apply vset_Ok. rewrite length_replicate. split; [lia|done]. }
  rewrite Hw. simpl. apply for_range_ext. intros i h _. apply async_step_eq.
Qed.



(** With fewer than two tests a write falls outside its buffer:
    [alphai[0]] when there is no test, [Rdectest[1]] when there is one. *)
Lemma async_run_short E :
  (length pval < 2)%nat → lordstar_async_run pval E gammai w0 alpha = BoundsFault.
Proof.
  intros HN. unfold lordstar_async_run.
  destruct (vget gammai 0) as [g0|]; [|done]. simpl.
  destruct (decide_at _ _ _ _ _) as [[al rj]|]; [|done]. simpl.
  assert (Hw : vset (replicate (length pval) 0) 1 1 = BoundsFault).
  { unfold vset. rewrite length_replicate. destruct (decide _); [lia|done]. }
  by rewrite Hw.
Qed.

Lemma async_run_inv E h :
  lordstar_async_run pval E gammai w0 alpha = Ok h →
  (2 ≤ length pval)%nat ∧
  run_inv (async_count E) pval gammai w0 alpha (Z.of_nat (length pval)) h.
Proof.
  intros Hrun. destruct (decide (2 ≤ length pval)%nat) as [HN|HN].
  - split; [done|]. rewrite async_run_eq in Hrun by done.
    by apply lord_run_inv in Hrun as [_ Hinv].
  - rewrite async_run_short in Hrun by lia. done.
Qed.

Lemma dep_run_inv L h :
  lordstar_dep_run pval L gammai w0 alpha = Ok h →
  (1 ≤ length pval)%nat ∧
  run_inv (dep_count L) pval gammai w0 alpha (Z.of_nat (length pval)) h.
Proof. rewrite dep_run_eq. apply lord_run_inv. Qed.

Lemma async_faster_Ok E pv al rj :
  lordstar_async_faster pval E gammai w0 alpha = Ok (pv, al, rj) ↔
  pv = pval ∧ ∃ rd, lordstar_async_run pval E gammai w0 alpha = Ok (History al rj rd).
Proof.
  unfold lordstar_async_faster. split.
  - intros Hf. bind_inv Hf as h Hh. injection Hf as <- <- <-.
    split; [done|]. exists (Rdec h). by destruct h.
  - intros (-> & rd & ->). done.
Qed.

Lemma dep_faster_Ok L pv lag al rj :
  lordstar_dep_faster pval L gammai w0 alpha = Ok (pv, lag, al, rj) ↔
  pv = pval ∧ lag = L ∧
  ∃ rd, lordstar_dep_run pval L gammai w0 alpha = Ok (History al rj rd).
Proof.
  unfold lordstar_dep_faster. split.
  - intros Hf. bind_inv Hf as h Hh. injection Hf as <- <- <- <-.
    split; [done|]. split; [done|]. exists (Rdec h). by destruct h.
  - intros (-> & -> & rd & ->). done.
Qed.

End Instances.

(** ** The async procedure *)

Section Async.
Context {F : Type} `{Arith F}.

Lemma vget_take {A} (v : list A) (n : nat) (j : Z) :
  0 ≤ j < Z.of_nat n → vget (take n v) j = vget v j.
Proof.
  intros Hj. unfold vget. destruct (decide (0 ≤ j)); [|done].
  by rewrite lookup_take_lt by lia.
Qed.

(** The count of step [i] only looks at the decisions before [i]. *)
Lemma async_cond_take (E : list Z) (i : Z) (Rv Rv' : list bool) :
  take (Z.to_nat i) Rv = take (Z.to_nat i) Rv' →
  async_cond Rv E i = async_cond Rv' E i.
Proof.
  intros Htake. unfold async_cond. apply for_range_ext. intros j cond Hj.
  rewrite <- (vget_take Rv (Z.to_nat i)), <- (vget_take Rv' (Z.to_nat i)) by lia.
  by rewrite Htake.
Qed.

(** C2: in a run of [lordstar_async_faster] that returns, at every step
    [i ≥ 1] the vector [Rdec] holds the visible counts of the steps [1] to
    [i]; with [r] its inversion, [threshold[i]] is [gammai[i]·w0] when [r]
    is empty, [gammai[i]·w0 + (alpha − w0)·gammai[i − r[0] − 1]] when [r] has
    one element, and that plus [alpha] times the sum of
    [gammai[i − r[g] − 1]] over the other positions (added up from [0] in
    the order of [r]) when it has more.  Every index read is inside
    [gammai]. *)
Theorem async_threshold_cases (pval : list F) (E : list Z) (gammai : list F)
    (w0 alpha : F) (h : history F) (i : nat) :
  lordstar_async_run pval E gammai w0 alpha = Ok h →
  (1 ≤ i < length pval)%nat →
  let r := positions_guarded (take i (Rdec h)) in
  lordstar_async_faster pval E gammai w0 alpha = Ok (pval, alphai h, R h) ∧
  (∀ k : nat, (1 ≤ k ≤ i)%nat →
     ∃ c, async_cond (R h) E (Z.of_nat k) = Ok c ∧
          take i (Rdec h) !! (k - 1)%nat = Some c) ∧
  (i < length gammai)%nat ∧
  Forall (λ rg, 0 ≤ Z.of_nat i - rg - 1 < Z.of_nat (length gammai)) r ∧
  alphai h !! i =
    Some match r with
         | [] => fmul (gam gammai (Z.of_nat i)) w0
         | [r0] =>
             fadd (fmul (gam gammai (Z.of_nat i)) w0)
                  (fmul (fsub alpha w0) (gam gammai (Z.of_nat i - r0 - 1)))
         | r0 :: rest =>
             fadd (fadd (fmul (gam gammai (Z.of_nat i)) w0)
                        (fmul (fsub alpha w0) (gam gammai (Z.of_nat i - r0 - 1))))
                  (fmul alpha
                     (foldl (λ s rg, fadd s (gam gammai (Z.of_nat i - rg - 1)))
                            fzero rest))
         end.
Proof.
  intros Hrun Hi r. destruct (async_run_inv _ _ _ _ _ _ Hrun) as [HN Hinv].
  split; [unfold lordstar_async_faster; by rewrite Hrun|].
  split.
  { intros k Hk. destruct (inv_count _ _ _ _ _ _ _ Hinv k) as (Rv & c & Hc & Hl & Ht); [lia|].
    exists c. split.
    - unfold async_count in Hc. rewrite <- Hc. apply async_cond_take.
      by rewrite Nat2Z.id.
    - rewrite lookup_take_lt by lia. done. }
  pose proof (inv_gammai _ _ _ _ _ _ _ Hinv) as Hg. split; [lia|].
  destruct (inv_threshold _ _ _ _ _ _ _ Hinv i) as [Hages Hthr]; [lia|].
  unfold r. rewrite positions_guarded_eq. split; [done|].
  rewrite Hthr. unfold threshold_formula.
  by destruct (positions (take i (Rdec h))) as [|r0 [|r1 rest]].
Qed.

(** C10: with a single p-value the write [Rdectest[1] = 1] is outside the
    one-element buffer [Rdectest], and [lordstar_async_faster] returns no
    result, whatever the other arguments. *)
Theorem async_single_test_faults (p : F) (E : list Z) (gammai : list F) (w0 alpha : F) :
  vset (replicate (length [p]) 0) 1 1 = BoundsFault ∧
  lordstar_async_faster [p] E gammai w0 alpha = BoundsFault.
Proof.
  split; [done|]. unfold lordstar_async_faster.
  rewrite async_run_short; [done | simpl; lia].
Qed.

End Async.

(** ** The dependency procedure *)

Section Dep.
Context {F : Type} `{Arith F}.

Lemma dep_cond_short (Rv : list bool) (L : list Z) (i li : Z) :
  vget L i = Ok li → i - 1 - li < 0 → dep_cond Rv L i = Ok 0.
Proof.
  intros HL Hlt. unfold dep_cond. rewrite HL. simpl.
  destruct (decide (0 ≤ i - 1 - li)); [lia|done].
Qed.

Lemma vmax_replicate_0 (n : nat) : vmax (replicate n 0) = 0.
Proof.
  destruct n as [|n]; [done|].
  assert (Hin : vmax (replicate (S n) 0) ∈ replicate (S n) 0) by (by apply vmax_elem).
  by apply elem_of_replicate in Hin as [-> _].
Qed.

(** C6: in a run of [lordstar_dep_faster] that returns, a step [i > 0]
    whose lag exceeds the history ([i − 1 − L[i] < 0]) pushes the visible
    count [0]; and when the lag of every step is the step index, every
    step [i > 0] pushes [0] and gets the threshold [gammai[i]·w0]. *)
Theorem dep_full_lag (pval : list F) (L : list Z) (gammai : list F)
    (w0 alpha : F) (h : history F) :
  lordstar_dep_run pval L gammai w0 alpha = Ok h →
  lordstar_dep_faster pval L gammai w0 alpha = Ok (pval, L, alphai h, R h) ∧
  (∀ (i : nat) (li : Z), (1 ≤ i < length pval)%nat →
     L !! i = Some li → Z.of_nat i - 1 - li < 0 →
     Rlag h !! (i - 1)%nat = Some 0) ∧
  ((∀ i : nat, (i < length pval)%nat → L !! i = Some (Z.of_nat i)) →
   ∀ i : nat, (1 ≤ i < length pval)%nat →
     Rlag h !! (i - 1)%nat = Some 0 ∧
     positions (take i (Rlag h)) = [] ∧
     ∃ gi, gammai !! i = Some gi ∧ alphai h !! i = Some (fmul gi w0)).
Proof.
  intros Hrun. destruct (dep_run_inv _ _ _ _ _ _ Hrun) as [HN Hinv].
  split; [unfold lordstar_dep_faster; by rewrite Hrun|].
  assert (Hshort : ∀ (i : nat) (li : Z), (1 ≤ i < length pval)%nat →
            L !! i = Some li → Z.of_nat i - 1 - li < 0 →
            Rlag h !! (i - 1)%nat = Some 0).
  { intros i li Hi HL Hlt.
    destruct (inv_count _ _ _ _ _ _ _ Hinv i) as (Rv & c & Hc & Hl & _); [lia|].
    unfold dep_count in Hc. rewrite (dep_cond_short Rv L _ li) in Hc; [|..|done].
    - by injection Hc as <-.
    - apply vget_Ok. rewrite Nat2Z.id. split; [lia|done]. }
  split; [done|]. intros HL i Hi.
  assert (Hzero : ∀ k : nat, (1 ≤ k < length pval)%nat → Rlag h !! (k - 1)%nat = Some 0).
  { intros k Hk. apply (Hshort k (Z.of_nat k)); [done| |lia]. apply HL. lia. }
  split; [by apply Hzero|].
  assert (Htake : take i (Rlag h) = replicate i 0).
  { pose proof (inv_len_Rdec _ _ _ _ _ _ _ Hinv) as Hlen.
    apply list_eq. intros k. destruct (decide (k < i)%nat) as [Hk|Hk].
    - rewrite lookup_take_lt, lookup_replicate_2 by lia.
      replace k with (S k - 1)%nat at 1 by lia. apply Hzero. lia.
    - rewrite lookup_take_ge by lia. symmetry. apply lookup_replicate_None. lia. }
  assert (Hpos : positions (take i (Rlag h)) = []).
  { unfold positions. by rewrite Htake, vmax_replicate_0. }
  split; [done|]. exists (gam gammai (Z.of_nat i)). split.
  - apply gam_lookup. pose proof (inv_gammai _ _ _ _ _ _ _ Hinv). lia.
  - destruct (inv_threshold _ _ _ _ _ _ _ Hinv i) as [_ Hthr]; [lia|].
    by rewrite Hthr, Hpos.
Qed.

End Dep.

(** ** Immediate visibility against zero lag *)

Section AsyncDep.
Context {F : Type} `{Arith F}.



End AsyncDep.

(** ** The batch procedure *)

Section Batch.
Context {F : Type} `{Arith F}.

Lemma mset_Ok {A} (m m' : list (list A)) (b x : Z) (a : A) :
  mset m b x a = Ok m' ↔
  0 ≤ b ∧ ∃ row, m !! Z.to_nat b = Some row ∧ 0 ≤ x < Z.of_nat (length row) ∧
                 m' = <[Z.to_nat b := <[Z.to_nat x := a]> row]> m.
Proof.
  unfold mset. split.
  - intros Hm. bind_inv Hm as row Hrow. bind_inv Hm as row' Hrow'.
    apply vget_Ok in Hrow as [Hb Hrow]. apply vset_Ok in Hrow' as [Hx ->].
    apply vset_Ok in Hm as [_ ->]. split; [done|]. by exists row.
  - intros (Hb & row & Hrow & Hx & ->).
    assert (Hg : vget m b = Ok row) by (by apply vget_Ok).
    rewrite Hg. simpl.
    assert (Hs : vset row x a = Ok (<[Z.to_nat x := a]> row)) by (by apply vset_Ok).
    rewrite Hs. simpl. apply vset_Ok. split; [|done].
    apply lookup_lt_Some in Hrow. lia.
Qed.

Lemma cell_mset_eq {A} (m : list (list A)) (row : list A) (b x : nat) (a : A) :
  m !! b = Some row → (x < length row)%nat →
  cell (<[b := <[x := a]> row]> m) b x = Some a.
Proof.
  intros Hrow Hx. unfold cell.
  rewrite list_lookup_insert_eq by (by apply lookup_lt_Some in Hrow). simpl.
  by apply list_lookup_insert_eq.
Qed.

Lemma cell_mset_ne {A} (m : list (list A)) (row : list A) (b x b' x' : nat) (a : A) :
  m !! b = Some row → (b', x') ≠ (b, x) →
  cell (<[b := <[x := a]> row]> m) b' x' = cell m b' x'.
Proof.
  intros Hrow Hne. unfold cell. destruct (decide (b' = b)) as [->|Hb].
  - rewrite list_lookup_insert_eq by (by apply lookup_lt_Some in Hrow).
    rewrite Hrow. simpl. apply list_lookup_insert_ne. congruence.
  - by rewrite list_lookup_insert_ne.
Qed.

Lemma mget_cell {A} (m : list (list A)) (b x : Z) (a : A) :
  mget m b x = Ok a ↔ 0 ≤ b ∧ 0 ≤ x ∧ cell m (Z.to_nat b) (Z.to_nat x) = Some a.
Proof.
  unfold mget, cell. split.
  - intros Hm. bind_inv Hm as row Hrow. apply vget_Ok in Hrow as [Hb ->].
    apply vget_Ok in Hm as [Hx Hm]. done.
  - intros (Hb & Hx & Hc). destruct (m !! Z.to_nat b) as [row|] eqn:Hrow; [|done].
    simpl in Hc. assert (Hg : vget m b = Ok row) by (by apply vget_Ok).
    rewrite Hg. simpl. by apply vget_Ok.
Qed.

Lemma decide_cell_Ok (pval : list F) (b x k : Z) (t : F)
    (al al' : list (list F)) (rj rj' : list (list bool)) :
  decide_cell pval b x k t al rj = Ok (al', rj') →
  0 ≤ b ∧ 0 ≤ x ∧ 0 ≤ k ∧
  ∃ rowa rowr p,
    al !! Z.to_nat b = Some rowa ∧ x < Z.of_nat (length rowa) ∧
    rj !! Z.to_nat b = Some rowr ∧ x < Z.of_nat (length rowr) ∧
    pval !! Z.to_nat k = Some p ∧
    al' = <[Z.to_nat b := <[Z.to_nat x := t]> rowa]> al ∧
    rj' = <[Z.to_nat b := <[Z.to_nat x := fle p t]> rowr]> rj.
Proof.
  unfold decide_cell. intros Hd. bind_inv Hd as al1 Hal. bind_inv Hd as p Hp.
  bind_inv Hd as a Ha. bind_inv Hd as rj1 Hrj. injection Hd as <- <-.
  apply mset_Ok in Hal as (Hb & rowa & Hrowa & Hx & ->).
  apply mset_Ok in Hrj as (_ & rowr & Hrowr & Hx' & ->).
  apply mget_cell in Ha as (_ & _ & Ha).
  rewrite (cell_mset_eq _ _ _ _ _ Hrowa) in Ha by lia. injection Ha as <-.
  apply vget_Ok in Hp as [Hk Hp].
  split; [done|]. split; [lia|]. split; [done|].
  exists rowa, rowr, p. repeat (split; [done || lia|]). done.
Qed.

Variables pval gammai : list F.
Variables batch batchsum : list Z.
Variables w0 alpha : F.

Lemma threshold_like_of k ages :
  threshold_like gammai w0 alpha (threshold_of gammai w0 alpha k ages).
Proof. right. by exists k, ages. Qed.

(** Deciding the test at offset [x] of batch [b] keeps the invariant. *)
Lemma batch_inv_decide (b x : Z) (ages : list Z) m al' rj' :
  batch_inv pval batch batchsum gammai w0 alpha b x m →
  0 ≤ test_index batchsum (Z.to_nat b) (Z.to_nat x) < Z.of_nat (length gammai) →
  Forall (λ a, 0 ≤ a < Z.of_nat (length gammai)) ages →
  (b = 0 → ages = []) →
  decide_cell pval b x (test_index batchsum (Z.to_nat b) (Z.to_nat x))
    (threshold_of gammai w0 alpha (test_index batchsum (Z.to_nat b) (Z.to_nat x)) ages)
    m.1 m.2 = Ok (al', rj') →
  batch_inv pval batch batchsum gammai w0 alpha b (x + 1) (al', rj').
Proof.
  intros [Hdone Hlike] Hk Hages Hb0
    (Hb & Hx & _ & rowa & rowr & p & Hrowa & Hxa & Hrowr & Hxr & Hp & -> & ->)%decide_cell_Ok.
  split.
  - intros b' x' nb Hnb Hx' Hlt.
    destruct (decide ((b', x') = (Z.to_nat b, Z.to_nat x))) as [[= -> ->]|Hne].
    + exists p, ages. simpl. rewrite !cell_mset_eq by (done || lia).
      repeat (split; [done|]). split; [|done]. intros Hz. apply Hb0. lia.
    + destruct (Hdone b' x' nb Hnb Hx') as (p' & ages' & H1 & H2 & H3 & H4 & H5 & H6).
      { destruct Hlt as [Hlt|[Hlt1 Hlt2]]; [by left|]. right. split; [done|].
        destruct (decide (Z.of_nat x' = x)); [|lia]. exfalso. apply Hne.
        f_equal; lia. }
      exists p', ages'. simpl. rewrite !cell_mset_ne by done. done.
  - intros b' x' a. simpl.
    destruct (decide ((b', x') = (Z.to_nat b, Z.to_nat x))) as [[= -> ->]|Hne].
    + rewrite cell_mset_eq by (done || lia). intros [= <-]. apply threshold_like_of.
    + rewrite cell_mset_ne by done. apply Hlike.
Qed.

Lemma batch_seed_inv (i : Z) m m' :
  0 ≤ i →
  batch_inv pval batch batchsum gammai w0 alpha 0 i m →
  batch_seed pval gammai w0 i m = Ok m' →
  batch_inv pval batch batchsum gammai w0 alpha 0 (i + 1) m'.
Proof.
  intros Hi Hinv Hs. unfold batch_seed in Hs. bind_inv Hs as gi Hgi.
  destruct m' as [al' rj']. rewrite (vget_gam _ _ _ Hgi) in Hs.
  apply (batch_inv_decide 0 i [] m); [done| |constructor|done|].
  - simpl. rewrite Z2Nat.id by lia. by apply vget_lt in Hgi.
  - simpl. rewrite Z2Nat.id by lia. done.
Qed.

Lemma batch_test_inv (b x : Z) (rcum : list Z) m m' :
  1 ≤ b → 0 ≤ x →
  batch_inv pval batch batchsum gammai w0 alpha b x m →
  batch_test pval batchsum gammai w0 alpha b rcum x m = Ok m' →
  batch_inv pval batch batchsum gammai w0 alpha b (x + 1) m'.
Proof.
  intros Hb Hx Hinv Ht. unfold batch_test in Ht. bind_inv Ht as bs Hbs.
  bind_inv Ht as t Hthr. destruct m' as [al' rj'].
  assert (Hk : test_index batchsum (Z.to_nat b) (Z.to_nat x) = bs + x).
  { unfold test_index. destruct (Z.to_nat b) as [|b'] eqn:Eb; [lia|].
    apply vget_Ok in Hbs as [_ Hbs]. replace (Z.to_nat (b - 1)) with b' in Hbs by lia.
    rewrite nth_lookup, Hbs. simpl. lia. }
  apply lord_threshold_Ok in Hthr as (Hin & ages & Hages & ->).
  apply (batch_inv_decide b x ages m); [done| | |lia|].
  - by rewrite Hk.
  - clear -Hages. induction Hages as [|rg a r' ages' [_ Ha] _ IH]; by constructor.
  - by rewrite Hk.
Qed.

Lemma batch_inv_next (b nb : Z) m :
  0 ≤ b → batch !! Z.to_nat b = Some nb →
  batch_inv pval batch batchsum gammai w0 alpha b (Z.max 0 nb) m →
  batch_inv pval batch batchsum gammai w0 alpha (b + 1) 0 m.
Proof.
  intros Hb Hnb [Hdone Hlike]. split; [|done].
  intros b' x' nb' Hnb' Hx' Hlt. apply (Hdone b' x' nb' Hnb' Hx').
  destruct (decide (Z.of_nat b' < b)); [by left|]. right. split; [lia|].
  replace b' with (Z.to_nat b) in Hnb' by lia. rewrite Hnb in Hnb'.
  injection Hnb' as <-. lia.
Qed.

Lemma batch_step_inv (b : Z) m m' :
  1 ≤ b →
  batch_inv pval batch batchsum gammai w0 alpha b 0 m →
  batch_step pval batch batchsum gammai w0 alpha b m = Ok m' →
  batch_inv pval batch batchsum gammai w0 alpha (b + 1) 0 m'.
Proof.
  intros Hb Hinv Hs. unfold batch_step in Hs. bind_inv Hs as nb Hnb.
  apply vget_Ok in Hnb as [_ Hnb]. apply (batch_inv_next b nb); [lia|done|].
  destruct (decide (0 ≤ nb)) as [Hpos|Hneg].
  - rewrite Z.max_r by done.
    apply (for_range_inv (batch_inv pval batch batchsum gammai w0 alpha b)) in Hs;
      [done|done|done|].
    intros x t t' Hx Ht Hbody.
    by apply (batch_test_inv b x (cumsum (rowSums m.2)) t t'); [|lia|..].
  - rewrite for_range_empty in Hs by lia. injection Hs as <-.
    by rewrite Z.max_l by lia.
Qed.

(** Every test of every batch has been decided when the procedure
    returns. *)
Lemma batch_faster_inv m :
  lordstar_batch_faster pval batch batchsum gammai w0 alpha = Ok m →
  (1 ≤ length batch)%nat ∧
  batch_inv pval batch batchsum gammai w0 alpha (Z.of_nat (length batch)) 0 m.
Proof.
  unfold lordstar_batch_faster. intros Hrun. bind_inv Hrun as n0 Hn0.
  bind_inv Hrun as m0 Hseed. apply vget_Ok in Hn0 as [_ Hn0]. simpl in Hn0.
  assert (HB : (1 ≤ length batch)%nat) by (apply lookup_lt_Some in Hn0; lia).
  split; [done|].
  assert (Hinit : batch_inv pval batch batchsum gammai w0 alpha 0 0
                    (replicate (length batch) (replicate (Z.to_nat (vmax batch)) fzero),
                     replicate (length batch) (replicate (Z.to_nat (vmax batch)) false))).
  { split; [intros b' x' nb _ _ ?; lia|]. intros b' x' a. unfold cell. simpl.
    intros Hc. destruct (replicate (length batch) _ !! b') as [row|] eqn:Hrow; [|done].
    apply lookup_replicate in Hrow as [-> _]. simpl in Hc.
    apply lookup_replicate in Hc as [-> _]. by left. }
  assert (Hm0 : batch_inv pval batch batchsum gammai w0 alpha 1 0 m0).
  { apply (batch_inv_next 0 n0); [lia|done|].
    destruct (decide (0 ≤ n0)) as [Hpos|Hneg].
    - rewrite Z.max_r by done.
      apply (for_range_inv (batch_inv pval batch batchsum gammai w0 alpha 0)) in Hseed;
        [done|done|done|].
      intros i t t' Hi Ht Hbody. by apply (batch_seed_inv i t t'); [lia|..].
    - rewrite for_range_empty in Hseed by lia. injection Hseed as <-.
      by rewrite Z.max_l by lia. }
  apply (for_range_inv (λ b, batch_inv pval batch batchsum gammai w0 alpha b 0)) in Hrun;
    [done|lia|done|].
  intros b t t' Hb Ht Hbody. by apply (batch_step_inv b t t'); [lia|..].
Qed.

End Batch.

(** ** Properties of the three procedures *)

Section Results.
Context {F : Type} `{Arith F}.

Lemma run_decisions cnt (pval gammai : list F) w0 alpha (h : history F) (i : nat) :
  run_inv cnt pval gammai w0 alpha (Z.of_nat (length pval)) h →
  (i < length pval)%nat →
  ∃ p a, pval !! i = Some p ∧ alphai h !! i = Some a ∧ R h !! i = Some (fle p a).
Proof. intros Hinv Hi. apply (inv_decision _ _ _ _ _ _ _ Hinv). lia. Qed.

Lemma run_thresholds_like cnt (pval gammai : list F) w0 alpha (h : history F) :
  (1 ≤ length pval)%nat →
  run_inv cnt pval gammai w0 alpha (Z.of_nat (length pval)) h →
  Forall (threshold_like gammai w0 alpha) (alphai h).
Proof.
  intros HN Hinv. apply Forall_lookup. intros i a Ha.
  assert (Hi : (i < length pval)%nat).
  { rewrite <- (inv_len_alphai _ _ _ _ _ _ _ Hinv). by apply lookup_lt_Some in Ha. }
  destruct i as [|i].
  - rewrite (inv_seed _ _ _ _ _ _ _ Hinv) in Ha. injection Ha as <-.
    right. by exists 0, [].
  - destruct (inv_threshold _ _ _ _ _ _ _ Hinv (S i)) as [_ Hthr]; [lia|].
    rewrite Hthr in Ha. injection Ha as <-. rewrite <- threshold_of_step.
    apply threshold_like_of.
Qed.

(** C1: in each of the three procedures, when a result is returned, the
    decision of every test is the comparison [pval ≤ threshold] of its
    p-value with its threshold, as computed by [<=] (for the batch
    procedure the test at offset [x] of batch [b], whose p-value is at
    [test_index batchsum b x]). *)
Theorem decisions_exact :
  (∀ (pval : list F) E gammai w0 alpha pv al rj,
     lordstar_async_faster pval E gammai w0 alpha = Ok (pv, al, rj) →
     length al = length pval ∧ length rj = length pval ∧
     ∀ i : nat, (i < length pval)%nat →
       ∃ p a, pval !! i = Some p ∧ al !! i = Some a ∧ rj !! i = Some (fle p a)) ∧
  (∀ (pval : list F) L gammai w0 alpha pv lag al rj,
     lordstar_dep_faster pval L gammai w0 alpha = Ok (pv, lag, al, rj) →
     length al = length pval ∧ length rj = length pval ∧
     ∀ i : nat, (i < length pval)%nat →
       ∃ p a, pval !! i = Some p ∧ al !! i = Some a ∧ rj !! i = Some (fle p a)) ∧
  (∀ (pval : list F) batch batchsum gammai w0 alpha al rj,
     lordstar_batch_faster pval batch batchsum gammai w0 alpha = Ok (al, rj) →
     ∀ (b x : nat) (nb : Z), batch !! b = Some nb → Z.of_nat x < nb →
       ∃ p a, pval !! Z.to_nat (test_index batchsum b x) = Some p ∧
              cell al b x = Some a ∧ cell rj b x = Some (fle p a)).
Proof.
  split; [|split].
  - intros pval E gammai w0 alpha pv al rj (-> & rd & Hrun)%async_faster_Ok.
    apply async_run_inv in Hrun as [_ Hinv].
    split; [apply (inv_len_alphai _ _ _ _ _ _ _ Hinv)|].
    split; [apply (inv_len_R _ _ _ _ _ _ _ Hinv)|].
    intros i Hi. by apply (run_decisions _ _ _ _ _ _ i Hinv).
  - intros pval L gammai w0 alpha pv lag al rj (-> & -> & rd & Hrun)%dep_faster_Ok.
    apply dep_run_inv in Hrun as [_ Hinv].
    split; [apply (inv_len_alphai _ _ _ _ _ _ _ Hinv)|].
    split; [apply (inv_len_R _ _ _ _ _ _ _ Hinv)|].
    intros i Hi. by apply (run_decisions _ _ _ _ _ _ i Hinv).
  - intros pval batch batchsum gammai w0 alpha al rj Hrun b x nb Hnb Hx.
    apply batch_faster_inv in Hrun as [_ [Hdone _]].
    destruct (Hdone b x nb Hnb Hx) as (p & ages & _ & Hp & _ & _ & Ha & Hr).
    { left. apply lookup_lt_Some in Hnb. lia. }
    by exists p, (threshold_of gammai w0 alpha (test_index batchsum b x) ages).
Qed.

(** C7: when a result is returned, the threshold of step 0 of the async
    and of the dependency procedure is [gammai[0]·w0], and the threshold
    of every test [i] of batch 0 of the batch procedure is
    [gammai[i]·w0]: no history term is added. *)
Theorem seed_thresholds :
  (∀ (pval : list F) E gammai w0 alpha pv al rj,
     lordstar_async_faster pval E gammai w0 alpha = Ok (pv, al, rj) →
     ∃ g0, gammai !! 0%nat = Some g0 ∧ al !! 0%nat = Some (fmul g0 w0)) ∧
  (∀ (pval : list F) L gammai w0 alpha pv lag al rj,
     lordstar_dep_faster pval L gammai w0 alpha = Ok (pv, lag, al, rj) →
     ∃ g0, gammai !! 0%nat = Some g0 ∧ al !! 0%nat = Some (fmul g0 w0)) ∧
  (∀ (pval : list F) batch batchsum gammai w0 alpha al rj,
     lordstar_batch_faster pval batch batchsum gammai w0 alpha = Ok (al, rj) →
     ∀ (i : nat) (n0 : Z), batch !! 0%nat = Some n0 → Z.of_nat i < n0 →
       ∃ gi, gammai !! i = Some gi ∧ cell al 0 i = Some (fmul gi w0)).
Proof.
  assert (Hseq : ∀ cnt (pval gammai : list F) w0 alpha h,
            (1 ≤ length pval)%nat →
            run_inv cnt pval gammai w0 alpha (Z.of_nat (length pval)) h →
            ∃ g0, gammai !! 0%nat = Some g0 ∧ alphai h !! 0%nat = Some (fmul g0 w0)).
  { intros cnt pval gammai w0 alpha h HN Hinv. exists (gam gammai 0). split.
    - apply (gam_lookup gammai 0). pose proof (inv_gammai _ _ _ _ _ _ _ Hinv). lia.
    - apply (inv_seed _ _ _ _ _ _ _ Hinv). }
  split; [|split].
  - intros pval E gammai w0 alpha pv al rj (-> & rd & Hrun)%async_faster_Ok.
    apply async_run_inv in Hrun as [HN Hinv].
    assert (HN1 : (1 ≤ length pval)%nat) by lia. apply (Hseq _ _ _ _ _ _ HN1 Hinv).
  - intros pval L gammai w0 alpha pv lag al rj (-> & -> & rd & Hrun)%dep_faster_Ok.
    apply dep_run_inv in Hrun as [HN Hinv]. apply (Hseq _ _ _ _ _ _ HN Hinv).
  - intros pval batch batchsum gammai w0 alpha al rj Hrun i n0 Hn0 Hi.
    apply batch_faster_inv in Hrun as [HB [Hdone _]].
    destruct (Hdone 0%nat i n0 Hn0 Hi) as (p & ages & Hk & _ & _ & Hages & Ha & _).
    { left. lia. }
    rewrite (Hages eq_refl) in Ha. simpl in Hk, Ha.
    exists (gam gammai (Z.of_nat i)). split; [|done]. apply gam_lookup. lia.
Qed.

Lemma cumsum_from_cover (batch : list Z) :
  ∀ acc k, acc ≤ k < acc + foldr Z.add 0 batch →
    ∃ (b x : nat) (nb : Z), batch !! b = Some nb ∧ Z.of_nat x < nb ∧
      k = match b with
          | O => acc + Z.of_nat x
          | S b' => nth b' (cumsum_from acc batch) 0 + Z.of_nat x
          end.
Proof.
  induction batch as [|n rest IH]; intros acc k Hk; simpl in Hk; [lia|].
  destruct (decide (k < acc + n)) as [Hlt|Hge].
  - exists O, (Z.to_nat (k - acc)), n. split; [done|]. split; lia.
  - destruct (IH (acc + n) k) as (b & x & nb & Hb & Hx & Hkx); [lia|].
    exists (S b), x, nb. split; [done|]. split; [done|].
    simpl. by destruct b as [|b'].
Qed.

(** Every place below the total of the batch sizes is the place of a
    test of some batch, whatever the signs of the sizes. *)
Lemma test_index_cover (batch : list Z) (k : Z) :
  0 ≤ k < foldr Z.add 0 batch →
  ∃ (b x : nat) (nb : Z), batch !! b = Some nb ∧ Z.of_nat x < nb ∧
    test_index (cumsum batch) b x = k.
Proof.
  intros Hk. destruct (cumsum_from_cover batch 0 k) as (b & x & nb & H1 & H2 & H3);
    [lia|].
  exists b, x, nb. split; [done|]. split; [done|].
  unfold test_index, cumsum. destruct b; lia.
Qed.

Lemma lord_threshold_negative_age (age : Z → result Z) (gammai : list F)
    (w0 alpha : F) (i : Z) (r : list Z) (rg a : Z) :
  rg ∈ r → age rg = Ok a → a < 0 →
  lord_threshold age gammai w0 alpha i r = BoundsFault.
Proof.
  intros Hrg Hage Ha.
  destruct (lord_threshold age gammai w0 alpha i r) as [t|] eqn:Ht; [|done].
  apply lord_threshold_Ok in Ht as (_ & ages & Hages & _).
  apply list_elem_of_lookup in Hrg as [k Hk].
  destruct (Forall2_lookup_l _ _ _ _ _ Hages Hk) as (a' & _ & Hage' & Hrange).
  rewrite Hage in Hage'. injection Hage' as <-. lia.
Qed.

(** C8, as amended: the async and the dependency procedure fail with a
    bounds fault when [gammai] is shorter than the p-values; the batch
    procedure, which takes its tests from the batch sizes and never
    reads the number of p-values, fails with a bounds fault when
    [gammai] is shorter than the total of the batch sizes, [batchsum]
    being their prefix sums; the threshold computation fails with a
    bounds fault when an index computed for [gammai] is negative; and a
    run of the async or of the dependency procedure returns only if
    every index it computed was inside [gammai]: no index is clamped
    and no result is computed from an out-of-range read. *)
Theorem short_gammai_faults :
  (∀ (pval : list F) E gammai w0 alpha,
     (length gammai < length pval)%nat →
     lordstar_async_faster pval E gammai w0 alpha = BoundsFault) ∧
  (∀ (pval : list F) L gammai w0 alpha,
     (length gammai < length pval)%nat →
     lordstar_dep_faster pval L gammai w0 alpha = BoundsFault) ∧
  (∀ (pval : list F) batch gammai w0 alpha,
     Z.of_nat (length gammai) < foldr Z.add 0 batch →
     lordstar_batch_faster pval batch (cumsum batch) gammai w0 alpha = BoundsFault) ∧
  (∀ (age : Z → result Z) (gammai : list F) w0 alpha i r rg a,
     rg ∈ r → age rg = Ok a → a < 0 →
     lord_threshold age gammai w0 alpha i r = BoundsFault) ∧
  (∀ (pval : list F) E gammai w0 alpha h (i : nat),
     lordstar_async_run pval E gammai w0 alpha = Ok h →
     (1 ≤ i < length pval)%nat →
     Forall (λ rg, 0 ≤ Z.of_nat i - rg - 1 < Z.of_nat (length gammai))
            (positions_guarded (take i (Rdec h)))) ∧
  (∀ (pval : list F) L gammai w0 alpha h (i : nat),
     lordstar_dep_run pval L gammai w0 alpha = Ok h →
     (1 ≤ i < length pval)%nat →
     Forall (λ rg, 0 ≤ Z.of_nat i - rg - 1 < Z.of_nat (length gammai))
            (positions (take i (Rlag h)))).
Proof.
  split; [|split; [|split; [|split; [|split]]]].
  - intros pval E gammai w0 alpha Hshort.
    destruct (lordstar_async_faster pval E gammai w0 alpha) as [[[pv al] rj]|] eqn:Hrun;
      [|done].
    apply async_faster_Ok in Hrun as (_ & rd & Hrun).
    apply async_run_inv in Hrun as [_ Hinv].
    pose proof (inv_gammai _ _ _ _ _ _ _ Hinv). lia.
  - intros pval L gammai w0 alpha Hshort.
    destruct (lordstar_dep_faster pval L gammai w0 alpha) as [[[[pv lag] al] rj]|] eqn:Hrun;
      [|done].
    apply dep_faster_Ok in Hrun as (_ & _ & rd & Hrun).
    apply dep_run_inv in Hrun as [_ Hinv].
    pose proof (inv_gammai _ _ _ _ _ _ _ Hinv). lia.
  - intros pval batch gammai w0 alpha Hshort.
    destruct (lordstar_batch_faster pval batch (cumsum batch) gammai w0 alpha)
      as [m|] eqn:Hrun; [|done].
    apply batch_faster_inv in Hrun as [_ [Hdone _]].
    destruct (test_index_cover batch (Z.of_nat (length gammai)))
      as (b & x & nb & Hnb & Hx & Hk); [lia|].
    destruct (Hdone b x nb Hnb Hx) as (p & ages & Hrange & _).
    { left. apply lookup_lt_Some in Hnb. lia. }
    lia.
  - intros age gammai w0 alpha i r rg a. apply lord_threshold_negative_age.
  - intros pval E gammai w0 alpha h i Hrun Hi.
    apply async_run_inv in Hrun as [_ Hinv]. rewrite positions_guarded_eq.
    apply (inv_threshold _ _ _ _ _ _ _ Hinv i). lia.
  - intros pval L gammai w0 alpha h i Hrun Hi.
    apply dep_run_inv in Hrun as [_ Hinv].
    apply (inv_threshold _ _ _ _ _ _ _ Hinv i). lia.
Qed.

End Results.

(** ** Counting rejections *)

Lemma count_true_app (l1 l2 : list bool) :
  count_true (l1 ++ l2) = count_true l1 + count_true l2.
Proof. unfold count_true. rewrite filter_app, length_app. lia. Qed.

Lemma count_true_nonneg (l : list bool) : 0 ≤ count_true l.
Proof. unfold count_true. lia. Qed.

Lemma count_true_all_false (l : list bool) :
  Forall (λ d, d = false) l → count_true l = 0.
Proof.
  induction 1 as [|d l -> _ IH]; [done|].
  unfold count_true in *. rewrite filter_cons_False by done. exact IH.
Qed.

Lemma count_true_take_mono (l : list bool) (a b : nat) :
  (a ≤ b)%nat → count_true (take a l) ≤ count_true (take b l).
Proof.
  intros Hab. replace b with (a + (b - a))%nat by lia.
  rewrite <- take_take_drop, count_true_app.
  pose proof (count_true_nonneg (take (b - a) (drop a l))). lia.
Qed.

(** Decisions still pending (false from [i] on) do not count. *)
Lemma count_true_take_pending (l : list bool) (i k : nat) :
  (∀ j, (i ≤ j < length l)%nat → l !! j = Some false) →
  (i ≤ k)%nat → count_true (take k l) = count_true (take i l).
Proof.
  intros Hpend Hik. replace k with (i + (k - i))%nat by lia.
  rewrite <- take_take_drop, count_true_app.
  rewrite (count_true_all_false (take (k - i) (drop i l))); [lia|].
  apply Forall_lookup. intros j d Hj. apply lookup_take_Some in Hj as [Hj _].
  rewrite lookup_drop in Hj. assert (Hlt := lookup_lt_Some _ _ _ Hj).
  rewrite Hpend in Hj by lia. by injection Hj.
Qed.

Lemma count_loop (Rv : list bool) (n : nat) :
  ∀ (lo : nat) (acc : Z), (lo + n ≤ length Rv)%nat →
    for_loop n (Z.of_nat lo)
      (λ j cond, rj ← vget Rv j; Ok (if (rj : bool) then cond + 1 else cond)) acc
    = Ok (acc + count_true (take n (drop lo Rv))).
Proof.
  induction n as [|n IH]; intros lo acc Hlen; simpl.
  - f_equal. unfold count_true. simpl. lia.
  - destruct (lookup_lt_is_Some_2 Rv lo) as [d Hd]; [lia|].
    assert (Hg : vget Rv (Z.of_nat lo) = Ok d).
    { apply vget_Ok. rewrite Nat2Z.id. split; [lia|done]. }
    rewrite Hg. simpl. replace (Z.of_nat lo + 1) with (Z.of_nat (S lo)) by lia.
    rewrite IH by lia. f_equal. rewrite (drop_S _ _ _ Hd). simpl.
    change (d :: take n (drop (S lo) Rv)) with ([d] ++ take n (drop (S lo) Rv)).
    rewrite count_true_app. destruct d; unfold count_true; simpl; lia.
Qed.

(** With zero lag the count of step [i] is the number of rejections
    before [i]. *)
Lemma dep_cond_zero_lag (Rv : list bool) (N : nat) (i : Z) :
  1 ≤ i < Z.of_nat N → length Rv = N →
  dep_cond Rv (replicate N 0) i = Ok (count_true (take (Z.to_nat i) Rv)).
Proof.
  intros Hi Hlen. unfold dep_cond.
  assert (HL : vget (replicate N 0) i = Ok 0).
  { apply vget_Ok. split; [lia|]. apply lookup_replicate_2. lia. }
  rewrite HL. simpl. destruct (decide (0 ≤ i - 1 - 0)); [|lia].
  unfold for_range. replace (Z.to_nat (i - 0 - 0)) with (Z.to_nat i) by lia.
  change 0 with (Z.of_nat 0) at 1. rewrite count_loop by (simpl; lia).
  by rewrite drop_0.
Qed.

Section ImmediateVisibility.
Context {F : Type} `{Arith F}.


End ImmediateVisibility.

Lemma rowSums_single (Rv : list bool) :
  rowSums (column Rv) = (λ d : bool, if d then 1 else 0) <$> Rv.
Proof.
  unfold rowSums, column. rewrite <- list_fmap_compose. apply list_fmap_ext.
  intros _ d _. by destruct d.
Qed.

Lemma cumsum_from_counts (Rv : list bool) :
  ∀ acc, cumsum_from acc ((λ d : bool, if d then 1 else 0) <$> Rv)
         = (λ k, acc + count_true (take (S k) Rv)) <$> seq 0 (length Rv).
Proof.
  induction Rv as [|d Rv IH]; intros acc; [done|].
  rewrite fmap_cons. simpl cumsum_from. rewrite IH. simpl length. simpl seq.
  rewrite fmap_cons. f_equal.
  - destruct d; unfold count_true; simpl; lia.
  - rewrite <- fmap_S_seq, <- list_fmap_compose. apply list_fmap_ext.
    intros _ k _. simpl.
    change (d :: take (S k) Rv) with ([d] ++ take (S k) Rv).
    rewrite count_true_app. destruct d; unfold count_true; simpl; lia.
Qed.

Lemma cumsum_from_ones (n : nat) :
  ∀ acc, cumsum_from acc (replicate n 1) = seqZ (acc + 1) (Z.of_nat n).
Proof.
  induction n as [|n IH]; intros acc; [done|].
  simpl replicate. simpl cumsum_from. rewrite IH, (seqZ_cons (acc + 1)) by lia.
  f_equal. f_equal; lia.
Qed.

Lemma cumsum_ones (n : nat) : cumsum (replicate n 1) = seqZ 1 (Z.of_nat n).
Proof. apply cumsum_from_ones. Qed.

Lemma vmax_replicate (n : nat) (c : Z) : (1 ≤ n)%nat → vmax (replicate n c) = c.
Proof.
  intros Hn. assert (Hin : vmax (replicate n c) ∈ replicate n c).
  { apply vmax_elem. destruct n; [lia|done]. }
  by apply elem_of_replicate in Hin as [-> _].
Qed.

(** ** Inverting a count sequence with a flat tail *)

Lemma nth_fmap_seq (f : nat → Z) (n k : nat) :
  (k < n)%nat → nth k (f <$> seq 0 n) 0 = f k.
Proof.
  intros Hk. rewrite nth_lookup, list_lookup_fmap, lookup_seq_lt by done. done.
Qed.

Lemma nondecreasing_fmap_seq (f : nat → Z) (n : nat) :
  (∀ a b, (a ≤ b)%nat → f a ≤ f b) → nondecreasing (f <$> seq 0 n).
Proof.
  intros Hf i j. rewrite length_fmap, length_seq. intros Hij.
  rewrite !nth_fmap_seq by lia. apply Hf. lia.
Qed.

Lemma vmax_fmap_seq (f : nat → Z) (n : nat) :
  (∀ a b, (a ≤ b)%nat → f a ≤ f b) → vmax (f <$> seq 0 (S n)) = f n.
Proof.
  intros Hf. apply Z.le_antisymm.
  - assert (Hin : vmax (f <$> seq 0 (S n)) ∈ f <$> seq 0 (S n)) by (by apply vmax_elem).
    apply list_elem_of_fmap in Hin as (k & -> & Hk). apply elem_of_seq in Hk.
    apply Hf. lia.
  - apply vmax_ge, list_elem_of_fmap. exists n. split; [done|]. apply elem_of_seq. lia.
Qed.

(** Repeating the last count does not change the inversion. *)
Lemma positions_flat_tail (f : nat → Z) (i N : nat) :
  (1 ≤ i ≤ N)%nat →
  (∀ a b, (a ≤ b)%nat → f a ≤ f b) →
  (∀ k, (i - 1 ≤ k)%nat → f k = f (i - 1)%nat) →
  positions (f <$> seq 0 N) = positions (f <$> seq 0 i).
Proof.
  intros Hi Hmono Hflat. unfold positions.
  assert (Hmax : vmax (f <$> seq 0 N) = vmax (f <$> seq 0 i)).
  { destruct N as [|N'], i as [|i']; try lia. rewrite !vmax_fmap_seq by done.
    rewrite (Hflat N') by lia. f_equal. lia. }
  rewrite Hmax. apply list_fmap_ext. intros _ y Hy%list_elem_of_lookup_2.
  apply elem_of_seqZ in Hy.
  destruct (upper_bound_below_max (f <$> seq 0 N) y) as (p1 & -> & Hl1 & Hgt1 & Hle1);
    [by apply nondecreasing_fmap_seq | lia |].
  destruct (upper_bound_below_max (f <$> seq 0 i) y) as (p2 & -> & Hl2 & Hgt2 & Hle2);
    [by apply nondecreasing_fmap_seq | lia |].
  rewrite length_fmap, length_seq in Hl1, Hl2.
  rewrite nth_fmap_seq in Hgt1, Hgt2 by done.
  f_equal. destruct (Nat.lt_trichotomy p1 p2) as [Hlt|[Heq|Hgt]]; [|done|].
  - specialize (Hle2 p1 Hlt). rewrite nth_fmap_seq in Hle2 by lia. lia.
  - specialize (Hle1 p2 Hgt). rewrite nth_fmap_seq in Hle1 by lia. lia.
Qed.

(** The positions found in a non-decreasing count sequence are positions
    of that sequence. *)
Lemma positions_in_range (v : list Z) (rg : Z) :
  nondecreasing v → rg ∈ positions v → 0 ≤ rg < Z.of_nat (length v).
Proof.
  intros Hv Hrg. unfold positions in Hrg.
  apply list_elem_of_fmap in Hrg as (y & -> & Hy). apply elem_of_seqZ in Hy.
  destruct (upper_bound_below_max v y Hv) as (p & -> & Hp & _); lia.
Qed.

(** ** Matrices with one column *)

Lemma mget_single {A} (v : list A) (b : Z) :
  mget (column v) b 0 = vget v b.
Proof.
  unfold column, mget, vget. destruct (decide (0 ≤ b)); [|done].
  rewrite list_lookup_fmap. by destruct (v !! Z.to_nat b).
Qed.

Lemma mset_single {A} (v : list A) (b : Z) (x : A) :
  mset (column v) b 0 x = column <$> vset v b x.
Proof.
  unfold column, mset, vget, vset. rewrite length_fmap.
  destruct (decide (0 ≤ b)) as [Hb|Hb].
  - rewrite list_lookup_fmap. destruct (v !! Z.to_nat b) as [a|] eqn:Ha; simpl.
    + apply lookup_lt_Some in Ha.
      destruct (decide (0 ≤ b < Z.of_nat (length v))); [|lia]. simpl.
      by rewrite list_fmap_insert.
    + apply lookup_ge_None in Ha.
      destruct (decide (0 ≤ b < Z.of_nat (length v))); [lia|done].
  - destruct (decide (0 ≤ b < Z.of_nat (length v))); [lia|done].
Qed.

Section SingleColumn.
Context {F : Type} `{Arith F}.

Lemma decide_cell_single (pval : list F) (b : Z) (t : F)
    (al : list F) (rj : list bool) :
  decide_cell pval b 0 b t (column al) (column rj)
  = (λ o : list F * list bool, (column o.1, column o.2)) <$> decide_at pval b t al rj.
Proof.
  unfold decide_cell, decide_at. rewrite mset_single.
  destruct (vset al b t) as [al'|]; [|done]. simpl.
  destruct (vget pval b) as [p|]; [|done]. simpl.
  rewrite mget_single. destruct (vget al' b) as [a|]; [|done]. simpl.
  rewrite mset_single. by destruct (vset rj b (fle p a)).
Qed.

End SingleColumn.

(** ** Batches of one test against zero lag *)

Section UnitBatches.
Context {F : Type} `{Arith F}.
Variables pval gammai : list F.
Variables w0 alpha : F.

Lemma unit_counts_snoc (Rv : list bool) (i : nat) :
  (1 ≤ i)%nat →
  ((λ k, count_true (take k Rv)) <$> seq 1 (i - 1)) ++ [count_true (take i Rv)]
  = (λ k, count_true (take (S k) Rv)) <$> seq 0 i.
Proof.
  intros Hi. rewrite <- (fmap_S_seq 0 (i - 1)), <- list_fmap_compose.
  replace i with (S (i - 1)) at 3 by lia. rewrite seq_S, fmap_app. simpl.
  by replace (S (i - 1)) with i by lia.
Qed.

(** The inversion of the batch-level running total is the inversion of
    the counts pushed by the dependency procedure. *)
Lemma unit_positions (h : history F) (i : Z) :
  1 ≤ i < Z.of_nat (length pval) →
  length (R h) = length pval →
  (∀ k : nat, i ≤ Z.of_nat k → (k < length pval)%nat → R h !! k = Some false) →
  Rlag h = (λ k, count_true (take k (R h))) <$> seq 1 (Z.to_nat i - 1) →
  positions_guarded (cumsum (rowSums (column (R h))))
  = positions (Rlag h ++ [count_true (take (Z.to_nat i) (R h))]) ∧
  ∀ rg, rg ∈ positions (Rlag h ++ [count_true (take (Z.to_nat i) (R h))]) →
        0 ≤ rg < i.
Proof.
  intros Hi Hlen Hpend ->. rewrite unit_counts_snoc by lia.
  set (f := λ k : nat, count_true (take (S k) (R h))).
  assert (Hmono : ∀ a b, (a ≤ b)%nat → f a ≤ f b).
  { intros a b Hab. apply count_true_take_mono. lia. }
  split.
  - rewrite positions_guarded_eq. unfold cumsum. rewrite rowSums_single, cumsum_from_counts.
    rewrite Hlen. rewrite <- (positions_flat_tail f (Z.to_nat i) (length pval)); [|lia|done|].
    + reflexivity.
    + intros k Hk. unfold f.
      rewrite (count_true_take_pending (R h) (Z.to_nat i) (S k)); [|intros j Hj|lia].
      * f_equal. f_equal. lia.
      * apply Hpend; lia.
  - intros rg Hrg. apply positions_in_range in Hrg.
    + rewrite length_fmap, length_seq in Hrg. lia.
    + by apply nondecreasing_fmap_seq.
Qed.

Lemma unit_batch_step (i : Z) m (h : history F) :
  1 ≤ i < Z.of_nat (length pval) →
  unit_batch_rel (length pval) i m h →
  result_rel (unit_batch_rel (length pval) (i + 1))
    (batch_step pval (replicate (length pval) 1) (seqZ 1 (Z.of_nat (length pval)))
       gammai w0 alpha i m)
    (lord_step (dep_count (replicate (length pval) 0)) pval gammai w0 alpha i h).
Proof.
  intros Hi (-> & Hla & Hlr & Hpend & Hrd).
  destruct (unit_positions h i Hi Hlr Hpend Hrd) as [Hpos Hrange].
  unfold batch_step, lord_step, dep_count. simpl fst. simpl snd.
  assert (Hb : vget (replicate (length pval) 1) i = Ok 1).
  { apply vget_Ok. split; [lia|]. apply lookup_replicate_2. lia. }
  rewrite Hb. simpl mbind at 1. unfold result_bind at 1.
  rewrite (for_range_single _ 0 1) by done.
  unfold batch_test. simpl fst. simpl snd.
  assert (Hbs : vget (seqZ 1 (Z.of_nat (length pval))) (i - 1) = Ok i).
  { apply vget_Ok. split; [lia|]. rewrite lookup_seqZ_lt by lia. f_equal. lia. }
  rewrite Hbs. rewrite (dep_cond_zero_lag _ (length pval)) by done.
  simpl. rewrite Hpos, Z.add_0_r.
  rewrite (lord_threshold_ext (batch_age (seqZ 1 (Z.of_nat (length pval))) i) (step_age i)).
  2:{ intros rg Hrg%Hrange. unfold batch_age, step_age.
      assert (Hz : vget (seqZ 1 (Z.of_nat (length pval))) rg = Ok (1 + rg)).
      { apply vget_Ok. split; [lia|]. rewrite lookup_seqZ_lt by lia. f_equal. lia. }
      rewrite Hz. simpl. f_equal. lia. }
  destruct (lord_threshold _ _ _ _ _ _) as [t|]; [|done]. simpl.
  rewrite decide_cell_single.
  destruct (decide_at pval i t (alphai h) (R h)) as [[al' rj']|] eqn:Hd; [|done].
  simpl. apply decide_at_Ok in Hd as (Hia & Hir & p & Hp & -> & ->).
  split; [done|]. simpl. rewrite !length_insert.
  split; [done|]. split; [done|]. split.
  - intros k Hk HkN. rewrite list_lookup_insert_ne by lia. apply Hpend; lia.
  - rewrite Hrd. replace (Z.to_nat (i + 1) - 1)%nat with (S (Z.to_nat i - 1)) by lia.
    rewrite seq_S, fmap_app. simpl. f_equal.
    + apply list_fmap_ext. intros _ k Hk%list_elem_of_lookup_2.
      apply elem_of_seq in Hk. by rewrite take_insert_ge by lia.
    + replace (S (Z.to_nat i - 1)) with (Z.to_nat i) by lia.
      by rewrite take_insert_ge by lia.
Qed.

End UnitBatches.

Section UnitBatchesResult.
Context {F : Type} `{Arith F}.

(** C5: on [N] p-values, the batch procedure with [N] batches of size 1
    and their prefix sums as [batchsum] returns, as one-column matrices
    read in batch order, the thresholds and decisions that the dependency
    procedure returns with all lags zero; the two fault together. *)
Theorem batch_unit_dep_zero (pval gammai : list F) (w0 alpha : F) :
  lordstar_batch_faster pval (replicate (length pval) 1)
    (cumsum (replicate (length pval) 1)) gammai w0 alpha
  = (λ o : list F * list Z * list F * list bool, (column o.1.2, column o.2)) <$>
    lordstar_dep_faster pval (replicate (length pval) 0) gammai w0 alpha.
Proof.
  rewrite cumsum_ones. unfold lordstar_batch_faster, lordstar_dep_faster.
  rewrite dep_run_eq. unfold lord_run. rewrite length_replicate.
  destruct (decide (1 ≤ length pval)%nat) as [HN|HN].
  - assert (Hb : vget (replicate (length pval) 1) 0 = Ok 1).
    { apply vget_Ok. split; [lia|]. apply lookup_replicate_2. lia. }
    rewrite Hb, vmax_replicate by done. change (Z.to_nat 1) with 1%nat.
    simpl mbind at 1. unfold result_bind at 1.
    rewrite (for_range_single _ 0 1) by done.
    unfold batch_seed. simpl fst. simpl snd.
    destruct (vget gammai 0) as [g0|]; [|done]. simpl.
    assert (Hca : replicate (length pval) [fzero : F]
                  = column (replicate (length pval) fzero)).
    { unfold column. by rewrite fmap_replicate. }
    assert (Hcr : replicate (length pval) [false]
                  = column (replicate (length pval) false)).
    { unfold column. by rewrite fmap_replicate. }
    rewrite Hca, Hcr, decide_cell_single.
    destruct (decide_at pval 0 (fmul g0 w0) _ _) as [[al rj]|] eqn:Hd; [|done].
    simpl. apply decide_at_Ok in Hd as (_ & _ & p & Hp & -> & ->).
    set (al := <[Z.to_nat 0 := fmul g0 w0]> (replicate (length pval) fzero)).
    set (rj := <[Z.to_nat 0 := fle p (fmul g0 w0)]> (replicate (length pval) false)).
    assert (Hinit : unit_batch_rel (length pval) 1 (column al, column rj)
                      (History al rj [])).
    { split; [done|]. unfold al, rj. simpl.
      rewrite !length_insert, !length_replicate.
      split; [done|]. split; [done|]. split; [|done].
      intros k Hk HkN. rewrite list_lookup_insert_ne by lia.
      by apply lookup_replicate_2. }
    assert (Hsim := for_range_sim (unit_batch_rel (length pval))
      (batch_step pval (replicate (length pval) 1) (seqZ 1 (Z.of_nat (length pval)))
         gammai w0 alpha)
      (lord_step (dep_count (replicate (length pval) 0)) pval gammai w0 alpha)
      1 (Z.of_nat (length pval)) (column al, column rj) (History al rj [])
      ltac:(lia) Hinit (unit_batch_step pval gammai w0 alpha)).
    destruct (for_range 1 _ (batch_step _ _ _ _ _ _) _) as [m|],
             (for_range 1 _ (lord_step _ _ _ _ _) _) as [h|];
      simpl in Hsim; [|done..].
    by destruct Hsim as [-> _].
  - destruct pval as [|p0 pv]; [|simpl in HN; lia]. simpl.
    by destruct (vget gammai 0).
Qed.

End UnitBatchesResult.

(** ** Thresholds built from values of one kind *)

Section Closed.
Context {F : Type} `{Arith F}.
Variable P : F → Prop.
Variable gammai : list F.
Variables w0 alpha : F.
Hypothesis P_zero : P fzero.
Hypothesis P_add : ∀ x y, P x → P y → P (fadd x y).
Hypothesis P_seed : ∀ g, P g → P (fmul g w0).
Hypothesis P_first : ∀ g, P g → P (fmul (fsub alpha w0) g).
Hypothesis P_rest : ∀ s, P s → P (fmul alpha s).
Hypothesis P_gammai : Forall P gammai.

Lemma gam_closed (k : Z) : P (gam gammai k).
Proof.
  unfold gam. destruct (gammai !! Z.to_nat k) as [g|] eqn:Hg; simpl; [|done].
  apply (Forall_lookup_1 _ _ _ _ P_gammai Hg).
Qed.

Lemma gamma_sum_closed (ages : list Z) :
  ∀ acc : F, P acc → P (foldl (λ s a, fadd s (gam gammai a)) acc ages).
Proof.
  induction ages as [|a ages IH]; intros acc Hacc; simpl; [done|].
  apply IH, P_add; [done | apply gam_closed].
Qed.

Lemma threshold_of_closed (k : Z) (ages : list Z) :
  P (threshold_of gammai w0 alpha k ages).
Proof.
  pose proof (P_seed _ (gam_closed k)) as H0.
  destruct ages as [|a0 [|a1 rest]]; simpl; [done| |].
  - apply P_add; [done|]. apply P_first, gam_closed.
  - apply P_add; [apply P_add; [done|]; apply P_first, gam_closed|].
    apply P_rest, gamma_sum_closed, P_add; [done | apply gam_closed].
Qed.

Lemma threshold_like_closed (a : F) :
  threshold_like gammai w0 alpha a → P a.
Proof. intros [->|(k & ages & ->)]; [done | apply threshold_of_closed]. Qed.

(** Every threshold returned by the three procedures is of that kind. *)
Lemma returned_thresholds_closed :
  (∀ pval E pv al rj,
     lordstar_async_faster pval E gammai w0 alpha = Ok (pv, al, rj) → Forall P al) ∧
  (∀ pval L pv lag al rj,
     lordstar_dep_faster pval L gammai w0 alpha = Ok (pv, lag, al, rj) → Forall P al) ∧
  (∀ pval batch batchsum al rj,
     lordstar_batch_faster pval batch batchsum gammai w0 alpha = Ok (al, rj) →
     Forall (Forall P) al).
Proof.
  assert (Hlike : ∀ l, Forall (threshold_like gammai w0 alpha) l → Forall P l).
  { intros l Hl. apply (Forall_impl _ _ _ Hl). intros a. apply threshold_like_closed. }
  split; [|split].
  - intros pval E pv al rj (-> & rd & Hrun)%async_faster_Ok.
    apply async_run_inv in Hrun as [HN Hinv]. apply Hlike.
    assert (HN1 : (1 ≤ length pval)%nat) by lia.
    apply (run_thresholds_like _ _ _ _ _ _ HN1 Hinv).
  - intros pval L pv lag al rj (-> & -> & rd & Hrun)%dep_faster_Ok.
    apply dep_run_inv in Hrun as [HN Hinv]. apply Hlike.
    apply (run_thresholds_like _ _ _ _ _ _ HN Hinv).
  - intros pval batch batchsum al rj Hrun.
    apply batch_faster_inv in Hrun as [_ [_ Hcells]].
    apply Forall_lookup. intros b row Hrow. apply Forall_lookup. intros x a Ha.
    apply threshold_like_closed.
    apply (Hcells b x). unfold cell. simpl. by rewrite Hrow.
Qed.

End Closed.

(** ** The sign of sums, products and differences of doubles *)


Lemma SFeqb_refl_finite (s : bool) (m : positive) (e : Z) :
  SFeqb (S754_finite s m e) (S754_finite s m e) = true.
Proof.
  unfold SFeqb, SFcompare. rewrite Z.compare_refl.
  assert (Hm : PosDef.Pos.compare_cont Eq m m = Eq) by apply Pos.compare_cont_refl.
  rewrite Hm. by destruct s.
Qed.


Section Rounding.
Variables p em : Z.






End Rounding.









(** ** The theorems on concrete runs *)

(** The scenario of the spec: five tests, every decision visible at the
    next step. *)
Example async_scenario :
  ∃ al, lordstar_async_faster scenario_pval [1; 2; 3; 4; 5] scenario_gammai
          scenario_w0 scenario_alpha
        = Ok (scenario_pval, al, [true; false; false; false; false]) ∧
        Forall2 Qeq al [2#1000; 1925#100000; 12#1000; 725#100000; 5#1000]%Q.
Proof.
  eexists. split; [vm_compute; reflexivity|]. repeat constructor.
Qed.


Lemma decisions_exact_witness :
  (∃ pv al rj,
     lordstar_async_faster busy_pval [1; 2; 3; 4; 5] scenario_gammai
       scenario_w0 scenario_alpha = Ok (pv, al, rj) ∧
     ∃ p a, busy_pval !! 2%nat = Some p ∧ al !! 2%nat = Some a ∧
            rj !! 2%nat = Some (fle p a)) ∧
  (∃ pv lag al rj,
     lordstar_dep_faster busy_pval [0; 1; 0; 1; 0] scenario_gammai
       scenario_w0 scenario_alpha = Ok (pv, lag, al, rj) ∧
     ∃ p a, busy_pval !! 4%nat = Some p ∧ al !! 4%nat = Some a ∧
            rj !! 4%nat = Some (fle p a)) ∧
  (∃ al rj,
     lordstar_batch_faster busy_pval [2; 0; 3] [2; 2; 5] scenario_gammai
       scenario_w0 scenario_alpha = Ok (al, rj) ∧
     ∃ p a, busy_pval !! Z.to_nat (test_index [2; 2; 5] 2 1) = Some p ∧
            cell al 2 1 = Some a ∧ cell rj 2 1 = Some (fle p a)).
Proof.
  destruct (@decisions_exact Q Q_arith) as (Hasync & Hdep & Hbatch).
  split; [|split].
  - do 3 eexists. split; [vm_compute; reflexivity|].
    refine (proj2 (proj2 (Hasync busy_pval [1; 2; 3; 4; 5] scenario_gammai
                            scenario_w0 scenario_alpha _ _ _ _)) 2%nat _);
      [vm_compute; reflexivity | simpl; lia].
  - do 4 eexists. split; [vm_compute; reflexivity|].
    refine (proj2 (proj2 (Hdep busy_pval [0; 1; 0; 1; 0] scenario_gammai
                            scenario_w0 scenario_alpha _ _ _ _ _)) 4%nat _);
      [vm_compute; reflexivity | simpl; lia].
  - do 2 eexists. split; [vm_compute; reflexivity|].
    refine (Hbatch busy_pval [2; 0; 3] [2; 2; 5] scenario_gammai
              scenario_w0 scenario_alpha _ _ _ 2%nat 1%nat 3 _ _);
      [vm_compute; reflexivity | reflexivity | lia].
Defined.

Lemma async_threshold_cases_witness :
  ∃ h, lordstar_async_run busy_pval [1; 2; 3; 4; 5] scenario_gammai
         scenario_w0 scenario_alpha = Ok h ∧
       positions_guarded (take 3 (Rdec h)) = [0; 1; 2] ∧
       alphai h !! 3%nat =
         Some (fadd (fadd (fmul (gam scenario_gammai 3) scenario_w0)
                          (fmul (fsub scenario_alpha scenario_w0)
                                (gam scenario_gammai (3 - 0 - 1))))
                    (fmul scenario_alpha
                       (foldl (λ s rg, fadd s (gam scenario_gammai (3 - rg - 1)))
                              fzero [1; 2]))).
Proof.
  eexists. split; [vm_compute; reflexivity|]. split; [vm_compute; reflexivity|].
  refine (proj2 (proj2 (proj2 (proj2
    (async_threshold_cases busy_pval [1; 2; 3; 4; 5] scenario_gammai
       scenario_w0 scenario_alpha _ 3%nat _ _))))).
  - vm_compute. reflexivity.
  - simpl. lia.
Defined.

Lemma dep_full_lag_witness :
  ∃ h, lordstar_dep_run busy_pval [0; 1; 2; 3; 4] scenario_gammai
         scenario_w0 scenario_alpha = Ok h ∧
       Rlag h !! 2%nat = Some 0 ∧
       ∃ gi, scenario_gammai !! 3%nat = Some gi ∧
             alphai h !! 3%nat = Some (fmul gi scenario_w0).
Proof.
  eexists. split; [vm_compute; reflexivity|].
  destruct (dep_full_lag busy_pval [0; 1; 2; 3; 4] scenario_gammai
              scenario_w0 scenario_alpha _ eq_refl) as (_ & _ & Hfull).
  destruct (Hfull ltac:(by intros [|[|[|[|[|]]]]] Hi; simpl in Hi; try lia) 3%nat)
    as (Hcount & _ & Hthr); [simpl; lia|].
  split; [exact Hcount | exact Hthr].
Defined.

Lemma seed_thresholds_witness :
  (∃ pv al rj,
     lordstar_async_faster busy_pval [1; 2; 3; 4; 5] scenario_gammai
       scenario_w0 scenario_alpha = Ok (pv, al, rj) ∧
     ∃ g0, scenario_gammai !! 0%nat = Some g0 ∧ al !! 0%nat = Some (fmul g0 scenario_w0)) ∧
  (∃ pv lag al rj,
     lordstar_dep_faster busy_pval [0; 1; 0; 1; 0] scenario_gammai
       scenario_w0 scenario_alpha = Ok (pv, lag, al, rj) ∧
     ∃ g0, scenario_gammai !! 0%nat = Some g0 ∧ al !! 0%nat = Some (fmul g0 scenario_w0)) ∧
  (∃ al rj,
     lordstar_batch_faster busy_pval [2; 0; 3] [2; 2; 5] scenario_gammai
       scenario_w0 scenario_alpha = Ok (al, rj) ∧
     ∃ gi, scenario_gammai !! 1%nat = Some gi ∧ cell al 0 1 = Some (fmul gi scenario_w0)).
Proof.
  destruct (@seed_thresholds Q Q_arith) as (Hasync & Hdep & Hbatch).
  split; [|split].
  - do 3 eexists. split; [vm_compute; reflexivity|].
    refine (Hasync busy_pval [1; 2; 3; 4; 5] scenario_gammai
              scenario_w0 scenario_alpha _ _ _ _).
    vm_compute. reflexivity.
  - do 4 eexists. split; [vm_compute; reflexivity|].
    refine (Hdep busy_pval [0; 1; 0; 1; 0] scenario_gammai
              scenario_w0 scenario_alpha _ _ _ _ _).
    vm_compute. reflexivity.
  - do 2 eexists. split; [vm_compute; reflexivity|].
    refine (Hbatch busy_pval [2; 0; 3] [2; 2; 5] scenario_gammai
              scenario_w0 scenario_alpha _ _ _ 1%nat 2 _ _);
      [vm_compute; reflexivity | reflexivity | lia].
Defined.

(** The batch procedure never looks at the number of p-values: with one
    batch of one test it returns a result on the five p-values of
    [busy_pval] although [gammai] has a single entry. *)
Lemma batch_ignores_pval_length :
  (length [1#2]%Q < length busy_pval)%nat ∧
  lordstar_batch_faster busy_pval [1] (cumsum [1]) [1#2]%Q scenario_w0 scenario_alpha
  = Ok ([[fmul (1#2)%Q scenario_w0]], [[true]]).
Proof. split; [simpl; lia | reflexivity]. Qed.

Lemma short_gammai_faults_witness :
  lordstar_async_faster busy_pval [1; 2; 3; 4; 5] [4#10; 25#100]%Q
    scenario_w0 scenario_alpha = BoundsFault ∧
  lordstar_dep_faster busy_pval [0; 1; 0; 1; 0] [4#10; 25#100]%Q
    scenario_w0 scenario_alpha = BoundsFault ∧
  lordstar_batch_faster busy_pval [2; 0; 3] (cumsum [2; 0; 3]) [4#10; 25#100]%Q
    scenario_w0 scenario_alpha = BoundsFault ∧
  lord_threshold (step_age 2) scenario_gammai scenario_w0 scenario_alpha 2 [2]
  = BoundsFault ∧
  (∃ h, lordstar_dep_run busy_pval [0; 1; 0; 1; 0] scenario_gammai
          scenario_w0 scenario_alpha = Ok h ∧
        Forall (λ rg, 0 ≤ 4 - rg - 1 < 5) (positions (take 4 (Rlag h)))).
Proof.
  destruct (@short_gammai_faults Q Q_arith)
    as (Hasync & Hdep & Hbatch & Hage & _ & Hdeprun).
  split; [|split; [|split; [|split]]].
  - apply Hasync. simpl. lia.
  - apply Hdep. simpl. lia.
  - apply Hbatch. simpl. lia.
  - apply (Hage (step_age 2) scenario_gammai scenario_w0 scenario_alpha 2 [2] 2 (-1));
      [constructor | reflexivity | lia].
  - eexists. split; [vm_compute; reflexivity|].
    refine (Hdeprun busy_pval [0; 1; 0; 1; 0] scenario_gammai
              scenario_w0 scenario_alpha _ 4%nat _ _);
      [vm_compute; reflexivity | simpl; lia].
Defined.

(** With lags that make the visible counts decrease, the inversion
    returns a position past the counts and the index computed for
    [gammai] is negative: the dependency procedure faults. *)
Example dep_negative_age_faults :
  lordstar_dep_faster busy_pval [0; 0; 5; 0; 0] scenario_gammai
    scenario_w0 scenario_alpha = BoundsFault.
Proof. reflexivity. Qed.



(** * Further properties of the procedures *)

(** ** More on loops *)

Section MoreLoops.
Context {St : Type}.
Implicit Types (body : Z → St → result St) (P : Z → St → Prop).

(** A loop whose body cannot fail under an invariant does not fail. *)
Lemma for_range_total P body lo hi s :
  lo ≤ hi →
  P lo s →
  (∀ i t, lo ≤ i < hi → P i t → ∃ t', body i t = Ok t' ∧ P (i + 1) t') →
  ∃ s', for_range lo hi body s = Ok s' ∧ P hi s'.
Proof.
  intros Hle H0 Hstep. unfold for_range.
  assert (Hgen : ∀ n l t, l + Z.of_nat n = hi → lo ≤ l → P l t →
            ∃ s', for_loop n l body t = Ok s' ∧ P hi s').
  { induction n as [|n IH]; intros l t Hl Hlo Hp; simpl.
    - exists t. split; [done|]. by replace hi with l by lia.
    - destruct (Hstep l t) as (t' & -> & Hp'); [lia|done|]. simpl.
      apply IH; [lia|lia|done]. }
  apply Hgen; [lia|lia|done].
Qed.

Lemma for_loop_app body n1 n2 lo s :
  for_loop (n1 + n2) lo body s
  = for_loop n1 lo body s ≫= for_loop n2 (lo + Z.of_nat n1) body.
Proof.
  revert lo s. induction n1 as [|n1 IH]; intros lo s; simpl.
  - by replace (lo + Z.of_nat 0) with lo by lia.
  - destruct (body lo s) as [s1|]; [|done]. simpl. rewrite IH.
    by replace (lo + 1 + Z.of_nat n1) with (lo + Z.of_nat (S n1)) by lia.
Qed.

(** [for (i = lo; i < hi; i++)] is the rounds up to [mid] followed by the
    rounds from [mid]. *)
Lemma for_range_split body lo mid hi s :
  lo ≤ mid ≤ hi →
  for_range lo hi body s = for_range lo mid body s ≫= for_range mid hi body.
Proof.
  intros Hm. unfold for_range.
  replace (Z.to_nat (hi - lo)) with (Z.to_nat (mid - lo) + Z.to_nat (hi - mid))%nat by lia.
  rewrite for_loop_app. by replace (lo + Z.of_nat (Z.to_nat (mid - lo))) with mid by lia.
Qed.

End MoreLoops.

(** ** More on the inversion *)

Lemma upper_bound_loop_range (v : list Z) (val : Z) :
  ∀ fuel first len,
    (first ≤ upper_bound_loop fuel v val first len ≤ first + len)%nat.
Proof.
  induction fuel as [|fuel IH]; intros first len; simpl; [lia|].
  destruct len as [|len'] eqn:Elen; [lia|]. rewrite <- Elen in *.
  assert (Hhalf : (Nat.div2 len < len)%nat) by (apply Nat.lt_div2; lia).
  set (half := Nat.div2 len) in *.
  destruct (decide (val < nth (first + half) v 0)).
  - specialize (IH first half). lia.
  - specialize (IH (S (first + half)) (len - half - 1)%nat). lia.
Qed.

Lemma nondecreasing_ascending (v : list Z) : nondecreasing v ↔ ascending v.
Proof.
  split.
  - intros Hv a b x y Hab Ha Hb. assert (Hlt := lookup_lt_Some _ _ _ Hb).
    specialize (Hv a b). rewrite !nth_lookup, Ha, Hb in Hv. simpl in Hv. lia.
  - intros Hv i j Hij.
    destruct (lookup_lt_is_Some_2 v i) as [x Hx]; [lia|].
    destruct (lookup_lt_is_Some_2 v j) as [y Hy]; [lia|].
    rewrite !nth_lookup, Hx, Hy. simpl. apply (Hv i j x y); [lia|done|done].
Qed.

(** X1: Whatever the order of the counts, the search stays inside the vector:
    every position of the inversion is between [0] and the number of
    counts, so the index [i − r[g] − 1] computed at step [i] from the [i]
    counts pushed so far is between [−1] and [i − 1].  The only index
    outside [gammai] that the inversion can produce is [−1]. *)
Theorem positions_within_length (v : list Z) (rg : Z) :
  rg ∈ positions v →
  0 ≤ rg ≤ Z.of_nat (length v) ∧
  ∀ i a, Z.of_nat (length v) = i → step_age i rg = Ok a → -1 ≤ a ≤ i - 1.
Proof.
  intros Hrg. unfold positions in Hrg.
  apply list_elem_of_fmap in Hrg as (y & -> & _). unfold upper_bound.
  pose proof (upper_bound_loop_range v y (length v) 0 (length v)) as Hr.
  split; [lia|]. intros i a Hi [= <-]. lia.
Qed.

Lemma positions_within_length_witness :
  3 ∈ positions [2; 0; 1] ∧ 0 ≤ 3 ≤ Z.of_nat (length [2; 0; 1]).
Proof.
  assert (Hin : 3 ∈ positions [2; 0; 1]).
  { vm_compute. apply list_elem_of_further, list_elem_of_here. }
  split; [exact Hin|]. apply (positions_within_length [2; 0; 1] 3 Hin).
Defined.

(** X2: On non-decreasing counts the positions come out in order: the
    position of a level is at most the position of every higher level. *)
Theorem positions_ascending (v : list Z) :
  Sorted Z.le v → ascending (positions v).
Proof.
  intros Hv%Sorted_nondecreasing a b x y Hab Ha Hb.
  assert (Hla := lookup_lt_Some _ _ _ Ha). assert (Hlb := lookup_lt_Some _ _ _ Hb).
  rewrite length_positions in Hla, Hlb.
  replace a with (Z.to_nat (Z.of_nat a)) in Ha by lia.
  replace b with (Z.to_nat (Z.of_nat b)) in Hb by lia.
  rewrite lookup_positions in Ha, Hb by lia. injection Ha as <-. injection Hb as <-.
  destruct (upper_bound_below_max v (Z.of_nat a) Hv) as (p & -> & Hp & Hgt & Hle); [lia|].
  destruct (upper_bound_below_max v (Z.of_nat b) Hv) as (q & -> & Hq & Hgt' & Hle'); [lia|].
  destruct (decide (p ≤ q)%nat); [lia|]. specialize (Hle q). lia.
Qed.

Lemma positions_ascending_witness :
  Sorted Z.le [0; 2; 2; 3] ∧ ascending (positions [0; 2; 2; 3]).
Proof.
  assert (Hs : Sorted Z.le [0; 2; 2; 3]) by (repeat constructor; lia).
  split; [exact Hs | exact (positions_ascending [0; 2; 2; 3] Hs)].
Defined.

(** ** The batch-level running total *)

Lemma cumsum_from_sorted (v : list Z) :
  Forall (λ x, 0 ≤ x) v → ∀ acc, Sorted Z.le (cumsum_from acc v).
Proof.
  induction 1 as [|x v Hx Hv IH]; intros acc; simpl; [constructor|].
  constructor; [apply IH|]. destruct Hv as [|x' v' Hx' _]; simpl; constructor. lia.
Qed.

(** X3: The running total of rejections over the batches is non-decreasing
    for every decision matrix, so the inversion of the batch procedure
    always runs on a sorted vector. *)
Theorem batch_running_total_sorted (Rm : list (list bool)) :
  Sorted Z.le (cumsum (rowSums Rm)).
Proof.
  apply cumsum_from_sorted. unfold rowSums. apply Forall_fmap, Forall_forall.
  intros row _. simpl. lia.
Qed.

(** ** When the threshold computation returns *)

Lemma vget_total {A} (v : list A) (i : Z) :
  0 ≤ i < Z.of_nat (length v) → ∃ x, vget v i = Ok x.
Proof.
  intros Hi. destruct (lookup_lt_is_Some_2 v (Z.to_nat i)) as [x Hx]; [lia|].
  exists x. apply vget_Ok. split; [lia | done].
Qed.

Section ThresholdTotal.
Context {F : Type} `{Arith F}.

Lemma lord_threshold_total (age : Z → result Z) (gammai : list F) (w0 alpha : F)
    (i : Z) (r : list Z) :
  0 ≤ i < Z.of_nat (length gammai) →
  (∀ rg, rg ∈ r → ∃ a, age rg = Ok a ∧ 0 ≤ a < Z.of_nat (length gammai)) →
  ∃ t, lord_threshold age gammai w0 alpha i r = Ok t.
Proof.
  intros Hi Hage. destruct (vget_total gammai i Hi) as [gi Hgi].
  assert (Hhead : ∀ r0 rest, r = r0 :: rest →
            ∃ ga, (vget r 0 ≫= λ r0, age r0 ≫= λ a0, vget gammai a0) = Ok ga).
  { intros r0 rest ->. destruct (Hage r0) as (a0 & Ha0 & Hr0); [constructor|].
    destruct (vget_total gammai a0 Hr0) as [ga Hga]. exists ga.
    change (vget (r0 :: rest) 0) with (Ok r0 : result Z). simpl.
    rewrite Ha0. simpl. done. }
  unfold lord_threshold. rewrite Hgi.
  destruct (decide (Z.of_nat (length r) ≤ 1)) as [Hle|Hgt].
  - destruct (decide (0 < Z.of_nat (length r))) as [Hpos|Hzero].
    + destruct r as [|r0 rest] eqn:Er; [simpl in Hpos; lia|]. rewrite <- Er in *.
      destruct (Hhead r0 rest Er) as [ga Hga]. simpl.
      destruct (vget r 0) as [r0'|]; [|done]. simpl in *.
      destruct (age r0') as [a0|]; [|done]. simpl in *. rewrite Hga. simpl. eauto.
    + simpl. eauto.
  - destruct (for_range_total (λ _ _, True) 
               (λ g gammaisum,
                  rg ← vget r g; ag ← age rg; ga ← vget gammai ag;
                  Ok (fadd gammaisum ga))
               1 (Z.of_nat (length r)) fzero) as (gsum & Hsum & _); [lia|done| |].
    { intros g s Hg _. destruct (vget_total r g) as [rg Hrg]; [lia|].
      rewrite Hrg. simpl. destruct (Hage rg) as (a & Ha & Hr).
      { apply vget_Ok in Hrg as [_ Hrg]. by apply list_elem_of_lookup_2 in Hrg. }
      rewrite Ha. simpl. destruct (vget_total gammai a Hr) as [ga Hga].
      rewrite Hga. simpl. eauto. }
    rewrite Hsum. simpl.
    destruct r as [|r0 rest] eqn:Er; [simpl in Hgt; lia|]. rewrite <- Er in *.
    destruct (Hhead r0 rest Er) as [ga Hga].
    destruct (vget r 0) as [r0'|]; [|done]. simpl in *.
    destruct (age r0') as [a0|]; [|done]. simpl in *. rewrite Hga. simpl. eauto.
Qed.

End ThresholdTotal.

(** ** Visible counts that accumulate *)

Lemma nondecreasing_fmap_seq_below (f : nat → Z) (n : nat) :
  (∀ a b, (a ≤ b < n)%nat → f a ≤ f b) → nondecreasing (f <$> seq 0 n).
Proof.
  intros Hf i j. rewrite length_fmap, length_seq. intros Hij.
  rewrite !nth_fmap_seq by lia. apply Hf. lia.
Qed.

Section Accumulating.
Context {F : Type} `{Arith F}.
Variable cnt : list bool → Z → result Z.
Variable val : list bool → Z → Z.
Variables pval gammai : list F.
Variables w0 alpha : F.

(** [val] is the count that [cnt] computes; it looks only at the
    decisions before the step and does not decrease from step to step. *)
Hypothesis val_of_cnt : ∀ Rv i c,
  1 ≤ i < Z.of_nat (length pval) → cnt Rv i = Ok c → c = val Rv i.
Hypothesis val_local : ∀ Rv Rv' i,
  1 ≤ i < Z.of_nat (length pval) →
  take (Z.to_nat i) Rv = take (Z.to_nat i) Rv' → val Rv i = val Rv' i.
Hypothesis val_mono : ∀ Rv i j,
  1 ≤ i ≤ j → j < Z.of_nat (length pval) → val Rv i ≤ val Rv j.

Lemma run_counts_val (i : Z) (h : history F) :
  1 ≤ i ≤ Z.of_nat (length pval) →
  run_inv cnt pval gammai w0 alpha i h →
  Rdec h = (λ k : nat, val (R h) (Z.of_nat (S k))) <$> seq 0 (Z.to_nat i - 1).
Proof.
  intros Hi Hinv. pose proof (inv_len_Rdec _ _ _ _ _ _ _ Hinv) as Hlen.
  apply list_eq. intros k. rewrite list_lookup_fmap.
  destruct (decide (k < Z.to_nat i - 1)%nat) as [Hk|Hk].
  - rewrite lookup_seq_lt by done. simpl.
    destruct (inv_count _ _ _ _ _ _ _ Hinv (S k)) as (Rv & c & Hc & Hl & Ht); [lia|].
    replace (S k - 1)%nat with k in Hl by lia. rewrite Hl. f_equal.
    rewrite (val_of_cnt Rv (Z.of_nat (S k)) c) by (done || lia).
    apply val_local; [lia|]. by rewrite Nat2Z.id.
  - rewrite lookup_seq_ge by lia. simpl. apply lookup_ge_None. lia.
Qed.

Lemma run_counts_snoc (i : Z) (h : history F) :
  1 ≤ i < Z.of_nat (length pval) →
  run_inv cnt pval gammai w0 alpha i h →
  Rdec h ++ [val (R h) i]
  = (λ k : nat, val (R h) (Z.of_nat (S k))) <$> seq 0 (Z.to_nat i).
Proof.
  intros Hi Hinv. rewrite (run_counts_val i h) by (done || lia).
  replace (Z.to_nat i) with (S (Z.to_nat i - 1)) at 2 by lia.
  rewrite seq_S, fmap_app. simpl. do 3 f_equal. lia.
Qed.

Lemma counts_nondecreasing (Rv : list bool) (n : nat) :
  (Z.of_nat n < Z.of_nat (length pval)) →
  nondecreasing ((λ k : nat, val Rv (Z.of_nat (S k))) <$> seq 0 n).
Proof.
  intros Hn. apply nondecreasing_fmap_seq_below. intros a b Hab.
  apply val_mono; lia.
Qed.

(** The counts pushed in a run that returns are the values of [val] on
    the final decisions, in non-decreasing order. *)
Lemma run_counts_ascending (h : history F) :
  (1 ≤ length pval)%nat →
  run_inv cnt pval gammai w0 alpha (Z.of_nat (length pval)) h →
  (∀ k : nat, (1 ≤ k < length pval)%nat →
     Rdec h !! (k - 1)%nat = Some (val (R h) (Z.of_nat k))) ∧
  ascending (Rdec h).
Proof.
  intros HN Hinv.
  assert (Hr : 1 ≤ Z.of_nat (length pval) ≤ Z.of_nat (length pval)) by lia.
  pose proof (run_counts_val _ h Hr Hinv) as Hrd. split.
  - intros k Hk. rewrite Hrd, list_lookup_fmap, lookup_seq_lt by lia. simpl.
    do 3 f_equal. lia.
  - apply nondecreasing_ascending. rewrite Hrd. apply counts_nondecreasing. lia.
Qed.

(** When moreover [cnt] returns on decision vectors of the right length
    and [gammai] has an entry for every test, no step faults. *)
Hypothesis cnt_total : ∀ Rv i,
  1 ≤ i < Z.of_nat (length pval) → length Rv = length pval → ∃ c, cnt Rv i = Ok c.
Hypothesis gammai_long : (length pval ≤ length gammai)%nat.

Lemma lord_step_total (i : Z) (h : history F) :
  1 ≤ i < Z.of_nat (length pval) →
  run_inv cnt pval gammai w0 alpha i h →
  ∃ h', lord_step cnt pval gammai w0 alpha i h = Ok h' ∧
        run_inv cnt pval gammai w0 alpha (i + 1) h'.
Proof.
  intros Hi Hinv.
  destruct (cnt_total (R h) i Hi (inv_len_R _ _ _ _ _ _ _ Hinv)) as [c Hc].
  assert (Hstep : ∃ h', lord_step cnt pval gammai w0 alpha i h = Ok h').
  { unfold lord_step. rewrite Hc. simpl.
    rewrite (val_of_cnt _ _ _ Hi Hc), (run_counts_snoc i h Hi Hinv).
    destruct (lord_threshold_total (step_age i) gammai w0 alpha i
                (positions ((λ k : nat, val (R h) (Z.of_nat (S k))) <$> seq 0 (Z.to_nat i))))
      as [t Ht]; [lia| |].
    { intros rg Hrg. apply positions_in_range in Hrg; [|apply counts_nondecreasing; lia].
      rewrite length_fmap, length_seq in Hrg. exists (i - rg - 1). split; [done|lia]. }
    rewrite Ht. simpl.
    destruct (lookup_lt_is_Some_2 pval (Z.to_nat i)) as [p Hp]; [lia|].
    assert (Hd : decide_at pval i t (alphai h) (R h)
                 = Ok (<[Z.to_nat i := t]> (alphai h), <[Z.to_nat i := fle p t]> (R h))).
    { apply decide_at_Ok. rewrite (inv_len_alphai _ _ _ _ _ _ _ Hinv).
      rewrite (inv_len_R _ _ _ _ _ _ _ Hinv). split; [lia|]. split; [lia|]. by exists p. }
    rewrite Hd. simpl. eauto. }
  destruct Hstep as [h' Hh']. exists h'. split; [done|].
  apply (run_inv_step cnt pval gammai w0 alpha i h h'); [lia|done|done].
Qed.

Lemma lord_run_total :
  (1 ≤ length pval)%nat →
  ∃ h, lord_run cnt pval gammai w0 alpha = Ok h.
Proof.
  intros HN. unfold lord_run.
  destruct (vget_total gammai 0) as [g0 Hg0]; [lia|]. rewrite Hg0. simpl.
  destruct (lookup_lt_is_Some_2 pval 0) as [p Hp]; [lia|].
  assert (Hd : decide_at pval 0 (fmul g0 w0) (replicate (length pval) fzero)
                 (replicate (length pval) false)
               = Ok (<[Z.to_nat 0 := fmul g0 w0]> (replicate (length pval) fzero),
                     <[Z.to_nat 0 := fle p (fmul g0 w0)]> (replicate (length pval) false))).
  { apply decide_at_Ok. rewrite !length_replicate. split; [lia|]. split; [lia|]. by exists p. }
  rewrite Hd. simpl.
  destruct (for_range_total (run_inv cnt pval gammai w0 alpha)
              (lord_step cnt pval gammai w0 alpha) 1 (Z.of_nat (length pval))
              (History (<[0%nat := fmul g0 w0]> (replicate (length pval) fzero))
                       (<[0%nat := fle p (fmul g0 w0)]> (replicate (length pval) false)) []))
    as (h & Hh & _); [lia| |by intros i t Hi Ht; apply lord_step_total|eauto].
  split; simpl.
  - by rewrite length_insert, length_replicate.
  - by rewrite length_insert, length_replicate.
  - lia.
  - lia.
  - rewrite list_lookup_insert_eq by (rewrite length_replicate; lia).
    by rewrite (vget_gam _ _ _ Hg0).
  - intros k Hk. assert (k = O) as -> by lia. exists p, (fmul g0 w0).
    split; [done|]. rewrite !list_lookup_insert_eq by (rewrite length_replicate; lia).
    done.
  - intros k Hk. lia.
  - intros k Hk. lia.
  - intros k Hk Hkl. rewrite list_lookup_insert_ne by lia. by apply lookup_replicate_2.
Qed.

End Accumulating.

(** ** The visible counts of the async procedure *)

Lemma count_true_cons (b : bool) (l : list bool) :
  count_true (b :: l) = (if b then 1 else 0) + count_true l.
Proof.
  change (b :: l) with ([b] ++ l). rewrite count_true_app.
  destruct b; unfold count_true; simpl; lia.
Qed.

Lemma count_true_fmap_mono {A} (f g : A → bool) (l : list A) :
  (∀ x, x ∈ l → f x = true → g x = true) →
  count_true (f <$> l) ≤ count_true (g <$> l).
Proof.
  induction l as [|x l IH]; intros Hfg; [done|].
  rewrite !fmap_cons, !count_true_cons.
  assert (IH' : count_true (f <$> l) ≤ count_true (g <$> l)).
  { apply IH. intros y Hy. apply Hfg. by apply list_elem_of_further. }
  specialize (Hfg x (list_elem_of_here _ _)).
  destruct (f x), (g x); try lia; by specialize (Hfg eq_refl).
Qed.

Lemma visible_loop (Rv : list bool) (E : list Z) (i : Z) (n : nat) :
  ∀ (lo : nat) (acc c : Z),
    for_loop n (Z.of_nat lo)
      (λ j cond,
         rj ← vget Rv j;
         if (rj : bool) then
           ej ← vget E j;
           Ok (if decide (ej - 1 ≤ i - 1) then cond + 1 else cond)
         else Ok cond)
      acc = Ok c →
    c = acc + count_true (visible Rv E i <$> seq lo n).
Proof.
  induction n as [|n IH]; intros lo acc c Hrun; simpl in Hrun.
  - injection Hrun as <-. unfold count_true. simpl. lia.
  - bind_inv Hrun as acc' Hbody. bind_inv Hbody as rj Hrj.
    apply vget_Ok in Hrj as [_ Hrj]. rewrite Nat2Z.id in Hrj.
    replace (Z.of_nat lo + 1) with (Z.of_nat (S lo)) in Hrun by lia.
    apply IH in Hrun as ->. simpl seq. rewrite fmap_cons, count_true_cons.
    generalize (count_true (visible Rv E i <$> seq (S lo) n)). intros rest.
    unfold visible. rewrite Hrj. destruct rj.
    + bind_inv Hbody as ej Hej. apply vget_Ok in Hej as [_ Hej].
      rewrite Nat2Z.id in Hej. rewrite Hej. injection Hbody as <-.
      destruct (decide (ej - 1 ≤ i - 1)) as [Hd|Hd].
      * rewrite bool_decide_eq_true_2 by done. lia.
      * rewrite bool_decide_eq_false_2 by done. lia.
    + injection Hbody as <-. lia.
Qed.

Lemma async_cond_value (Rv : list bool) (E : list Z) (i c : Z) :
  async_cond Rv E i = Ok c → c = visible_count E Rv i.
Proof.
  unfold async_cond, for_range, visible_count. intros Hrun.
  change 0 with (Z.of_nat 0) in Hrun at 2. apply visible_loop in Hrun as ->.
  by replace (Z.to_nat (i - 0)) with (Z.to_nat i) by lia.
Qed.

Lemma async_cond_total (Rv : list bool) (E : list Z) (i : Z) :
  i ≤ Z.of_nat (length Rv) → i ≤ Z.of_nat (length E) →
  ∃ c, async_cond Rv E i = Ok c.
Proof.
  intros HR HE. unfold async_cond. destruct (decide (0 ≤ i)) as [Hi|Hi].
  - destruct (for_range_total (λ _ _, True)
               (λ j cond,
                  rj ← vget Rv j;
                  if (rj : bool) then
                    ej ← vget E j;
                    Ok (if decide (ej - 1 ≤ i - 1) then cond + 1 else cond)
                  else Ok cond)
               0 i 0) as (c & Hc & _); [done|done| |eauto].
    intros j cond Hj _. destruct (vget_total Rv j) as [rj Hrj]; [lia|].
    rewrite Hrj. simpl. destruct rj; [|eauto].
    destruct (vget_total E j) as [ej Hej]; [lia|]. rewrite Hej. simpl. eauto.
  - rewrite for_range_empty by lia. eauto.
Qed.

Lemma visible_count_local (E : list Z) (Rv Rv' : list bool) (i : Z) :
  take (Z.to_nat i) Rv = take (Z.to_nat i) Rv' →
  visible_count E Rv i = visible_count E Rv' i.
Proof.
  intros Ht. unfold visible_count. f_equal. apply list_fmap_ext.
  intros _ j Hj%list_elem_of_lookup_2. apply elem_of_seq in Hj. unfold visible.
  rewrite <- (lookup_take_lt Rv (Z.to_nat i) j), <- (lookup_take_lt Rv' (Z.to_nat i) j)
    by lia.
  by rewrite Ht.
Qed.

Lemma visible_count_mono (E : list Z) (Rv : list bool) (i j : Z) :
  i ≤ j → visible_count E Rv i ≤ visible_count E Rv j.
Proof.
  intros Hij. unfold visible_count.
  replace (Z.to_nat j) with (Z.to_nat i + (Z.to_nat j - Z.to_nat i))%nat by lia.
  rewrite seq_app, fmap_app, count_true_app.
  pose proof (count_true_nonneg
    (visible Rv E j <$> seq (0 + Z.to_nat i) (Z.to_nat j - Z.to_nat i))).
  assert (count_true (visible Rv E i <$> seq 0 (Z.to_nat i))
          ≤ count_true (visible Rv E j <$> seq 0 (Z.to_nat i))); [|lia].
  apply count_true_fmap_mono. intros k _. unfold visible.
  destruct (Rv !! k) as [[|]|]; [|done..]. destruct (E !! k) as [ek|]; [|done].
  intros Hk%bool_decide_eq_true. apply bool_decide_eq_true. lia.
Qed.

Section AsyncCounts.
Context {F : Type} `{Arith F}.

(** X4: In every run of [lordstar_async_faster] that returns, the count
    pushed at step [k] is the number of tests before [k] that are
    rejected in the returned decisions and whose horizon has passed, and
    the counts never decrease from one step to the next: the inversion
    always runs on a sorted vector. *)
Theorem async_counts_accumulate (pval : list F) (E : list Z) (gammai : list F)
    (w0 alpha : F) (h : history F) :
  lordstar_async_run pval E gammai w0 alpha = Ok h →
  (∀ k : nat, (1 ≤ k < length pval)%nat →
     Rdec h !! (k - 1)%nat = Some (visible_count E (R h) (Z.of_nat k))) ∧
  ascending (Rdec h).
Proof.
  intros Hrun. apply async_run_inv in Hrun as [HN Hinv].
  apply (run_counts_ascending (async_count E) (visible_count E) pval gammai w0 alpha);
    [| | |lia|done].
  - intros Rv i c _ Hc. by apply async_cond_value.
  - intros Rv Rv' i _. apply visible_count_local.
  - intros Rv i j Hij _. apply visible_count_mono. lia.
Qed.

(** X5: [lordstar_async_faster] returns a result exactly when there are at
    least two p-values and [gammai] has an entry for each of them,
    provided [E] has a horizon for every test. *)
Theorem async_returns_iff (pval : list F) (E : list Z) (gammai : list F) (w0 alpha : F) :
  (length pval ≤ length E)%nat →
  (∃ pv al rj, lordstar_async_faster pval E gammai w0 alpha = Ok (pv, al, rj)) ↔
  (2 ≤ length pval ≤ length gammai)%nat.
Proof.
  intros HE. split.
  - intros (pv & al & rj & (_ & rd & Hrun)%async_faster_Ok).
    apply async_run_inv in Hrun as [HN Hinv].
    pose proof (inv_gammai _ _ _ _ _ _ _ Hinv). lia.
  - intros HN. unfold lordstar_async_faster. rewrite async_run_eq by lia.
    destruct (lord_run_total (async_count E) (visible_count E) pval gammai w0 alpha)
      as [h Hh]; [| | | |lia|lia|].
    + intros Rv i c _ Hc. by apply async_cond_value.
    + intros Rv Rv' i _. apply visible_count_local.
    + intros Rv i j Hij _. apply visible_count_mono. lia.
    + intros Rv i Hi HRv. apply async_cond_total; lia.
    + rewrite Hh. simpl. eauto.
Qed.

End AsyncCounts.

Lemma async_counts_accumulate_witness :
  ∃ h, lordstar_async_run busy_pval [1; 5; 3; 4; 5] scenario_gammai
         scenario_w0 scenario_alpha = Ok h ∧
       Rdec h !! 2%nat = Some (visible_count [1; 5; 3; 4; 5] (R h) 3) ∧
       ascending (Rdec h).
Proof.
  eexists. split; [vm_compute; reflexivity|].
  edestruct (async_counts_accumulate busy_pval [1; 5; 3; 4; 5] scenario_gammai
               scenario_w0 scenario_alpha) as [Hcount Hasc];
    [vm_compute; reflexivity|].
  split; [|exact Hasc]. apply (Hcount 3%nat). simpl. lia.
Defined.

Lemma async_returns_iff_witness :
  (length busy_pval ≤ length [9; 9; 9; 9; 9])%nat ∧
  ∃ pv al rj, lordstar_async_faster busy_pval [9; 9; 9; 9; 9] scenario_gammai
                scenario_w0 scenario_alpha = Ok (pv, al, rj).
Proof.
  assert (HE : (length busy_pval ≤ length [9; 9; 9; 9; 9])%nat) by (simpl; lia).
  split; [exact HE|].
  apply (async_returns_iff busy_pval [9; 9; 9; 9; 9] scenario_gammai
           scenario_w0 scenario_alpha HE). simpl. lia.
Defined.

(** ** The visible counts of the dependency procedure *)

Lemma count_loop_value (Rv : list bool) (n : nat) :
  ∀ (lo : nat) (acc c : Z),
    for_loop n (Z.of_nat lo)
      (λ j cond, rj ← vget Rv j; Ok (if (rj : bool) then cond + 1 else cond)) acc
    = Ok c →
    c = acc + count_true (take n (drop lo Rv)).
Proof.
  induction n as [|n IH]; intros lo acc c Hrun; simpl in Hrun.
  - injection Hrun as <-. unfold count_true. simpl. lia.
  - bind_inv Hrun as acc' Hbody. bind_inv Hbody as rj Hrj.
    apply vget_Ok in Hrj as [_ Hrj]. rewrite Nat2Z.id in Hrj. injection Hbody as <-.
    replace (Z.of_nat lo + 1) with (Z.of_nat (S lo)) in Hrun by lia.
    apply IH in Hrun as ->. rewrite (drop_S _ _ _ Hrj). simpl take.
    rewrite count_true_cons. destruct rj; lia.
Qed.

Lemma dep_cond_value (L : list Z) (Rv : list bool) (i c : Z) :
  0 ≤ i → dep_cond Rv L i = Ok c → c = lagged_count L Rv i.
Proof.
  intros Hi Hrun. unfold dep_cond in Hrun. bind_inv Hrun as li Hli.
  apply vget_Ok in Hli as [_ Hli]. unfold lagged_count. rewrite nth_lookup, Hli. simpl.
  destruct (decide (0 ≤ i - 1 - li)) as [Hd|Hd].
  - unfold for_range in Hrun. change 0 with (Z.of_nat 0) in Hrun at 2.
    apply count_loop_value in Hrun as ->. rewrite drop_0.
    by replace (Z.to_nat (i - li - 0)) with (Z.to_nat (i - li)) by lia.
  - injection Hrun as <-. by replace (Z.to_nat (i - li)) with O by lia.
Qed.

Lemma dep_cond_total (L : list Z) (Rv : list bool) (i li : Z) :
  0 ≤ i → L !! Z.to_nat i = Some li → i - li ≤ Z.of_nat (length Rv) →
  ∃ c, dep_cond Rv L i = Ok c.
Proof.
  intros Hi Hli Hlen. unfold dep_cond.
  assert (Hg : vget L i = Ok li) by (by apply vget_Ok).
  rewrite Hg. simpl. destruct (decide (0 ≤ i - 1 - li)); [|eauto].
  unfold for_range. change 0 with (Z.of_nat 0) at 2. rewrite count_loop by lia. eauto.
Qed.

Lemma lagged_count_local (L : list Z) (Rv Rv' : list bool) (i : Z) :
  0 ≤ nth (Z.to_nat i) L 0 →
  take (Z.to_nat i) Rv = take (Z.to_nat i) Rv' →
  lagged_count L Rv i = lagged_count L Rv' i.
Proof.
  intros Hli Ht. unfold lagged_count. f_equal.
  set (m := Z.to_nat (i - nth (Z.to_nat i) L 0)).
  replace m with (m `min` Z.to_nat i)%nat by lia.
  by rewrite <- !take_take, Ht.
Qed.

(** The history a step may look at, [i − L[i]] decisions, does not shrink
    when the lag grows by at most one from a step to the next. *)
Lemma lag_window_mono (L : list Z) (N : nat) :
  (N ≤ length L)%nat →
  (∀ (k : nat) lk lk', L !! k = Some lk → L !! S k = Some lk' → lk' ≤ lk + 1) →
  ∀ (d a : nat), (a + d < N)%nat →
    Z.of_nat a - nth a L 0 ≤ Z.of_nat (a + d) - nth (a + d) L 0.
Proof.
  intros HL Hgrow. induction d as [|d IH]; intros a Had.
  - replace (a + 0)%nat with a by lia. lia.
  - specialize (IH a ltac:(lia)).
    destruct (lookup_lt_is_Some_2 L (a + d)) as [lk Hlk]; [lia|].
    destruct (lookup_lt_is_Some_2 L (S (a + d))) as [lk' Hlk']; [lia|].
    specialize (Hgrow _ _ _ Hlk Hlk').
    replace (a + S d)%nat with (S (a + d)) by lia.
    rewrite !nth_lookup, ?Hlk, ?Hlk' in *. simpl in *. lia.
Qed.

Lemma lagged_count_mono (L : list Z) (N : nat) (Rv : list bool) (i j : Z) :
  (N ≤ length L)%nat →
  (∀ (k : nat) lk lk', L !! k = Some lk → L !! S k = Some lk' → lk' ≤ lk + 1) →
  0 ≤ i ≤ j → j < Z.of_nat N →
  lagged_count L Rv i ≤ lagged_count L Rv j.
Proof.
  intros HL Hgrow Hij Hj. unfold lagged_count. apply count_true_take_mono.
  pose proof (lag_window_mono L N HL Hgrow (Z.to_nat j - Z.to_nat i) (Z.to_nat i)
                ltac:(lia)) as Hw.
  replace (Z.to_nat i + (Z.to_nat j - Z.to_nat i))%nat with (Z.to_nat j) in Hw by lia.
  lia.
Qed.

Section DepCounts.
Context {F : Type} `{Arith F}.
Variables pval gammai : list F.
Variable L : list Z.
Variables w0 alpha : F.

(** The lags are given for every test, are non-negative and grow by at
    most one from a step to the next (a constant lag, for one). *)
Hypothesis lags_given : (length pval ≤ length L)%nat.
Hypothesis lags_nonneg : ∀ (k : nat) lk, L !! k = Some lk → 0 ≤ lk.
Hypothesis lags_grow : ∀ (k : nat) lk lk',
  L !! k = Some lk → L !! S k = Some lk' → lk' ≤ lk + 1.

Lemma lag_nonneg (i : Z) : 0 ≤ nth (Z.to_nat i) L 0.
Proof.
  rewrite nth_lookup. destruct (L !! Z.to_nat i) as [li|] eqn:Hli; simpl; [|done].
  by apply (lags_nonneg _ _ Hli).
Qed.

Lemma dep_count_total (Rv : list bool) (i : Z) :
  1 ≤ i < Z.of_nat (length pval) → length Rv = length pval →
  ∃ c, dep_count L Rv i = Ok c.
Proof.
  intros Hi HRv. destruct (lookup_lt_is_Some_2 L (Z.to_nat i)) as [li Hli]; [lia|].
  apply (dep_cond_total L Rv i li); [lia|done|].
  pose proof (lags_nonneg _ _ Hli). lia.
Qed.

End DepCounts.

Section DepResults.
Context {F : Type} `{Arith F}.

(** X6: In every run of [lordstar_dep_faster] that returns, when the lags
    are non-negative and grow by at most one from a step to the next,
    the count pushed at step [k] is the number of rejections among the
    first [k − L[k]] returned decisions and the counts never decrease. *)
Theorem dep_counts_accumulate (pval : list F) (L : list Z) (gammai : list F)
    (w0 alpha : F) (h : history F) :
  (length pval ≤ length L)%nat →
  (∀ (k : nat) lk, L !! k = Some lk → 0 ≤ lk) →
  (∀ (k : nat) lk lk', L !! k = Some lk → L !! S k = Some lk' → lk' ≤ lk + 1) →
  lordstar_dep_run pval L gammai w0 alpha = Ok h →
  (∀ k : nat, (1 ≤ k < length pval)%nat →
     Rlag h !! (k - 1)%nat = Some (lagged_count L (R h) (Z.of_nat k))) ∧
  ascending (Rlag h).
Proof.
  intros HL Hnn Hgrow Hrun. apply dep_run_inv in Hrun as [HN Hinv].
  apply (run_counts_ascending (dep_count L) (lagged_count L) pval gammai w0 alpha);
    [| | |done|done].
  - intros Rv i c Hi Hc. apply dep_cond_value; [lia|done].
  - intros Rv Rv' i _. apply lagged_count_local. by apply lag_nonneg.
  - intros Rv i j Hij Hj. apply (lagged_count_mono L (length pval)); (done || lia).
Qed.

(** X7: When a lag is given for every test and the lags are non-negative
    and grow by at most one from a step to the next,
    [lordstar_dep_faster] returns a result exactly when there is at least
    one p-value and [gammai] has an entry for each of them. *)
Theorem dep_returns_iff (pval : list F) (L : list Z) (gammai : list F) (w0 alpha : F) :
  (length pval ≤ length L)%nat →
  (∀ (k : nat) lk, L !! k = Some lk → 0 ≤ lk) →
  (∀ (k : nat) lk lk', L !! k = Some lk → L !! S k = Some lk' → lk' ≤ lk + 1) →
  (∃ pv lag al rj, lordstar_dep_faster pval L gammai w0 alpha = Ok (pv, lag, al, rj)) ↔
  (1 ≤ length pval ≤ length gammai)%nat.
Proof.
  intros HL Hnn Hgrow. split.
  - intros (pv & lag & al & rj & (_ & _ & rd & Hrun)%dep_faster_Ok).
    apply dep_run_inv in Hrun as [HN Hinv].
    pose proof (inv_gammai _ _ _ _ _ _ _ Hinv). lia.
  - intros HN. unfold lordstar_dep_faster. rewrite dep_run_eq.
    destruct (lord_run_total (dep_count L) (lagged_count L) pval gammai w0 alpha)
      as [h Hh]; [| | | |lia|lia|].
    + intros Rv i c Hi Hc. apply dep_cond_value; [lia|done].
    + intros Rv Rv' i _. apply lagged_count_local. by apply lag_nonneg.
    + intros Rv i j Hij Hj. apply (lagged_count_mono L (length pval)); (done || lia).
    + intros Rv i Hi HRv. by apply (dep_count_total pval).
    + rewrite Hh. simpl. eauto.
Qed.

End DepResults.

(** Settles a statement about the lookups of a concrete vector, one
    position at a time. *)
Ltac by_positions :=
  let k := fresh "k" in
  intros k;
  do 8 (try (destruct k as [|k]; [simpl; intros; simplify_eq; lia|]));
  simpl; intros; simplify_eq.

Lemma dep_counts_accumulate_witness :
  ∃ h, lordstar_dep_run busy_pval [0; 1; 1; 2; 2] scenario_gammai
         scenario_w0 scenario_alpha = Ok h ∧
       Rlag h !! 3%nat = Some (lagged_count [0; 1; 1; 2; 2] (R h) 4) ∧
       ascending (Rlag h).
Proof.
  eexists. split; [vm_compute; reflexivity|].
  edestruct (dep_counts_accumulate busy_pval [0; 1; 1; 2; 2] scenario_gammai
               scenario_w0 scenario_alpha) as [Hcount Hasc];
    [simpl; lia | by_positions | by_positions | vm_compute; reflexivity |].
  split; [|exact Hasc]. apply (Hcount 4%nat). simpl. lia.
Defined.

Lemma dep_returns_iff_witness :
  (length busy_pval ≤ length [0; 1; 1; 2; 2])%nat ∧
  ∃ pv lag al rj, lordstar_dep_faster busy_pval [0; 1; 1; 2; 2] scenario_gammai
                    scenario_w0 scenario_alpha = Ok (pv, lag, al, rj).
Proof.
  assert (HL : (length busy_pval ≤ length [0; 1; 1; 2; 2])%nat) by (simpl; lia).
  split; [exact HL|].
  apply (dep_returns_iff busy_pval [0; 1; 1; 2; 2] scenario_gammai
           scenario_w0 scenario_alpha HL); [by_positions | by_positions | simpl; lia].
Defined.

(** ** Horizons that are never reached *)

Lemma visible_count_unreached (E : list Z) (Rv : list bool) (i : Z) :
  (∀ (j : nat) ej, E !! j = Some ej → i < ej) → visible_count E Rv i = 0.
Proof.
  intros HE. unfold visible_count. apply count_true_all_false, Forall_fmap, Forall_forall.
  intros j _. simpl. unfold visible. destruct (Rv !! j) as [[|]|]; [|done..].
  destruct (E !! j) as [ej|] eqn:Hej; [|done]. apply bool_decide_eq_false_2.
  specialize (HE j ej Hej). lia.
Qed.

Section Unreached.
Context {F : Type} `{Arith F}.

(** X8: In every run of [lordstar_async_faster] that returns, when every
    horizon lies at or beyond the number of tests, no rejection ever
    becomes visible: every step [i > 0] pushes the count [0] and gets the
    threshold [gammai[i]·w0]. *)
Theorem async_unreached_horizons (pval : list F) (E : list Z) (gammai : list F)
    (w0 alpha : F) (h : history F) :
  (∀ (j : nat) ej, E !! j = Some ej → Z.of_nat (length pval) ≤ ej) →
  lordstar_async_run pval E gammai w0 alpha = Ok h →
  ∀ i : nat, (1 ≤ i < length pval)%nat →
    Rdec h !! (i - 1)%nat = Some 0 ∧
    ∃ gi, gammai !! i = Some gi ∧ alphai h !! i = Some (fmul gi w0).
Proof.
  intros HE Hrun i Hi. apply async_run_inv in Hrun as [HN Hinv].
  destruct (run_counts_ascending (async_count E) (visible_count E) pval gammai w0 alpha)
    with (h := h) as [Hcount _]; [| | |lia|done|].
  { intros Rv k c _ Hc. by apply async_cond_value. }
  { intros Rv Rv' k _. apply visible_count_local. }
  { intros Rv k j Hkj _. apply visible_count_mono. lia. }
  assert (Hzero : ∀ k : nat, (1 ≤ k < length pval)%nat → Rdec h !! (k - 1)%nat = Some 0).
  { intros k Hk. rewrite (Hcount k Hk), visible_count_unreached; [done|].
    intros j ej Hej. specialize (HE j ej Hej). lia. }
  split; [by apply Hzero|].
  assert (Htake : take i (Rdec h) = replicate i 0).
  { pose proof (inv_len_Rdec _ _ _ _ _ _ _ Hinv) as Hlen.
    apply list_eq. intros k. destruct (decide (k < i)%nat) as [Hk|Hk].
    - rewrite lookup_take_lt, lookup_replicate_2 by lia.
      replace k with (S k - 1)%nat at 1 by lia. apply Hzero. lia.
    - rewrite lookup_take_ge by lia. symmetry. apply lookup_replicate_None. lia. }
  exists (gam gammai (Z.of_nat i)). split.
  - apply gam_lookup. pose proof (inv_gammai _ _ _ _ _ _ _ Hinv). lia.
  - destruct (inv_threshold _ _ _ _ _ _ _ Hinv i) as [_ Hthr]; [lia|].
    rewrite Hthr. unfold positions. by rewrite Htake, vmax_replicate_0.
Qed.

End Unreached.

Lemma async_unreached_horizons_witness :
  ∃ h, lordstar_async_run busy_pval [5; 6; 7; 8; 9] scenario_gammai
         scenario_w0 scenario_alpha = Ok h ∧
       Rdec h !! 3%nat = Some 0 ∧
       ∃ gi, scenario_gammai !! 4%nat = Some gi ∧
             alphai h !! 4%nat = Some (fmul gi scenario_w0).
Proof.
  eexists. split; [vm_compute; reflexivity|].
  refine (async_unreached_horizons busy_pval [5; 6; 7; 8; 9] scenario_gammai
            scenario_w0 scenario_alpha _ _ _ 4%nat _);
    [by_positions | vm_compute; reflexivity | simpl; lia].
Defined.

(** ** Empty input *)

Section Empty.
Context {F : Type} `{Arith F}.

(** X9: With no p-value the async and the dependency procedure fault on
    their first assignment, [alphai[0] = gammai[0] * w0], whatever the
    other arguments: neither returns empty vectors. *)
Theorem empty_input_faults :
  (∀ E (gammai : list F) w0 alpha,
     lordstar_async_faster [] E gammai w0 alpha = BoundsFault) ∧
  (∀ L (gammai : list F) w0 alpha,
     lordstar_dep_faster [] L gammai w0 alpha = BoundsFault).
Proof.
  split.
  - intros E gammai w0 alpha. unfold lordstar_async_faster.
    rewrite async_run_short; [done | simpl; lia].
  - intros L gammai w0 alpha. unfold lordstar_dep_faster, lordstar_dep_run.
    by destruct (vget gammai 0).
Qed.

End Empty.

(** ** Decisions do not depend on later p-values *)

Lemma vset_take {A} (v : list A) (n : nat) (i : Z) (x : A) :
  i < Z.of_nat n → (n ≤ length v)%nat →
  vset (take n v) i x = take n <$> vset v i x.
Proof.
  intros Hi Hn. unfold vset. rewrite length_take_le by done.
  destruct (decide (0 ≤ i < Z.of_nat n)) as [Hr|Hr];
    destruct (decide (0 ≤ i < Z.of_nat (length v))) as [Hr'|Hr']; try lia; [|done].
  simpl. by rewrite take_insert_lt by lia.
Qed.

Section Online.
Context {F : Type} `{Arith F}.
Variable cnt : list bool → Z → result Z.
Variables pval gammai : list F.
Variables w0 alpha : F.
Variable n : nat.

Hypothesis n_tests : (1 ≤ n ≤ length pval)%nat.
(** The count of a step before [n] does not look at the decisions from
    [n] on. *)
Hypothesis cnt_take : ∀ Rv i, 1 ≤ i < Z.of_nat n → cnt (take n Rv) i = cnt Rv i.

Lemma decide_at_take (i : Z) (t : F) (al : list F) (rj : list bool) :
  0 ≤ i < Z.of_nat n → length al = length pval → length rj = length pval →
  decide_at (take n pval) i t (take n al) (take n rj)
  = (λ o : list F * list bool, (take n o.1, take n o.2)) <$> decide_at pval i t al rj.
Proof.
  intros Hi Hal Hrj. unfold decide_at. rewrite vset_take by lia.
  destruct (vset al i t) as [al'|] eqn:Hset; [|done]. simpl.
  rewrite (vget_take pval), (vget_take al') by lia.
  destruct (vget pval i) as [p|]; [|done]. simpl.
  destruct (vget al' i) as [a|]; [|done]. simpl.
  rewrite vset_take by lia. by destruct (vset rj i (fle p a)).
Qed.

Lemma truncated_step (i : Z) (hf hs : history F) :
  1 ≤ i < Z.of_nat n →
  truncated n (length pval) hf hs →
  result_rel (truncated n (length pval))
    (lord_step cnt pval gammai w0 alpha i hf)
    (lord_step cnt (take n pval) gammai w0 alpha i hs).
Proof.
  intros Hi (Hal & HR & Hrd & Hlal & HlR). unfold lord_step.
  rewrite HR, Hrd, cnt_take by done.
  destruct (cnt (R hf) i) as [c|]; [|done]. simpl.
  destruct (lord_threshold _ _ _ _ _ _) as [t|]; [|done]. simpl.
  rewrite Hal, decide_at_take by (done || lia).
  destruct (decide_at pval i t (alphai hf) (R hf)) as [[al' rj']|] eqn:Hd; [|done].
  simpl. apply decide_at_Ok in Hd as (_ & _ & p & _ & -> & ->).
  repeat split; simpl; by rewrite ?length_insert.
Qed.

(** The steps from [n] on leave the first [n] thresholds and decisions
    as they are. *)
Lemma later_steps_keep (hm hf : history F) :
  for_range (Z.of_nat n) (Z.of_nat (length pval))
    (lord_step cnt pval gammai w0 alpha) hm = Ok hf →
  take n (alphai hf) = take n (alphai hm) ∧ take n (R hf) = take n (R hm).
Proof.
  intros Hrun.
  apply (for_range_inv (λ _ h, take n (alphai h) = take n (alphai hm) ∧
                               take n (R h) = take n (R hm))) in Hrun;
    [done|lia|done|].
  intros i t t' Hi [Ha Hr] (c & th & p & _ & _ & _ & _ & _ & ->)%lord_step_Ok.
  simpl. by rewrite !take_insert_ge by lia.
Qed.

Lemma lord_run_prefix (hf : history F) :
  lord_run cnt pval gammai w0 alpha = Ok hf →
  ∃ hs, lord_run cnt (take n pval) gammai w0 alpha = Ok hs ∧
        alphai hs = take n (alphai hf) ∧ R hs = take n (R hf).
Proof.
  unfold lord_run. intros Hrun. bind_inv Hrun as g0 Hg0. rewrite Hg0. simpl.
  bind_inv Hrun as d Hd. destruct d as [al rj].
  rewrite length_take_le by lia.
  rewrite (for_range_split _ 1 (Z.of_nat n)) in Hrun by lia.
  bind_inv Hrun as hm Hm.
  assert (Hrep : ∀ {A} (x : A), replicate n x = take n (replicate (length pval) x)).
  { intros A x. rewrite take_replicate. f_equal. lia. }
  rewrite (Hrep F), (Hrep bool), decide_at_take by (rewrite ?length_replicate; lia).
  rewrite Hd. simpl. apply decide_at_Ok in Hd as (_ & _ & p & _ & -> & ->).
  assert (Hsim := for_range_sim (λ _ : Z, truncated n (length pval))
    (lord_step cnt pval gammai w0 alpha) (lord_step cnt (take n pval) gammai w0 alpha)
    1 (Z.of_nat n)
    (History (<[Z.to_nat 0 := fmul g0 w0]> (replicate (length pval) fzero))
             (<[Z.to_nat 0 := fle p (fmul g0 w0)]> (replicate (length pval) false)) [])
    (History (take n (<[Z.to_nat 0 := fmul g0 w0]> (replicate (length pval) fzero)))
             (take n (<[Z.to_nat 0 := fle p (fmul g0 w0)]> (replicate (length pval) false)))
             [])
    ltac:(lia)).
  rewrite Hm in Hsim.
  destruct (for_range 1 (Z.of_nat n) (lord_step cnt (take n pval) gammai w0 alpha) _)
    as [hs|].
  - destruct Hsim as (Hal & HR & _); [| |].
    + repeat split; simpl; by rewrite length_insert, length_replicate.
    + intros i t1 t2 Hi Ht. by apply truncated_step.
    + exists hs. split; [done|]. apply later_steps_keep in Hrun as [Ha Hr].
      by rewrite Hal, HR, Ha, Hr.
  - exfalso. apply Hsim.
    + repeat split; simpl; by rewrite length_insert, length_replicate.
    + intros i t1 t2 Hi Ht. by apply truncated_step.
Qed.

End Online.

Section OnlineResults.
Context {F : Type} `{Arith F}.

Lemma async_count_take (E : list Z) (n : nat) (Rv : list bool) (i : Z) :
  1 ≤ i < Z.of_nat n → async_count E (take n Rv) i = async_count E Rv i.
Proof.
  intros Hi. unfold async_count. apply async_cond_take.
  rewrite take_take. f_equal. lia.
Qed.

Lemma dep_count_take (L : list Z) (n : nat) (Rv : list bool) (i : Z) :
  (∀ (k : nat) lk, L !! k = Some lk → 0 ≤ lk) →
  1 ≤ i < Z.of_nat n → dep_count L (take n Rv) i = dep_count L Rv i.
Proof.
  intros Hnn Hi. unfold dep_count, dep_cond.
  destruct (vget L i) as [li|] eqn:Hli; [|done]. simpl.
  apply vget_Ok in Hli as [_ Hli%Hnn].
  destruct (decide (0 ≤ i - 1 - li)); [|done].
  apply for_range_ext. intros j cond Hj. by rewrite vget_take by lia.
Qed.

(** X10: The async procedure is online: the thresholds and decisions of the
    first [n ≥ 2] tests of a run that returns are those of the run on the
    first [n] p-values alone. *)
Theorem async_online (pval : list F) (E : list Z) (gammai : list F) (w0 alpha : F)
    (n : nat) (pv al : list F) (rj : list bool) :
  (2 ≤ n ≤ length pval)%nat →
  lordstar_async_faster pval E gammai w0 alpha = Ok (pv, al, rj) →
  lordstar_async_faster (take n pval) E gammai w0 alpha
  = Ok (take n pval, take n al, take n rj).
Proof.
  intros Hn (-> & rd & Hrun)%async_faster_Ok.
  rewrite async_run_eq in Hrun by lia.
  destruct (lord_run_prefix (async_count E) pval gammai w0 alpha n) with (hf := History al rj rd)
    as (hs & Hhs & Hal & HR); [lia| |done|].
  { intros Rv i Hi. by apply async_count_take. }
  unfold lordstar_async_faster.
  rewrite async_run_eq by (rewrite length_take_le; lia).
  rewrite Hhs. simpl. by rewrite Hal, HR.
Qed.

(** X11: The dependency procedure is online when the lags are
    non-negative: the thresholds and decisions of the first [n ≥ 1] tests
    of a run that returns are those of the run on the first [n] p-values
    alone. *)
Theorem dep_online (pval : list F) (L : list Z) (gammai : list F) (w0 alpha : F)
    (n : nat) (pv : list F) (lag : list Z) (al : list F) (rj : list bool) :
  (1 ≤ n ≤ length pval)%nat →
  (∀ (k : nat) lk, L !! k = Some lk → 0 ≤ lk) →
  lordstar_dep_faster pval L gammai w0 alpha = Ok (pv, lag, al, rj) →
  lordstar_dep_faster (take n pval) L gammai w0 alpha
  = Ok (take n pval, L, take n al, take n rj).
Proof.
  intros Hn Hnn (-> & -> & rd & Hrun)%dep_faster_Ok.
  rewrite dep_run_eq in Hrun.
  destruct (lord_run_prefix (dep_count L) pval gammai w0 alpha n) with (hf := History al rj rd)
    as (hs & Hhs & Hal & HR); [lia| |done|].
  { intros Rv i Hi. by apply dep_count_take. }
  unfold lordstar_dep_faster. rewrite dep_run_eq, Hhs. simpl. by rewrite Hal, HR.
Qed.

End OnlineResults.

Lemma async_online_witness :
  ∃ pv al rj,
    lordstar_async_faster busy_pval [1; 5; 3; 4; 5] scenario_gammai
      scenario_w0 scenario_alpha = Ok (pv, al, rj) ∧
    lordstar_async_faster (take 3 busy_pval) [1; 5; 3; 4; 5] scenario_gammai
      scenario_w0 scenario_alpha = Ok (take 3 busy_pval, take 3 al, take 3 rj).
Proof.
  do 3 eexists. split; [vm_compute; reflexivity|].
  refine (async_online busy_pval [1; 5; 3; 4; 5] scenario_gammai
            scenario_w0 scenario_alpha 3 _ _ _ _ _);
    [simpl; lia | vm_compute; reflexivity].
Defined.

Lemma dep_online_witness :
  ∃ pv lag al rj,
    lordstar_dep_faster busy_pval [0; 1; 0; 1; 0] scenario_gammai
      scenario_w0 scenario_alpha = Ok (pv, lag, al, rj) ∧
    lordstar_dep_faster (take 3 busy_pval) [0; 1; 0; 1; 0] scenario_gammai
      scenario_w0 scenario_alpha = Ok (take 3 busy_pval, [0; 1; 0; 1; 0], take 3 al, take 3 rj).
Proof.
  do 4 eexists. split; [vm_compute; reflexivity|].
  refine (dep_online busy_pval [0; 1; 0; 1; 0] scenario_gammai
            scenario_w0 scenario_alpha 3 _ _ _ _ _ _ _);
    [simpl; lia | by_positions | vm_compute; reflexivity].
Defined.

(** ** The running total over completed batches *)

Lemma length_cumsum_from (v : list Z) : ∀ acc, length (cumsum_from acc v) = length v.
Proof. induction v as [|x v IH]; intros acc; simpl; [done|]. by rewrite IH. Qed.

Lemma cumsum_from_zeros (k : nat) (acc : Z) :
  cumsum_from acc (replicate k 0) = replicate k acc.
Proof.
  induction k as [|k IH]; simpl; [done|].
  replace (acc + 0) with acc by lia. by rewrite IH.
Qed.

Lemma cumsum_from_app (v w : list Z) :
  ∀ acc, cumsum_from acc (v ++ w)
         = cumsum_from acc v ++ cumsum_from (foldl Z.add acc v) w.
Proof. induction v as [|x v IH]; intros acc; simpl; [done|]. by rewrite IH. Qed.

Lemma cumsum_from_last (v : list Z) :
  v ≠ [] → ∀ acc, nth (length v - 1) (cumsum_from acc v) 0 = foldl Z.add acc v.
Proof.
  induction v as [|x v IH]; intros Hne acc; [done|].
  destruct v as [|y v']; [done|].
  specialize (IH ltac:(done) (acc + x)). simpl in *.
  by rewrite Nat.sub_0_r in IH.
Qed.

Lemma rowSums_nonneg (Rm : list (list bool)) : Forall (λ c, 0 ≤ c) (rowSums Rm).
Proof. unfold rowSums. apply Forall_fmap, Forall_forall. intros row _. simpl. lia. Qed.

Lemma running_total_nondecreasing (Rm : list (list bool)) :
  nondecreasing (cumsum (rowSums Rm)).
Proof. apply Sorted_nondecreasing, cumsum_from_sorted, rowSums_nonneg. Qed.

(** Repeating the last entry does not change the inversion. *)
Lemma positions_app_flat (v : list Z) (k : nat) :
  nondecreasing v → v ≠ [] →
  positions (v ++ replicate k (nth (length v - 1) v 0)) = positions v.
Proof.
  intros Hv Hne. assert (Hlen : (1 ≤ length v)%nat) by (destruct v; simpl; [done|lia]).
  set (f := λ j : nat, nth (j `min` (length v - 1)) v 0).
  assert (Hshort : f <$> seq 0 (length v) = v).
  { apply list_eq. intros j. rewrite list_lookup_fmap.
    destruct (decide (j < length v)%nat) as [Hj|Hj].
    - rewrite lookup_seq_lt by done. simpl. unfold f.
      replace (j `min` (length v - 1))%nat with j by lia.
      destruct (lookup_lt_is_Some_2 v j Hj) as [c Hc]. by rewrite nth_lookup, Hc.
    - rewrite lookup_seq_ge by lia. simpl. symmetry. apply lookup_ge_None. lia. }
  assert (Hlong : f <$> seq 0 (length v + k) = v ++ replicate k (nth (length v - 1) v 0)).
  { rewrite seq_app, fmap_app, Hshort. f_equal. simpl.
    apply list_eq. intros j. rewrite list_lookup_fmap.
    destruct (decide (j < k)%nat) as [Hj|Hj].
    - rewrite lookup_seq_lt, lookup_replicate_2 by done. simpl. unfold f.
      by replace ((length v + j) `min` (length v - 1))%nat with (length v - 1)%nat by lia.
    - rewrite lookup_seq_ge by lia. simpl. symmetry. apply lookup_replicate_None. lia. }
  transitivity (positions (f <$> seq 0 (length v))); [|by rewrite Hshort].
  rewrite <- Hlong. apply positions_flat_tail; [lia| |].
  - intros a b Hab. unfold f. apply Hv. lia.
  - intros j Hj. unfold f. f_equal. lia.
Qed.

Lemma rowSums_pending (Rm : list (list bool)) (b : nat) :
  (∀ (b' : nat) row, (b ≤ b')%nat → Rm !! b' = Some row → count_true row = 0) →
  rowSums Rm = rowSums (take b Rm) ++ replicate (length Rm - b) 0.
Proof.
  intros Hpend. rewrite <- (take_drop b Rm) at 1. unfold rowSums at 1.
  rewrite fmap_app. f_equal. apply list_eq. intros j. rewrite list_lookup_fmap, lookup_drop.
  destruct (Rm !! (b + j)%nat) as [row|] eqn:Hrow; simpl.
  - rewrite lookup_replicate_2 by (apply lookup_lt_Some in Hrow; lia).
    f_equal. apply (Hpend (b + j)%nat row); [lia|done].
  - symmetry. apply lookup_replicate_None. apply lookup_ge_None in Hrow. lia.
Qed.

(** While the batches from [b] on have no rejection, the inversion of
    the running total is the inversion over the batches before [b]. *)
Lemma positions_completed (Rm : list (list bool)) (b : nat) :
  (1 ≤ b ≤ length Rm)%nat →
  (∀ (b' : nat) row, (b ≤ b')%nat → Rm !! b' = Some row → count_true row = 0) →
  positions_guarded (cumsum (rowSums Rm)) = positions (cumsum (rowSums (take b Rm))).
Proof.
  intros Hb Hpend. rewrite positions_guarded_eq, (rowSums_pending Rm b Hpend).
  unfold cumsum. rewrite cumsum_from_app, cumsum_from_zeros.
  assert (Hlen : length (rowSums (take b Rm)) = b).
  { unfold rowSums. rewrite length_fmap, length_take_le; lia. }
  assert (Hne : rowSums (take b Rm) ≠ []) by (intros Hnil; rewrite Hnil in Hlen; simpl in Hlen; lia).
  rewrite <- (cumsum_from_last _ Hne 0), <- (length_cumsum_from _ 0).
  apply positions_app_flat; [apply running_total_nondecreasing|].
  intros Hnil. apply (f_equal length) in Hnil. rewrite length_cumsum_from in Hnil.
  simpl in Hnil. lia.
Qed.

(** ** The matrices of the batch procedure *)

Section BatchState.
Context {F : Type} `{Arith F}.
Variables pval gammai : list F.
Variables batch batchsum : list Z.
Variables w0 alpha : F.

Lemma batch_threshold_take (Rm Rm' : list (list bool)) (b x : nat) :
  take b Rm = take b Rm' →
  batch_threshold batchsum gammai w0 alpha Rm b x
  = batch_threshold batchsum gammai w0 alpha Rm' b x.
Proof. intros Ht. unfold batch_threshold. by rewrite Ht. Qed.

Lemma batch_state_init :
  batch_state batch batchsum gammai w0 alpha 0 0
    (replicate (length batch) (replicate (Z.to_nat (vmax batch)) fzero),
     replicate (length batch) (replicate (Z.to_nat (vmax batch)) false)).
Proof.
  split; simpl.
  - by rewrite length_replicate.
  - by rewrite length_replicate.
  - intros b' row [-> _]%lookup_replicate. by rewrite length_replicate.
  - intros b' row [-> _]%lookup_replicate. by rewrite length_replicate.
  - intros b' x' nb Hnb Hx' _. apply lookup_lt_Some in Hnb. unfold cell.
    rewrite !lookup_replicate_2 by done. simpl. by rewrite !lookup_replicate_2 by done.
  - intros b' x' nb _ _ Hlt. lia.
Qed.

Lemma batch_state_decide (b x nb : Z) (k : Z) m al' rj' :
  batch_state batch batchsum gammai w0 alpha b x m →
  batch !! Z.to_nat b = Some nb → 0 ≤ x < nb →
  decide_cell pval b x k
    (batch_threshold batchsum gammai w0 alpha m.2 (Z.to_nat b) (Z.to_nat x))
    m.1 m.2 = Ok (al', rj') →
  batch_state batch batchsum gammai w0 alpha b (x + 1) (al', rj').
Proof.
  intros [Hla Hlr Hra Hrr Hun Hfo] Hnb Hx
    (Hb & _ & _ & rowa & rowr & p & Hrowa & Hxa & Hrowr & Hxr & Hp & -> & ->)%decide_cell_Ok.
  assert (Hne : ∀ (b' x' : nat) nb',
            batch !! b' = Some nb' →
            nb' ≤ Z.of_nat x' ∨ b < Z.of_nat b' ∨ (Z.of_nat b' = b ∧ x + 1 ≤ Z.of_nat x') →
            (b', x') ≠ (Z.to_nat b, Z.to_nat x)).
  { intros b' x' nb' Hnb' Hc [= -> ->]. rewrite Hnb in Hnb'. injection Hnb' as <-. lia. }
  split; simpl.
  - by rewrite length_insert.
  - by rewrite length_insert.
  - intros b' row [(_ & <- & _)|[_ Hrow]]%list_lookup_insert_Some.
    + rewrite length_insert. by apply (Hra (Z.to_nat b)).
    + by apply (Hra b').
  - intros b' row [(_ & <- & _)|[_ Hrow]]%list_lookup_insert_Some.
    + rewrite length_insert. by apply (Hrr (Z.to_nat b)).
    + by apply (Hrr b').
  - intros b' x' nb' Hnb' Hx' Hc.
    rewrite !cell_mset_ne by (done || by apply (Hne b' x' nb')).
    apply (Hun b' x' nb' Hnb' Hx'). lia.
  - intros b' x' nb' Hnb' Hx' Hc.
    match goal with
    | |- _ = Some (batch_threshold _ _ _ _ ?M _ _) =>
        rewrite (batch_threshold_take M m.2 b' x') by (apply take_insert_ge; lia)
    end.
    destruct (decide ((b', x') = (Z.to_nat b, Z.to_nat x))) as [[= -> ->]|Hneq].
    + by rewrite cell_mset_eq by (done || lia).
    + rewrite cell_mset_ne by done. apply (Hfo b' x' nb' Hnb' Hx').
      destruct Hc as [Hc|[Hc1 Hc2]]; [by left|]. right. split; [done|].
      destruct (decide (Z.of_nat x' = x)); [|lia]. exfalso. apply Hneq. f_equal; lia.
Qed.

Lemma batch_state_next (b nb : Z) m :
  0 ≤ b → batch !! Z.to_nat b = Some nb →
  batch_state batch batchsum gammai w0 alpha b (Z.max 0 nb) m →
  batch_state batch batchsum gammai w0 alpha (b + 1) 0 m.
Proof.
  intros Hb Hnb [Hla Hlr Hra Hrr Hun Hfo]. split; try done.
  - intros b' x' nb' Hnb' Hx' Hc. apply (Hun b' x' nb' Hnb' Hx'). lia.
  - intros b' x' nb' Hnb' Hx' Hc. apply (Hfo b' x' nb' Hnb' Hx').
    destruct (decide (Z.of_nat b' < b)); [by left|]. right. split; [lia|].
    replace b' with (Z.to_nat b) in Hnb' by lia. rewrite Hnb in Hnb'.
    injection Hnb' as <-. lia.
Qed.

(** The batches that have not run yet have no rejection. *)
Lemma batch_state_pending (b x : Z) m (b' : nat) (row : list bool) :
  batch_state batch batchsum gammai w0 alpha b x m →
  b < Z.of_nat b' ∨ (Z.of_nat b' = b ∧ x ≤ 0) →
  m.2 !! b' = Some row → row = replicate (Z.to_nat (vmax batch)) false.
Proof.
  intros [Hla Hlr Hra Hrr Hun Hfo] Hb Hrow.
  destruct (lookup_lt_is_Some_2 batch b') as [nb Hnb].
  { rewrite <- Hlr. by apply lookup_lt_Some in Hrow. }
  apply list_eq. intros x'. destruct (decide (x' < Z.to_nat (vmax batch))%nat) as [Hx|Hx].
  - rewrite lookup_replicate_2 by done.
    destruct (Hun b' x' nb Hnb Hx) as [_ Hc]; [lia|].
    unfold cell in Hc. by rewrite Hrow in Hc.
  - rewrite (proj1 (lookup_replicate_None _ _ _)) by lia.
    apply lookup_ge_None. rewrite (Hrr b' row Hrow). lia.
Qed.

Lemma batch_seed_state (i n0 : Z) m m' :
  batch !! 0%nat = Some n0 → 0 ≤ i < n0 →
  batch_state batch batchsum gammai w0 alpha 0 i m →
  batch_seed pval gammai w0 i m = Ok m' →
  batch_state batch batchsum gammai w0 alpha 0 (i + 1) m'.
Proof.
  intros Hn0 Hi Hst Hs. unfold batch_seed in Hs. bind_inv Hs as gi Hgi.
  destruct m' as [al' rj']. rewrite (vget_gam _ _ _ Hgi) in Hs.
  apply (batch_state_decide 0 i n0 i m); [done|done|done|].
  unfold batch_threshold. simpl. by rewrite Z2Nat.id by lia.
Qed.

Lemma batch_ages (k : Z) (r ages : list Z) :
  Forall2 (reads (batch_age batchsum k) gammai) r ages →
  ages = (λ rg, k - nth (Z.to_nat rg) batchsum 0) <$> r.
Proof.
  induction 1 as [|rg a r' ages' [Hage _] _ IH]; [done|].
  rewrite fmap_cons, <- IH. f_equal. unfold batch_age in Hage.
  bind_inv Hage as bz Hbz. injection Hage as <-.
  apply vget_Ok in Hbz as [_ Hbz]. by rewrite nth_lookup, Hbz.
Qed.

Lemma test_index_later (b x bs : Z) :
  1 ≤ b → 0 ≤ x → vget batchsum (b - 1) = Ok bs →
  test_index batchsum (Z.to_nat b) (Z.to_nat x) = bs + x.
Proof.
  intros Hb Hx Hbs. unfold test_index. destruct (Z.to_nat b) as [|b'] eqn:Eb; [lia|].
  apply vget_Ok in Hbs as [_ Hbs]. replace (Z.to_nat (b - 1)) with b' in Hbs by lia.
  rewrite nth_lookup, Hbs. simpl. lia.
Qed.

Lemma batch_test_state (b x nb : Z) (rcum : list Z) m m' :
  1 ≤ b → batch !! Z.to_nat b = Some nb → 0 ≤ x < nb →
  positions_guarded rcum = positions (cumsum (rowSums (take (Z.to_nat b) m.2))) →
  batch_state batch batchsum gammai w0 alpha b x m →
  batch_test pval batchsum gammai w0 alpha b rcum x m = Ok m' →
  batch_state batch batchsum gammai w0 alpha b (x + 1) m' ∧
  take (Z.to_nat b) m'.2 = take (Z.to_nat b) m.2.
Proof.
  intros Hb Hnb Hx Hr Hst Ht. unfold batch_test in Ht. bind_inv Ht as bs Hbs.
  bind_inv Ht as t Hthr. destruct m' as [al' rj'].
  pose proof (test_index_later b x bs Hb ltac:(lia) Hbs) as Hk.
  apply lord_threshold_Ok in Hthr as (_ & ages & Hages & ->).
  apply batch_ages in Hages as ->. split.
  - apply (batch_state_decide b x nb (bs + x) m); [done|done|done|].
    unfold batch_threshold. by rewrite Hk, <- Hr.
  - apply decide_cell_Ok in Ht as (_ & _ & _ & rowa & rowr & p & _ & _ & _ & _ & _ & _ & ->).
    simpl. apply take_insert_ge. lia.
Qed.

Lemma batch_step_state (b : Z) m m' :
  1 ≤ b < Z.of_nat (length batch) →
  batch_state batch batchsum gammai w0 alpha b 0 m →
  batch_step pval batch batchsum gammai w0 alpha b m = Ok m' →
  batch_state batch batchsum gammai w0 alpha (b + 1) 0 m'.
Proof.
  intros Hb Hst Hs. unfold batch_step in Hs. bind_inv Hs as nb Hnb.
  apply vget_Ok in Hnb as [_ Hnb]. apply (batch_state_next b nb); [lia|done|].
  destruct (decide (0 ≤ nb)) as [Hpos|Hneg].
  - rewrite Z.max_r by done.
    assert (Hr : positions_guarded (cumsum (rowSums m.2))
                 = positions (cumsum (rowSums (take (Z.to_nat b) m.2)))).
    { apply positions_completed; [rewrite (bs_len_rj _ _ _ _ _ _ _ _ Hst); lia|].
      intros b' row Hb' Hrow.
      rewrite (batch_state_pending b 0 m b' row Hst) by (done || lia).
      apply count_true_all_false, Forall_forall. by intros d [-> _]%elem_of_replicate. }
    apply (for_range_inv
             (λ x t, batch_state batch batchsum gammai w0 alpha b x t ∧
                     take (Z.to_nat b) t.2 = take (Z.to_nat b) m.2)) in Hs;
      [by destruct Hs|done|done|].
    intros x t t' Hx [Ht Htake] Hbody.
    destruct (batch_test_state b x nb (cumsum (rowSums m.2)) t t') as [Ht' Htake'];
      [lia|done|lia|by rewrite Htake|done|done|].
    split; [done|]. by rewrite Htake'.
  - rewrite for_range_empty in Hs by lia. injection Hs as <-.
    by rewrite Z.max_l by lia.
Qed.

Lemma batch_faster_state m :
  lordstar_batch_faster pval batch batchsum gammai w0 alpha = Ok m →
  batch_state batch batchsum gammai w0 alpha (Z.of_nat (length batch)) 0 m.
Proof.
  unfold lordstar_batch_faster. intros Hrun. bind_inv Hrun as n0 Hn0.
  bind_inv Hrun as m0 Hseed. apply vget_Ok in Hn0 as [_ Hn0]. simpl in Hn0.
  assert (HB : (1 ≤ length batch)%nat) by (apply lookup_lt_Some in Hn0; lia).
  assert (Hm0 : batch_state batch batchsum gammai w0 alpha 1 0 m0).
  { apply (batch_state_next 0 n0); [lia|done|].
    destruct (decide (0 ≤ n0)) as [Hpos|Hneg].
    - rewrite Z.max_r by done.
      apply (for_range_inv (batch_state batch batchsum gammai w0 alpha 0)) in Hseed;
        [done|done|apply batch_state_init|].
      intros i t t' Hi Ht Hbody. by apply (batch_seed_state i n0 t t').
    - rewrite for_range_empty in Hseed by lia. injection Hseed as <-.
      rewrite Z.max_l by lia. apply batch_state_init. }
  apply (for_range_inv (λ b, batch_state batch batchsum gammai w0 alpha b 0)) in Hrun;
    [done|lia|done|].
  intros b t t' Hb Ht Hbody. by apply (batch_step_state b t t').
Qed.

End BatchState.

Section BatchResults.
Context {F : Type} `{Arith F}.

(** X12: The matrices returned by [lordstar_batch_faster] have one row per
    batch and [max(batch)] columns, and the cells of a row beyond the
    size of its batch hold the initial [0] and [false]. *)
Theorem batch_matrices_shape (pval : list F) (batch batchsum : list Z)
    (gammai : list F) (w0 alpha : F) (al : list (list F)) (rj : list (list bool)) :
  lordstar_batch_faster pval batch batchsum gammai w0 alpha = Ok (al, rj) →
  length al = length batch ∧ length rj = length batch ∧
  (∀ (b : nat) row, al !! b = Some row → length row = Z.to_nat (vmax batch)) ∧
  (∀ (b : nat) row, rj !! b = Some row → length row = Z.to_nat (vmax batch)) ∧
  ∀ (b x : nat) (nb : Z),
    batch !! b = Some nb → (x < Z.to_nat (vmax batch))%nat → nb ≤ Z.of_nat x →
    cell al b x = Some fzero ∧ cell rj b x = Some false.
Proof.
  intros [Hla Hlr Hra Hrr Hun _]%batch_faster_state. simpl in *.
  repeat (split; [done|]). intros b x nb Hnb Hx Hle. apply (Hun b x nb Hnb Hx). by left.
Qed.

(** X13: In the result of [lordstar_batch_faster] the threshold of every test
    of batch [b] is the formula applied to the inversion of the running
    total over the batches before [b]: it is determined by the decisions
    of the completed batches (the rows before [b] of the returned
    decisions), not by those of its own batch. *)
Theorem batch_thresholds_from_completed (pval : list F) (batch batchsum : list Z)
    (gammai : list F) (w0 alpha : F) (al : list (list F)) (rj : list (list bool)) :
  lordstar_batch_faster pval batch batchsum gammai w0 alpha = Ok (al, rj) →
  ∀ (b x : nat) (nb : Z), batch !! b = Some nb → Z.of_nat x < nb →
    let k := test_index batchsum b x in
    let r := positions (cumsum (rowSums (take b rj))) in
    cell al b x
    = Some (threshold_of gammai w0 alpha k
              ((λ rg, k - nth (Z.to_nat rg) batchsum 0) <$> r)).
Proof.
  intros [_ _ _ _ _ Hfo]%batch_faster_state b x nb Hnb Hx. simpl in *.
  apply (Hfo b x nb Hnb Hx). left. apply lookup_lt_Some in Hnb. lia.
Qed.

End BatchResults.

Lemma batch_matrices_shape_witness :
  ∃ al rj,
    lordstar_batch_faster busy_pval [2; 0; 3] [2; 2; 5] scenario_gammai
      scenario_w0 scenario_alpha = Ok (al, rj) ∧
    length al = 3%nat ∧ cell al 0 2 = Some fzero ∧ cell rj 1 0 = Some false.
Proof.
  do 2 eexists. split; [vm_compute; reflexivity|].
  edestruct (batch_matrices_shape busy_pval [2; 0; 3] [2; 2; 5] scenario_gammai
               scenario_w0 scenario_alpha) as (Hla & _ & _ & _ & Hun);
    [vm_compute; reflexivity|].
  split; [exact Hla|]. split.
  - apply (Hun 0%nat 2%nat 2); [reflexivity | vm_compute; lia | lia].
  - apply (Hun 1%nat 0%nat 0); [reflexivity | vm_compute; lia | lia].
Defined.

Lemma batch_thresholds_from_completed_witness :
  ∃ al rj,
    lordstar_batch_faster [1#1000; 1#1000; 1#100; 5#10; 1#1000]%Q [2; 0; 3] [2; 2; 5] scenario_gammai
      scenario_w0 scenario_alpha = Ok (al, rj) ∧
    positions (cumsum (rowSums (take 2 rj))) = [0; 0] ∧
    cell al 2 1
    = Some (threshold_of scenario_gammai scenario_w0 scenario_alpha
              (test_index [2; 2; 5] 2 1)
              ((λ rg, test_index [2; 2; 5] 2 1 - nth (Z.to_nat rg) [2; 2; 5] 0)
                 <$> positions (cumsum (rowSums (take 2 rj))))).
Proof.
  do 2 eexists. split; [vm_compute; reflexivity|]. split; [vm_compute; reflexivity|].
  refine (batch_thresholds_from_completed [1#1000; 1#1000; 1#100; 5#10; 1#1000]%Q [2; 0; 3] [2; 2; 5] scenario_gammai
            scenario_w0 scenario_alpha _ _ _ 2%nat 1%nat 3 _ _);
    [vm_compute; reflexivity | reflexivity | lia].
Defined.

(** ** Prefix sums of the batch sizes *)

Lemma foldl_add_foldr (v : list Z) : ∀ acc, foldl Z.add acc v = acc + foldr Z.add 0 v.
Proof.
  induction v as [|x v IH]; intros acc; simpl; [lia|]. rewrite IH. lia.
Qed.

Lemma cumsum_from_ge (v : list Z) :
  Forall (λ n, 0 ≤ n) v → ∀ acc, Forall (λ c, acc ≤ c) (cumsum_from acc v).
Proof.
  induction 1 as [|x v Hx _ IH]; intros acc; simpl; constructor; [lia|].
  apply (Forall_impl _ _ _ (IH (acc + x))). intros c Hc. lia.
Qed.

Lemma cumsum_from_lookup_S (v : list Z) :
  ∀ acc (b : nat) c c' nb,
    cumsum_from acc v !! b = Some c' → cumsum_from acc v !! S b = Some c →
    v !! S b = Some nb → c = c' + nb.
Proof.
  induction v as [|x v IH]; intros acc b c c' nb Hc' Hc Hnb; [done|].
  simpl in *. destruct b as [|b].
  - destruct v as [|y v']; [done|]. simpl in *. simplify_eq. done.
  - by apply (IH (acc + x) b).
Qed.

Section PrefixSums.
Variable batch : list Z.
Variable N : Z.
Hypothesis sizes_nonneg : Forall (λ n, 0 ≤ n) batch.
Hypothesis sizes_total : foldr Z.add 0 batch = N.

Lemma prefix_sum_bounds (b : nat) (c : Z) :
  cumsum batch !! b = Some c → 0 ≤ c ≤ N.
Proof.
  intros Hc. split.
  - by apply (Forall_lookup_1 _ _ _ _ (cumsum_from_ge batch sizes_nonneg 0) Hc).
  - assert (Hb := lookup_lt_Some _ _ _ Hc). unfold cumsum in Hb.
    rewrite length_cumsum_from in Hb.
    assert (Hne : batch ≠ []) by (intros ->; simpl in Hb; lia).
    pose proof (cumsum_from_last batch Hne 0) as Hlast.
    rewrite foldl_add_foldr, sizes_total in Hlast.
    pose proof (Sorted_nondecreasing _ (cumsum_from_sorted batch sizes_nonneg 0)
                  b (length batch - 1)%nat) as Hmono.
    rewrite length_cumsum_from in Hmono. specialize (Hmono ltac:(lia)).
    unfold cumsum in Hc. rewrite (nth_lookup _ b), Hc in Hmono. simpl in Hmono. lia.
Qed.

(** The place of every test of every batch is a place among the [N]
    p-values. *)
Lemma test_index_bounds (b x : nat) (nb : Z) :
  batch !! b = Some nb → Z.of_nat x < nb →
  0 ≤ test_index (cumsum batch) b x < N.
Proof.
  intros Hnb Hx. assert (Hb := lookup_lt_Some _ _ _ Hnb).
  destruct (lookup_lt_is_Some_2 (cumsum batch) b) as [c Hc].
  { unfold cumsum. by rewrite length_cumsum_from. }
  pose proof (prefix_sum_bounds b c Hc) as Hcb. unfold test_index.
  destruct b as [|b'].
  - destruct batch as [|n0 rest]; [done|]. simpl in *. simplify_eq. lia.
  - destruct (lookup_lt_is_Some_2 (cumsum batch) b') as [c' Hc'].
    { unfold cumsum. rewrite length_cumsum_from. lia. }
    pose proof (prefix_sum_bounds b' c' Hc') as Hcb'.
    pose proof (cumsum_from_lookup_S batch 0 b' c c' nb Hc' Hc Hnb).
    rewrite nth_lookup, Hc'. simpl. lia.
Qed.

End PrefixSums.

(** ** When the batch procedure returns *)

Section BatchTotal.
Context {F : Type} `{Arith F}.

Lemma decide_cell_total (pval : list F) (b x k : Z) (t : F)
    (al : list (list F)) (rj : list (list bool)) (rowa : list F) (rowr : list bool) :
  0 ≤ b → 0 ≤ x → 0 ≤ k < Z.of_nat (length pval) →
  al !! Z.to_nat b = Some rowa → x < Z.of_nat (length rowa) →
  rj !! Z.to_nat b = Some rowr → x < Z.of_nat (length rowr) →
  ∃ m', decide_cell pval b x k t al rj = Ok m'.
Proof.
  intros Hb Hx Hk Hrowa Hxa Hrowr Hxr. unfold decide_cell.
  assert (Hsa : mset al b x t = Ok (<[Z.to_nat b := <[Z.to_nat x := t]> rowa]> al)).
  { apply mset_Ok. split; [done|]. exists rowa. split; [done|]. split; [lia|done]. }
  rewrite Hsa. simpl. destruct (vget_total pval k Hk) as [p Hp]. rewrite Hp. simpl.
  assert (Hga : mget (<[Z.to_nat b := <[Z.to_nat x := t]> rowa]> al) b x = Ok t).
  { apply mget_cell. split; [done|]. split; [done|]. apply cell_mset_eq; [done|lia]. }
  rewrite Hga. simpl.
  assert (Hsr : mset rj b x (fle p t)
                = Ok (<[Z.to_nat b := <[Z.to_nat x := fle p t]> rowr]> rj)).
  { apply mset_Ok. split; [done|]. exists rowr. split; [done|]. split; [lia|done]. }
  rewrite Hsr. simpl. eauto.
Qed.

Variables pval gammai : list F.
Variable batch : list Z.
Variables w0 alpha : F.

Hypothesis sizes_nonneg : Forall (λ n, 0 ≤ n) batch.
Hypothesis sizes_total : foldr Z.add 0 batch = Z.of_nat (length pval).
Hypothesis gammai_long : (length pval ≤ length gammai)%nat.

Lemma batch_cell_ready (b x nb : Z) m :
  batch_state batch (cumsum batch) gammai w0 alpha b x m →
  0 ≤ b → batch !! Z.to_nat b = Some nb → 0 ≤ x < nb →
  ∃ rowa rowr,
    m.1 !! Z.to_nat b = Some rowa ∧ x < Z.of_nat (length rowa) ∧
    m.2 !! Z.to_nat b = Some rowr ∧ x < Z.of_nat (length rowr).
Proof.
  intros [Hla Hlr Hra Hrr _ _] Hb Hnb Hx. assert (Hlt := lookup_lt_Some _ _ _ Hnb).
  destruct (lookup_lt_is_Some_2 m.1 (Z.to_nat b)) as [rowa Hrowa]; [lia|].
  destruct (lookup_lt_is_Some_2 m.2 (Z.to_nat b)) as [rowr Hrowr]; [lia|].
  pose proof (vmax_ge batch nb (list_elem_of_lookup_2 _ _ _ Hnb)) as Hmax.
  exists rowa, rowr. rewrite (Hra _ _ Hrowa), (Hrr _ _ Hrowr).
  repeat split; (done || lia).
Qed.

Lemma batch_seed_total (i n0 : Z) m :
  batch !! 0%nat = Some n0 → 0 ≤ i < n0 →
  batch_state batch (cumsum batch) gammai w0 alpha 0 i m →
  ∃ m', batch_seed pval gammai w0 i m = Ok m'.
Proof.
  intros Hn0 Hi Hst. unfold batch_seed.
  pose proof (test_index_bounds batch _ sizes_nonneg sizes_total 0 (Z.to_nat i) n0 Hn0
                ltac:(lia)) as Hk.
  simpl in Hk. rewrite Z2Nat.id in Hk by lia.
  destruct (vget_total gammai i) as [gi Hgi]; [lia|]. rewrite Hgi. simpl.
  destruct (batch_cell_ready 0 i n0 m Hst) as (rowa & rowr & Hrowa & Hxa & Hrowr & Hxr);
    [done|done|done|].
  apply (decide_cell_total pval 0 i i _ _ _ rowa rowr); (done || lia).
Qed.

Lemma batch_test_total (b x nb : Z) (rcum : list Z) m :
  1 ≤ b → batch !! Z.to_nat b = Some nb → 0 ≤ x < nb →
  positions_guarded rcum = positions (cumsum (rowSums (take (Z.to_nat b) m.2))) →
  batch_state batch (cumsum batch) gammai w0 alpha b x m →
  ∃ m', batch_test pval (cumsum batch) gammai w0 alpha b rcum x m = Ok m'.
Proof.
  intros Hb Hnb Hx Hr Hst. assert (Hlt := lookup_lt_Some _ _ _ Hnb).
  assert (Hlen : length (cumsum batch) = length batch).
  { unfold cumsum. apply length_cumsum_from. }
  unfold batch_test. destruct (vget_total (cumsum batch) (b - 1)) as [bs Hbs]; [lia|].
  rewrite Hbs. simpl.
  pose proof (test_index_later (cumsum batch) b x bs Hb ltac:(lia) Hbs) as Hk.
  pose proof (test_index_bounds batch _ sizes_nonneg sizes_total (Z.to_nat b) (Z.to_nat x)
                nb Hnb ltac:(lia)) as Hkb.
  rewrite Hk in Hkb.
  destruct (lord_threshold_total (batch_age (cumsum batch) (bs + x)) gammai w0 alpha
              (bs + x) (positions_guarded rcum)) as [t Ht]; [lia| |].
  { intros rg Hrg. rewrite Hr in Hrg.
    apply positions_in_range in Hrg; [|apply running_total_nondecreasing].
    unfold cumsum in Hrg. rewrite length_cumsum_from in Hrg. unfold rowSums in Hrg.
    rewrite length_fmap, length_take_le in Hrg
      by (rewrite (bs_len_rj _ _ _ _ _ _ _ _ Hst); lia).
    destruct (vget_total (cumsum batch) rg) as [c Hc]; [lia|].
    exists (bs + x - c). unfold batch_age. rewrite Hc. simpl. split; [done|].
    apply vget_Ok in Hc as [_ Hc]. apply vget_Ok in Hbs as [_ Hbs].
    pose proof (prefix_sum_bounds batch _ sizes_nonneg sizes_total _ _ Hc) as Hcb.
    pose proof (Sorted_nondecreasing _ (cumsum_from_sorted batch sizes_nonneg 0)
                  (Z.to_nat rg) (Z.to_nat (b - 1))) as Hmono.
    rewrite length_cumsum_from in Hmono. specialize (Hmono ltac:(lia)).
    unfold cumsum in Hc, Hbs. rewrite !nth_lookup, Hc, Hbs in Hmono. simpl in Hmono.
    lia. }
  rewrite Ht. simpl.
  destruct (batch_cell_ready b x nb m Hst) as (rowa & rowr & Hrowa & Hxa & Hrowr & Hxr);
    [lia|done|done|].
  apply (decide_cell_total pval b x (bs + x) _ _ _ rowa rowr); (done || lia).
Qed.

Lemma batch_step_total (b : Z) m :
  1 ≤ b < Z.of_nat (length batch) →
  batch_state batch (cumsum batch) gammai w0 alpha b 0 m →
  ∃ m', batch_step pval batch (cumsum batch) gammai w0 alpha b m = Ok m' ∧
        batch_state batch (cumsum batch) gammai w0 alpha (b + 1) 0 m'.
Proof.
  intros Hb Hst.
  assert (Hrun : ∃ m', batch_step pval batch (cumsum batch) gammai w0 alpha b m = Ok m').
  { unfold batch_step. destruct (vget_total batch b) as [nb Hnb]; [lia|].
    rewrite Hnb. simpl. apply vget_Ok in Hnb as [_ Hnb].
    destruct (decide (0 ≤ nb)) as [Hpos|Hneg]; [|rewrite for_range_empty by lia; eauto].
    assert (Hr : positions_guarded (cumsum (rowSums m.2))
                 = positions (cumsum (rowSums (take (Z.to_nat b) m.2)))).
    { apply positions_completed; [rewrite (bs_len_rj _ _ _ _ _ _ _ _ Hst); lia|].
      intros b' row Hb' Hrow.
      rewrite (batch_state_pending gammai batch (cumsum batch) w0 alpha b 0 m b' row Hst)
        by (done || lia).
      apply count_true_all_false, Forall_forall. by intros d [-> _]%elem_of_replicate. }
    destruct (for_range_total
                (λ x t, batch_state batch (cumsum batch) gammai w0 alpha b x t ∧
                        take (Z.to_nat b) t.2 = take (Z.to_nat b) m.2)
                (batch_test pval (cumsum batch) gammai w0 alpha b (cumsum (rowSums m.2)))
                0 nb m) as (m' & Hm' & _); [done|done| |eauto].
    intros x t Hx [Ht Htake].
    destruct (batch_test_total b x nb (cumsum (rowSums m.2)) t) as [t' Ht'];
      [lia|done|lia|by rewrite Htake|done|].
    exists t'. split; [done|].
    destruct (batch_test_state pval gammai batch (cumsum batch) w0 alpha b x nb
                (cumsum (rowSums m.2)) t t') as [Hst' Htake'];
      [lia|done|lia|by rewrite Htake|done|done|].
    split; [done|]. by rewrite Htake'. }
  destruct Hrun as [m' Hm']. exists m'. split; [done|].
  by apply (batch_step_state pval gammai batch (cumsum batch) w0 alpha b m m').
Qed.

Lemma batch_faster_total :
  (1 ≤ length batch)%nat →
  ∃ m, lordstar_batch_faster pval batch (cumsum batch) gammai w0 alpha = Ok m.
Proof.
  intros HB. unfold lordstar_batch_faster.
  destruct (vget_total batch 0) as [n0 Hn0]; [lia|]. rewrite Hn0. simpl.
  apply vget_Ok in Hn0 as [_ Hn0]. simpl in Hn0.
  assert (Hseed : ∃ m0,
    for_range 0 n0 (batch_seed pval gammai w0)
      (replicate (length batch) (replicate (Z.to_nat (vmax batch)) fzero),
       replicate (length batch) (replicate (Z.to_nat (vmax batch)) false)) = Ok m0 ∧
    batch_state batch (cumsum batch) gammai w0 alpha 1 0 m0).
  { destruct (decide (0 ≤ n0)) as [Hpos|Hneg].
    - destruct (for_range_total (batch_state batch (cumsum batch) gammai w0 alpha 0)
                  (batch_seed pval gammai w0) 0 n0
                  (replicate (length batch) (replicate (Z.to_nat (vmax batch)) fzero),
                   replicate (length batch) (replicate (Z.to_nat (vmax batch)) false)))
        as (m0 & Hm0 & Hst); [done|apply batch_state_init| |].
      + intros i t Hi Ht. destruct (batch_seed_total i n0 t Hn0 Hi Ht) as [t' Ht'].
        exists t'. split; [done|]. by apply (batch_seed_state pval gammai batch _ w0 alpha i n0 t t').
      + exists m0. split; [done|]. apply (batch_state_next _ _ _ _ _ 0 n0); [lia|done|].
        by rewrite Z.max_r by done.
    - rewrite for_range_empty by lia. eexists. split; [done|].
      apply (batch_state_next _ _ _ _ _ 0 n0); [lia|done|].
      rewrite Z.max_l by lia. apply batch_state_init. }
  destruct Hseed as (m0 & -> & Hst0). simpl.
  destruct (for_range_total (λ b, batch_state batch (cumsum batch) gammai w0 alpha b 0)
              (batch_step pval batch (cumsum batch) gammai w0 alpha)
              1 (Z.of_nat (length batch)) m0) as (m & Hm & _); [lia|done| |eauto].
  intros b t Hb Ht. by apply batch_step_total.
Qed.

End BatchTotal.

Section BatchReturns.
Context {F : Type} `{Arith F}.

(** X14: When the batch sizes are non-negative and add up to the number of
    p-values and [batchsum] is their prefix sums,
    [lordstar_batch_faster] returns a result exactly when there is at
    least one batch and [gammai] has an entry for every p-value. *)
Theorem batch_returns_iff (pval : list F) (batch : list Z) (gammai : list F)
    (w0 alpha : F) :
  Forall (λ n, 0 ≤ n) batch →
  foldr Z.add 0 batch = Z.of_nat (length pval) →
  (∃ al rj, lordstar_batch_faster pval batch (cumsum batch) gammai w0 alpha
            = Ok (al, rj)) ↔
  (1 ≤ length batch)%nat ∧ (length pval ≤ length gammai)%nat.
Proof.
  intros Hpos Hsum. split.
  - intros (al & rj & Hrun). apply batch_faster_inv in Hrun as [HB [Hdone _]].
    split; [done|]. destruct (decide (length pval ≤ length gammai)%nat) as [|Hshort]; [done|].
    destruct (test_index_cover batch (Z.of_nat (length gammai)))
      as (b & x & nb & Hnb & Hx & Hk); [lia|].
    destruct (Hdone b x nb Hnb Hx) as (p & ages & Hrange & _).
    { left. apply lookup_lt_Some in Hnb. lia. }
    lia.
  - intros [HB Hg].
    destruct (batch_faster_total pval gammai batch w0 alpha Hpos Hsum Hg HB) as [[al rj] Hm].
    by exists al, rj.
Qed.

End BatchReturns.

Lemma batch_returns_iff_witness :
  Forall (λ n, 0 ≤ n) [2; 0; 3] ∧
  foldr Z.add 0 [2; 0; 3] = Z.of_nat (length busy_pval) ∧
  ∃ al rj, lordstar_batch_faster busy_pval [2; 0; 3] (cumsum [2; 0; 3])
             scenario_gammai scenario_w0 scenario_alpha = Ok (al, rj).
Proof.
  assert (Hpos : Forall (λ n, 0 ≤ n) [2; 0; 3]) by (repeat constructor; lia).
  assert (Hsum : foldr Z.add 0 [2; 0; 3] = Z.of_nat (length busy_pval)) by reflexivity.
  split; [exact Hpos|]. split; [exact Hsum|].
  apply (batch_returns_iff busy_pval [2; 0; 3] scenario_gammai
           scenario_w0 scenario_alpha Hpos Hsum). simpl. lia.
Defined.

(** ** An all-zero discount sequence *)

Lemma is_zero_spec (a : float) : is_zero a = true ↔ sf_zero (Prim2SF a).
Proof.
  unfold is_zero. rewrite FloatAxioms.eqb_spec.
  change (Prim2SF zero) with (S754_zero false).
  by destruct (Prim2SF a) as [[|]|[|]| |[|] m e].
Qed.

Lemma is_finite_spec (a : float) : is_finite a = true ↔ sf_finite (Prim2SF a).
Proof.
  unfold is_finite, is_nan, is_infinity.
  rewrite !FloatAxioms.eqb_spec, abs_spec.
  change (Prim2SF infinity) with (S754_infinity false).
  destruct (Prim2SF a) as [[|]|[|]| |[|] m e]; try rewrite SFeqb_refl_finite; by simpl.
Qed.

Lemma is_zero_add (x y : float) :
  is_zero x = true → is_zero y = true → is_zero (x + y) = true.
Proof.
  rewrite !is_zero_spec, add_spec.
  by destruct (Prim2SF x) as [[|]|[|]| |[|] mx ex], (Prim2SF y) as [[|]|[|]| |[|] my ey].
Qed.

(** A zero times a number that is neither NaN nor infinite is a zero. *)
Lemma is_zero_mul (x y : float) :
  (is_zero x = true ∧ is_finite y = true) ∨ (is_finite x = true ∧ is_zero y = true) →
  is_zero (x * y) = true.
Proof.
  rewrite !is_zero_spec, !is_finite_spec, mul_spec.
  destruct (Prim2SF x) as [[|]|[|]| |[|] mx ex], (Prim2SF y) as [[|]|[|]| |[|] my ey];
    simpl; tauto.
Qed.

(** X16: On the doubles of the source, when every entry of [gammai] is
    zero and [w0], [alpha] and the difference [alpha - w0] are finite,
    every threshold returned by each of the three procedures is zero:
    the procedures return a result without signalling the degenerate
    discount sequence. *)
Theorem zero_discount_zero_thresholds (gammai : list float) (w0 alpha : float) :
  Forall (λ g, is_zero g = true) gammai →
  is_finite w0 = true → is_finite alpha = true → is_finite (alpha - w0) = true →
  (∀ pval E pv al rj,
     lordstar_async_faster pval E gammai w0 alpha = Ok (pv, al, rj) →
     Forall (λ a, is_zero a = true) al) ∧
  (∀ pval L pv lag al rj,
     lordstar_dep_faster pval L gammai w0 alpha = Ok (pv, lag, al, rj) →
     Forall (λ a, is_zero a = true) al) ∧
  (∀ pval batch batchsum al rj,
     lordstar_batch_faster pval batch batchsum gammai w0 alpha = Ok (al, rj) →
     Forall (Forall (λ a, is_zero a = true)) al).
Proof.
  intros Hg Hw0 Ha Hd.
  apply (returned_thresholds_closed (λ a, is_zero a = true) gammai w0 alpha).
  - reflexivity.
  - apply is_zero_add.
  - intros g Hgz. apply is_zero_mul. by left.
  - intros g Hgz. apply is_zero_mul. by right.
  - intros s0 Hs. apply is_zero_mul. by right.
  - done.
Qed.

Lemma zero_discount_zero_thresholds_witness :
  Forall (λ g, is_zero g = true) (replicate 5 0%float) ∧
  is_finite double_w0 = true ∧ is_finite double_alpha = true ∧
  is_finite (double_alpha - double_w0) = true ∧
  ∃ pv al rj,
    lordstar_async_faster double_pval [1; 2; 3; 4; 5] (replicate 5 0%float)
      double_w0 double_alpha = Ok (pv, al, rj) ∧
    Forall (λ a, is_zero a = true) al.
Proof.
  assert (Hg : Forall (λ g, is_zero g = true) (replicate 5 0%float))
    by (by repeat constructor).
  destruct (zero_discount_zero_thresholds (replicate 5 0%float) double_w0 double_alpha
              Hg eq_refl eq_refl eq_refl) as (Hasync & _).
  split; [exact Hg|]. do 3 (split; [reflexivity|]).
  do 3 eexists. split; [vm_compute; reflexivity|].
  refine (Hasync double_pval [1; 2; 3; 4; 5] _ _ _ _). vm_compute. reflexivity.
Defined.

(** ** A constant delay against a constant lag *)

Lemma visible_count_delay (N : nat) (c : Z) (Rv : list bool) (i : Z) :
  0 ≤ c → 1 ≤ i < Z.of_nat N → length Rv = N →
  visible_count (seqZ (1 + c) (Z.of_nat N)) Rv i = lagged_count (replicate N c) Rv i.
Proof.
  intros Hc Hi HRv. unfold visible_count, lagged_count.
  rewrite nth_lookup, lookup_replicate_2 by lia. simpl.
  set (m := Z.to_nat (i - c)).
  replace (Z.to_nat i) with (m + (Z.to_nat i - m))%nat by lia.
  rewrite seq_app, fmap_app, count_true_app.
  assert (Hfirst : visible Rv (seqZ (1 + c) (Z.of_nat N)) i <$> seq 0 m = take m Rv).
  { apply list_eq. intros j. rewrite list_lookup_fmap.
    destruct (decide (j < m)%nat) as [Hj|Hj].
    - rewrite lookup_seq_lt, lookup_take_lt by done. simpl. unfold visible.
      destruct (lookup_lt_is_Some_2 Rv j) as [d Hd]; [lia|]. rewrite Hd.
      rewrite lookup_seqZ_lt by lia. destruct d; [|done].
      by rewrite bool_decide_eq_true_2 by lia.
    - rewrite lookup_seq_ge, lookup_take_ge by lia. done. }
  rewrite Hfirst, (count_true_all_false (_ <$> seq (0 + m) _)); [lia|].
  apply Forall_fmap, Forall_forall. intros j Hj%elem_of_seq. simpl. unfold visible.
  destruct (Rv !! j) as [[|]|]; [|done..].
  destruct (seqZ (1 + c) (Z.of_nat N) !! j) as [ej|] eqn:Hej; [|done].
  apply lookup_seqZ in Hej as [-> _]. apply bool_decide_eq_false_2. lia.
Qed.

Section DelayLag.
Context {F : Type} `{Arith F}.

Lemma async_delay_counts (N : nat) (c : Z) (Rv : list bool) (i : Z) :
  0 ≤ c → 1 ≤ i < Z.of_nat N → length Rv = N →
  async_count (seqZ (1 + c) (Z.of_nat N)) Rv i = dep_count (replicate N c) Rv i.
Proof.
  intros Hc Hi HRv. unfold async_count, dep_count.
  destruct (async_cond_total Rv (seqZ (1 + c) (Z.of_nat N)) i) as [ca Hca];
    [lia | rewrite length_seqZ; lia |].
  destruct (dep_cond_total (replicate N c) Rv i c) as [cd Hcd];
    [lia | apply lookup_replicate_2; lia | lia |].
  rewrite Hca, Hcd. f_equal.
  assert (Hi0 : 0 ≤ i) by lia.
  rewrite (async_cond_value _ _ _ _ Hca), (dep_cond_value _ _ _ _ Hi0 Hcd).
  by apply visible_count_delay.
Qed.

(** Two recursions agree when their counts agree on decision vectors of
    the length of the run. *)
Lemma lord_run_ext_length (pval gammai : list F) (w0 alpha : F)
    (cnt1 cnt2 : list bool → Z → result Z) :
  (∀ Rv i, 1 ≤ i < Z.of_nat (length pval) → length Rv = length pval →
     cnt1 Rv i = cnt2 Rv i) →
  lord_run cnt1 pval gammai w0 alpha = lord_run cnt2 pval gammai w0 alpha.
Proof.
  intros Hcnt. unfold lord_run.
  destruct (vget gammai 0) as [g0|]; [|done]. simpl.
  destruct (decide_at _ _ _ _ _) as [[al rj]|] eqn:Hd; [|done]. simpl.
  apply decide_at_Ok in Hd as (_ & _ & p & _ & -> & ->).
  destruct (decide (1 ≤ Z.of_nat (length pval))) as [HN|HN];
    [|by rewrite !for_range_empty by lia].
  set (h0 := History (<[Z.to_nat 0 := fmul g0 w0]> (replicate (length pval) fzero))
               (<[Z.to_nat 0 := fle p (fmul g0 w0)]> (replicate (length pval) false)) []).
  assert (Hinit : h0 = h0 ∧ length (R h0) = length pval).
  { split; [done|]. simpl. by rewrite length_insert, length_replicate. }
  assert (Hstep : ∀ i t1 t2, 1 ≤ i < Z.of_nat (length pval) →
            t1 = t2 ∧ length (R t1) = length pval →
            result_rel (λ h1 h2 : history F, h1 = h2 ∧ length (R h1) = length pval)
              (lord_step cnt1 pval gammai w0 alpha i t1)
              (lord_step cnt2 pval gammai w0 alpha i t2)).
  { intros i t1 t2 Hi [<- Hlen]. unfold lord_step. rewrite (Hcnt _ _ Hi Hlen).
    destruct (cnt2 (R t1) i) as [c|]; [|done]. simpl.
    destruct (lord_threshold _ _ _ _ _ _) as [t|]; [|done]. simpl.
    destruct (decide_at pval i t (alphai t1) (R t1)) as [[al' rj']|] eqn:Hd; [|done].
    simpl. apply decide_at_Ok in Hd as (_ & _ & p' & _ & -> & ->).
    split; [done|]. simpl. by rewrite length_insert. }
  assert (Hsim := for_range_sim
    (λ (_ : Z) (h1 h2 : history F), h1 = h2 ∧ length (R h1) = length pval)
    (lord_step cnt1 pval gammai w0 alpha) (lord_step cnt2 pval gammai w0 alpha)
    1 (Z.of_nat (length pval)) h0 h0 HN Hinit Hstep).
  destruct (for_range 1 _ (lord_step cnt1 _ _ _ _) _) as [h1|],
           (for_range 1 _ (lord_step cnt2 _ _ _ _) _) as [h2|];
    simpl in Hsim; [|done..].
  by destruct Hsim as [-> _].
Qed.

(** X17: From two tests on, the async procedure in which every decision
    becomes visible [c] steps after the next one (horizons
    [1 + c, 2 + c, ...]) returns the thresholds and decisions of the
    dependency procedure with the constant lag [c], or both fault. *)
Theorem async_delay_dep_lag (pval gammai : list F) (w0 alpha : F) (c : Z) :
  0 ≤ c → (2 ≤ length pval)%nat →
  (λ o, (o.1.2, o.2)) <$>
    lordstar_async_faster pval (seqZ (1 + c) (Z.of_nat (length pval))) gammai w0 alpha
  = (λ o, (o.1.2, o.2)) <$>
    lordstar_dep_faster pval (replicate (length pval) c) gammai w0 alpha.
Proof.
  intros Hc HN. unfold lordstar_async_faster, lordstar_dep_faster.
  rewrite async_run_eq, dep_run_eq by done.
  rewrite (lord_run_ext_length pval gammai w0 alpha
             (async_count (seqZ (1 + c) (Z.of_nat (length pval))))
             (dep_count (replicate (length pval) c))).
  - by destruct (lord_run _ _ _ _ _).
  - intros Rv i Hi HRv. by apply async_delay_counts.
Qed.

End DelayLag.

Lemma async_delay_dep_lag_witness :
  0 ≤ 2 ∧ (2 ≤ length busy_pval)%nat ∧
  (λ o, (o.1.2, o.2)) <$>
    lordstar_async_faster busy_pval (seqZ (1 + 2) (Z.of_nat (length busy_pval)))
      scenario_gammai scenario_w0 scenario_alpha
  = (λ o, (o.1.2, o.2)) <$>
    lordstar_dep_faster busy_pval (replicate (length busy_pval) 2)
      scenario_gammai scenario_w0 scenario_alpha.
Proof.
  assert (Hc : 0 ≤ 2) by lia.
  assert (HN : (2 ≤ length busy_pval)%nat) by (simpl; lia).
  split; [exact Hc|]. split; [exact HN|].
  exact (async_delay_dep_lag busy_pval scenario_gammai scenario_w0 scenario_alpha 2 Hc HN).
Defined.
